(** * xkcd-search-service: normalizer, updater, searcher and rate limiter

    A shallow embedding of the Go services of the repository:

    - [words/words/words.go]            the normalizer [Norm];
    - [search/core/service.go]          [Search], [rankedSearch], [ISearch];
    - [update/core/service.go]          [Update], [worker], [Drop];
    - [update/adapters/xkcd]            [Client.LastID], [Client.Get];
    - [api/adapters/rest/middleware]    the token-bucket [RateLimiter].

    Go strings are kept as the sequence of runes that [range] decodes from
    them; [int64] values are integers of [Z] with the wrap-around written
    where the code multiplies; Go maps are [gmap]s. *)

From Stdlib Require Import ZArith Floats.
From stdpp Require Import base option list sorting gmap strings.

Open Scope Z_scope.

(** ** Strings *)

(** A rune is a Unicode code point (Go's [int32]). *)
Definition rune := Z.

(** A Go string, as the runes a [for _, r := range s] loop yields. *)
Definition gostring := list rune.

(** The runes of an ASCII literal. *)
Definition runes (s : string) : gostring :=
  (fun a => Z.of_N (Ascii.N_of_ascii a)) <$> String.list_ascii_of_string s.

(** Number of bytes of the UTF-8 encoding of a rune ([utf8.RuneLen], with
    the three-byte replacement character for what does not encode). *)
Definition runeLen (r : rune) : Z :=
  if r <? 0 then 3
  else if r <? 128 then 1
  else if r <? 2048 then 2
  else if r <? 65536 then 3
  else if r <? 1114112 then 4
  else 3.

(** [len(s)] of a Go string: its length in bytes. *)
Definition byteLen (s : gostring) : Z := foldr (fun r n => runeLen r + n) 0 s.

(** [strings.Join(elems, sep)]. *)
Fixpoint Join (elems : list gostring) (sep : gostring) : gostring :=
  match elems with
  | [] => []
  | [e] => e
  | e :: rest => e ++ sep ++ Join rest sep
  end.

(** The range tables of Go's [unicode] package above the ASCII range are
    not part of the repository; they are taken as a parameter. *)
Record UnicodeTables := {
  tblLetter : rune -> bool;
  tblNumber : rune -> bool;
  tblSpace  : rune -> bool;
  tblLower  : rune -> rune;
}.

Definition isAsciiUpper (r : rune) : bool := (65 <=? r) && (r <=? 90).
Definition isAsciiLower (r : rune) : bool := (97 <=? r) && (r <=? 122).
Definition isAsciiDigit (r : rune) : bool := (48 <=? r) && (r <=? 57).

(** [unicode.IsLetter]. *)
Definition IsLetter (u : UnicodeTables) (r : rune) : bool :=
  if (0 <=? r) && (r <? 128) then isAsciiUpper r || isAsciiLower r
  else tblLetter u r.

(** [unicode.IsNumber]. *)
Definition IsNumber (u : UnicodeTables) (r : rune) : bool :=
  if (0 <=? r) && (r <? 128) then isAsciiDigit r
  else tblNumber u r.

(** [unicode.IsSpace]. *)
Definition IsSpace (u : UnicodeTables) (r : rune) : bool :=
  if (0 <=? r) && (r <? 128) then ((9 <=? r) && (r <=? 13)) || (r =? 32)
  else tblSpace u r.

(** [unicode.ToLower]. *)
Definition ToLowerRune (u : UnicodeTables) (r : rune) : rune :=
  if (0 <=? r) && (r <? 128) then (if isAsciiUpper r then r + 32 else r)
  else tblLower u r.

(** [strings.FieldsFunc(s, f)]: the maximal runs of runes that do not
    satisfy [f].  [cur] is the field being read, last rune first; it is
    empty exactly when the Go loop has [start < 0]. *)
Fixpoint fieldsFrom (f : rune -> bool) (cur : list rune) (s : gostring)
  : list gostring :=
  match s with
  | [] => match cur with [] => [] | _ => [reverse cur] end
  | r :: s' =>
      if f r then
        match cur with
        | [] => fieldsFrom f [] s'
        | _ => reverse cur :: fieldsFrom f [] s'
        end
      else fieldsFrom f (r :: cur) s'
  end.

Definition FieldsFunc (s : gostring) (f : rune -> bool) : list gostring :=
  fieldsFrom f [] s.

(** ** The normalizer ([words/words/words.go]) *)

Module Words.

Section Norm.

(** [english.Stem(word, true)] and [english.IsStopWord] come from the
    imported package [github.com/kljensen/snowball]. *)
Context (u : UnicodeTables).
Context (Stem : gostring -> gostring).
Context (IsStopWord : gostring -> bool).

(** The splitting predicate of [Norm]. *)
Definition isSeparator (c : rune) : bool :=
  negb (IsLetter u c) && negb (IsNumber u c).

(** The state of the loop: [keywords] and [dict]. *)
Definition normState : Type := list gostring * gmap gostring bool.

(** [dict[k]], which is [false] for a missing key. *)
Definition dictGet (dict : gmap gostring bool) (k : gostring) : bool :=
  default false (dict !! k).

(** One iteration of [for _, word := range filteredSeq]. *)
Definition normStep (st : normState) (word : gostring) : normState :=
  let stemmed := Stem word in
  if negb (IsStopWord stemmed) && negb (dictGet st.2 stemmed)
  then (st.1 ++ [stemmed], <[stemmed := true]> st.2)
  else st.

Definition Norm (phrase : gostring) : list gostring :=
  (foldl normStep ([], ∅) (FieldsFunc phrase isSeparator)).1.

(** The stemmed tokens of a phrase, in order. *)
Definition stems (phrase : gostring) : list gostring :=
  Stem <$> FieldsFunc phrase isSeparator.

(** Position of the first occurrence of [k] in [l] ([length l] when
    there is none). *)
Fixpoint firstIndex (k : gostring) (l : list gostring) : nat :=
  match l with
  | [] => O
  | x :: l' => if decide (x = k) then O else S (firstIndex k l')
  end.

End Norm.

End Words.

(** ** The Snowball English stemmer

    [Norm] imports [english.Stem] and [english.IsStopWord] from
    [github.com/kljensen/snowball], which is outside the repository.  The
    module below follows that package function by function (the published
    Snowball English algorithm), so that [Norm] can be run. *)

Module Snowball.

(** [snowballword.SnowballWord]: the runes and the starts of R1, R2. *)
Record SnowballWord := {
  RS : list rune;
  R1start : Z;
  R2start : Z;
}.

Definition rsLen (w : SnowballWord) : Z := Z.of_nat (length (RS w)).

(** [w.RS[i]]; every use below is guarded by a bound check. *)
Definition runeAt (l : list rune) (i : Z) : rune :=
  if i <? 0 then 0 else default 0 (l !! Z.to_nat i).

Definition hasSuffix (l suf : list rune) : bool :=
  (length suf <=? length l)%nat
  && bool_decide (drop (length l - length suf) l = suf).

Definition hasPrefix (l pre : list rune) : bool :=
  bool_decide (take (length pre) l = pre).

(** [w.FirstSuffix(suffixes...)]: the first of the candidates, in the
    order given, that ends the word; empty when there is none. *)
Fixpoint FirstSuffix (l : list rune) (suffixes : list string) : gostring :=
  match suffixes with
  | [] => []
  | s :: rest => if hasSuffix l (runes s) then runes s else FirstSuffix l rest
  end.

Fixpoint FirstPrefix (l : list rune) (prefixes : list string) : gostring :=
  match prefixes with
  | [] => []
  | s :: rest => if hasPrefix l (runes s) then runes s else FirstPrefix l rest
  end.

Definition resetR1R2 (w : SnowballWord) : SnowballWord :=
  {| RS := RS w;
     R1start := if rsLen w <? R1start w then rsLen w else R1start w;
     R2start := if rsLen w <? R2start w then rsLen w else R2start w |}.

Definition withRS (w : SnowballWord) (rs : list rune) : SnowballWord :=
  {| RS := rs; R1start := R1start w; R2start := R2start w |}.

Definition RemoveLastNRunes (n : nat) (w : SnowballWord) : SnowballWord :=
  resetR1R2 (withRS w (take (length (RS w) - n) (RS w))).

(** [w.ReplaceSuffixRunes(suffix, repl, true)]. *)
Definition ReplaceSuffixRunes (suf repl : list rune) (w : SnowballWord)
  : SnowballWord :=
  resetR1R2 (withRS w (take (length (RS w) - length suf) (RS w) ++ repl)).

Definition isLowerVowel (r : rune) : bool :=
  (r =? 97) || (r =? 101) || (r =? 105) || (r =? 111) || (r =? 117)
  || (r =? 121).

Definition stopWords : list string :=
  [ "a"; "about"; "above"; "after"; "again"; "against"; "all"; "am"; "an";
    "and"; "any"; "are"; "as"; "at"; "be"; "because"; "been"; "before";
    "being"; "below"; "between"; "both"; "but"; "by"; "can"; "did"; "do";
    "does"; "doing"; "don"; "down"; "during"; "each"; "few"; "for"; "from";
    "further"; "had"; "has"; "have"; "having"; "he"; "her"; "here"; "hers";
    "herself"; "him"; "himself"; "his"; "how"; "i"; "if"; "in"; "into";
    "is"; "it"; "its"; "itself"; "just"; "me"; "more"; "most"; "my";
    "myself"; "no"; "nor"; "not"; "now"; "of"; "off"; "on"; "once"; "only";
    "or"; "other"; "our"; "ours"; "ourselves"; "out"; "over"; "own"; "s";
    "same"; "she"; "should"; "so"; "some"; "such"; "t"; "than"; "that";
    "the"; "their"; "theirs"; "them"; "themselves"; "then"; "there";
    "these"; "they"; "this"; "those"; "through"; "to"; "too"; "under";
    "until"; "up"; "very"; "was"; "we"; "were"; "what"; "when"; "where";
    "which"; "while"; "who"; "whom"; "why"; "will"; "with"; "you"; "your";
    "yours"; "yourself"; "yourselves" ]%string.

Definition IsStopWord (word : gostring) : bool :=
  bool_decide (word ∈ runes <$> stopWords).

(** [stemSpecialWord]: the exceptional forms, empty when [word] is not
    one of them. *)
Definition specialWords : list (string * string) :=
  [ ("skis", "ski"); ("skies", "sky"); ("dying", "die"); ("lying", "lie");
    ("tying", "tie"); ("idly", "idl"); ("gently", "gentl");
    ("ugly", "ugli"); ("early", "earli"); ("only", "onli");
    ("singly", "singl"); ("sky", "sky"); ("news", "news"); ("howe", "howe");
    ("atlas", "atlas"); ("cosmos", "cosmos"); ("bias", "bias");
    ("andes", "andes"); ("inning", "inning"); ("outing", "outing");
    ("canning", "canning"); ("herring", "herring");
    ("earring", "earring"); ("proceed", "proceed"); ("exceed", "exceed");
    ("succeed", "succeed") ]%string.

Fixpoint lookupSpecial (word : gostring) (tbl : list (string * string))
  : gostring :=
  match tbl with
  | [] => []
  | (k, v) :: rest =>
      if bool_decide (word = runes k) then runes v
      else lookupSpecial word rest
  end.

Definition stemSpecialWord (word : gostring) : gostring :=
  lookupSpecial word specialWords.

(** [normalizeApostrophes]. *)
Definition normalizeApostrophes (rs : list rune) : list rune :=
  (fun r => if (r =? 8217) || (r =? 8216) || (r =? 8219) then 39 else r)
    <$> rs.

(** The index at which the loop of [trimLeftApostrophes] stops. *)
Fixpoint leadingApostrophes (rs : list rune) : nat :=
  match rs with
  | r :: ((_ :: _) as rest) =>
      if r =? 39 then S (leadingApostrophes rest) else O
  | _ => O
  end.

Definition trimLeftApostrophes (rs : list rune) : list rune :=
  drop (leadingApostrophes rs) rs.

(** [capitalizeYs], which reads the rune before [i] after it has been
    rewritten. *)
Fixpoint capitalizeYsFrom (first : bool) (prev : rune) (rs : list rune)
  : list rune :=
  match rs with
  | [] => []
  | r :: rest =>
      let r' := if (r =? 121) && (first || isLowerVowel prev) then 89
                else r in
      r' :: capitalizeYsFrom false r' rest
  end.

Definition capitalizeYs (rs : list rune) : list rune :=
  capitalizeYsFrom true 0 rs.

Definition uncapitalizeYs (rs : list rune) : list rune :=
  (fun r => if r =? 89 then 121 else r) <$> rs.

(** [romance.VnvSuffix(word, isLowerVowel, start)]: [rest] is
    [RS[j:]] and [prev] is [RS[j-1]]. *)
Fixpoint vnvFrom (prev : rune) (rest : list rune) (j : Z) : option Z :=
  match rest with
  | [] => None
  | r :: rest' =>
      if isLowerVowel prev && negb (isLowerVowel r) then Some (j + 1)
      else vnvFrom r rest' (j + 1)
  end.

Definition VnvSuffix (rs : list rune) (start : Z) : Z :=
  match drop (Z.to_nat start) rs with
  | [] => Z.of_nat (length rs)
  | p :: rest => default (Z.of_nat (length rs)) (vnvFrom p rest (start + 1))
  end.

Definition r1r2 (rs : list rune) : Z * Z :=
  let specialPrefix := FirstPrefix rs ["gener"; "commun"; "arsen"]%string in
  let r1start :=
    match specialPrefix with
    | [] => VnvSuffix rs 0
    | _ => Z.of_nat (length specialPrefix)
    end in
  (r1start, VnvSuffix rs r1start).

Definition preprocess (rs : list rune) : SnowballWord :=
  let rs' := capitalizeYs (trimLeftApostrophes (normalizeApostrophes rs)) in
  {| RS := rs'; R1start := (r1r2 rs').1; R2start := (r1r2 rs').2 |}.

Definition postprocess (w : SnowballWord) : gostring :=
  uncapitalizeYs (RS w).

(** [endsShortSyllable(w, i)]. *)
Definition endsShortSyllable (w : SnowballWord) (i : Z) : bool :=
  if i =? 2 then
    isLowerVowel (runeAt (RS w) 0) && negb (isLowerVowel (runeAt (RS w) 1))
  else if 3 <=? i then
    let s1 := runeAt (RS w) (i - 1) in
    let s2 := runeAt (RS w) (i - 2) in
    let s3 := runeAt (RS w) (i - 3) in
    negb (isLowerVowel s1) && negb (s1 =? 119) && negb (s1 =? 120)
    && negb (s1 =? 89) && isLowerVowel s2 && negb (isLowerVowel s3)
  else false.

Definition isShortWord (w : SnowballWord) : bool :=
  if R1start w <? rsLen w then false else endsShortSyllable w (rsLen w).

Definition step0 (w : SnowballWord) : SnowballWord :=
  match FirstSuffix (RS w) ["'s'"; "'s"; "'"]%string with
  | [] => w
  | suffix => RemoveLastNRunes (length suffix) w
  end.

Definition step1a (w : SnowballWord) : SnowballWord :=
  let suffix :=
    FirstSuffix (RS w) ["sses"; "ied"; "ies"; "us"; "ss"; "s"]%string in
  if bool_decide (suffix = runes "sses") then
    ReplaceSuffixRunes suffix (runes "ss") w
  else if bool_decide (suffix = runes "ies")
          || bool_decide (suffix = runes "ied") then
    ReplaceSuffixRunes suffix
      (if 4 <? rsLen w then runes "i" else runes "ie") w
  else if bool_decide (suffix = runes "s") then
    if existsb isLowerVowel (take (length (RS w) - 2) (RS w))
    then RemoveLastNRunes (length suffix) w
    else w
  else w.

(** The second half of [step1b], after "ed", "edly", "ing" or "ingly"
    has been deleted. *)
Definition step1bFix (originalR1start originalR2start : Z)
    (w : SnowballWord) : SnowballWord :=
  let restore (w' : SnowballWord) : SnowballWord :=
    {| RS := RS w';
       R1start := if originalR1start <? rsLen w' then originalR1start
                  else rsLen w';
       R2start := if originalR2start <? rsLen w' then originalR2start
                  else rsLen w' |} in
  let newSuffix :=
    FirstSuffix (RS w)
      ["at"; "bl"; "iz"; "bb"; "dd"; "ff"; "gg"; "mm"; "nn"; "pp"; "rr";
       "tt"]%string in
  match newSuffix with
  | [] =>
      if isShortWord w then
        let rs := RS w ++ runes "e" in
        {| RS := rs; R1start := Z.of_nat (length rs);
           R2start := Z.of_nat (length rs) |}
      else restore w
  | _ =>
      if bool_decide (newSuffix = runes "at")
         || bool_decide (newSuffix = runes "bl")
         || bool_decide (newSuffix = runes "iz")
      then restore (ReplaceSuffixRunes newSuffix (newSuffix ++ runes "e") w)
      else restore (RemoveLastNRunes 1 w)
  end.

Definition step1b (w : SnowballWord) : SnowballWord :=
  let suffix :=
    FirstSuffix (RS w)
      ["eedly"; "ingly"; "edly"; "ing"; "eed"; "ed"]%string in
  match suffix with
  | [] => w
  | _ =>
      if bool_decide (suffix = runes "eed")
         || bool_decide (suffix = runes "eedly") then
        if Z.of_nat (length suffix) <=? rsLen w - R1start w
        then ReplaceSuffixRunes suffix (runes "ee") w
        else w
      else if existsb isLowerVowel
                (take (length (RS w) - length suffix) (RS w)) then
        step1bFix (R1start w) (R2start w)
          (RemoveLastNRunes (length suffix) w)
      else w
  end.

Definition step1c (w : SnowballWord) : SnowballWord :=
  let n := rsLen w in
  if (2 <? n)
     && ((runeAt (RS w) (n - 1) =? 121) || (runeAt (RS w) (n - 1) =? 89))
     && negb (isLowerVowel (runeAt (RS w) (n - 2)))
  then withRS w (take (length (RS w) - 1) (RS w) ++ [105])
  else w.

Definition step2Replacements : list (string * string) :=
  [ ("tional", "tion"); ("enci", "ence"); ("anci", "ance");
    ("abli", "able"); ("entli", "ent"); ("izer", "ize");
    ("ization", "ize"); ("ational", "ate"); ("ation", "ate");
    ("ator", "ate"); ("alism", "al"); ("aliti", "al"); ("alli", "al");
    ("fulness", "ful"); ("ousli", "ous"); ("ousness", "ous");
    ("iveness", "ive"); ("iviti", "ive"); ("biliti", "ble");
    ("bli", "ble"); ("fulli", "ful"); ("lessli", "less") ]%string.

Definition isValidLiEnding (r : rune) : bool :=
  bool_decide (r ∈ [99; 100; 101; 103; 104; 107; 109; 110; 114; 116]).

Definition step2 (w : SnowballWord) : SnowballWord :=
  let suffix :=
    FirstSuffix (RS w)
      ["ization"; "ational"; "fulness"; "ousness"; "iveness"; "tional";
       "lessli"; "biliti"; "entli"; "ation"; "alism"; "aliti"; "fulli";
       "ousli"; "iviti"; "enci"; "anci"; "abli"; "izer"; "ator"; "alli";
       "bli"; "ogi"; "li"]%string in
  match suffix with
  | [] => w
  | _ =>
      if rsLen w - R1start w <? Z.of_nat (length suffix) then w
      else if bool_decide (suffix = runes "li") then
        if (3 <=? rsLen w) && isValidLiEnding (runeAt (RS w) (rsLen w - 3))
        then RemoveLastNRunes (length suffix) w
        else w
      else if bool_decide (suffix = runes "ogi") then
        if (4 <=? rsLen w) && (runeAt (RS w) (rsLen w - 4) =? 108)
        then ReplaceSuffixRunes suffix (runes "og") w
        else w
      else
        ReplaceSuffixRunes suffix (lookupSpecial suffix step2Replacements) w
  end.

Definition step3Replacements : list (string * string) :=
  [ ("ational", "ate"); ("tional", "tion"); ("alize", "al");
    ("icate", "ic"); ("iciti", "ic"); ("ical", "ic"); ("ful", "");
    ("ness", "") ]%string.

Definition step3 (w : SnowballWord) : SnowballWord :=
  let suffix :=
    FirstSuffix (RS w)
      ["ational"; "tional"; "alize"; "icate"; "ative"; "iciti"; "ical";
       "ness"; "ful"]%string in
  match suffix with
  | [] => w
  | _ =>
      if rsLen w - R1start w <? Z.of_nat (length suffix) then w
      else if bool_decide (suffix = runes "ative") then
        if 5 <=? rsLen w - R2start w
        then RemoveLastNRunes (length suffix) w
        else w
      else
        ReplaceSuffixRunes suffix (lookupSpecial suffix step3Replacements) w
  end.

Definition step4 (w : SnowballWord) : SnowballWord :=
  let suffix :=
    FirstSuffix (RS w)
      ["ement"; "ance"; "ence"; "able"; "ible"; "ment"; "ent"; "ant";
       "ism"; "ate"; "iti"; "ous"; "ive"; "ize"; "ion"; "al"; "er";
       "ic"]%string in
  if rsLen w - R2start w <? Z.of_nat (length suffix) then w
  else
    match suffix with
    | [] => w
    | _ =>
        if bool_decide (suffix = runes "ion") then
          if (4 <=? rsLen w)
             && ((runeAt (RS w) (rsLen w - 4) =? 115)
                 || (runeAt (RS w) (rsLen w - 4) =? 116))
          then RemoveLastNRunes (length suffix) w
          else w
        else RemoveLastNRunes (length suffix) w
    end.

Definition step5 (w : SnowballWord) : SnowballWord :=
  let lri := rsLen w - 1 in
  if lri <? R1start w then w
  else if runeAt (RS w) lri =? 101 then
    if (R2start w <=? lri) || negb (endsShortSyllable w lri)
    then ReplaceSuffixRunes [101] [] w
    else w
  else if (R2start w <=? lri) && (runeAt (RS w) lri =? 108)
          && (0 <=? lri - 1) && (runeAt (RS w) (lri - 1) =? 108)
  then ReplaceSuffixRunes [108] [] w
  else w.

Fixpoint dropWhileRunes (f : rune -> bool) (s : gostring) : gostring :=
  match s with
  | r :: s' => if f r then dropWhileRunes f s' else s
  | [] => []
  end.

(** [strings.TrimSpace]. *)
Definition TrimSpace (u : UnicodeTables) (s : gostring) : gostring :=
  reverse (dropWhileRunes (IsSpace u) (reverse (dropWhileRunes (IsSpace u) s))).

(** [strings.ToLower]. *)
Definition ToLower (u : UnicodeTables) (s : gostring) : gostring :=
  ToLowerRune u <$> s.

(** [english.Stem(word, stemStopwords)]. *)
Definition Stem (u : UnicodeTables) (stemStopwords : bool)
    (word : gostring) : gostring :=
  let word := ToLower u (TrimSpace u word) in
  if (byteLen word <=? 2) || (negb stemStopwords && IsStopWord word)
  then word
  else
    match stemSpecialWord word with
    | (_ :: _) as specialVersion => specialVersion
    | [] =>
        postprocess
          (step5 (step4 (step3 (step2 (step1c (step1b (step1a (step0
             (preprocess word)))))))))
    end.

End Snowball.

(** The normalizer of the words service: [Norm] over the imported
    stemmer, called as [english.Stem(word, true)]. *)
Definition WordsNorm (u : UnicodeTables) (phrase : gostring) : list gostring :=
  Words.Norm u (Snowball.Stem u true) Snowball.IsStopWord phrase.

(** Tables that classify nothing above the ASCII range.  The phrases of
    the scenarios are ASCII, for which no table is consulted. *)
Definition asciiTables : UnicodeTables :=
  {| tblLetter := fun _ => false; tblNumber := fun _ => false;
     tblSpace := fun _ => false; tblLower := fun r => r |}.

(** The phrase of scenario S3. *)
Definition weirdPhrase : gostring :=
  runes "Moscow!123'check-it'or   123, man,that,difficult:heck".

(** The table of [words/words/words_test.go]: a phrase and the keywords
    the test expects, compared by the test without regard to order. *)
Definition testCases : list (string * list string) :=
  [ ("", []);
    ("simple", ["simpl"]);
    ("I follow followers", ["follow"]);
    ("I shouted: 'give me your car!!!", ["shout"; "give"; "car"]);
    ("I and you or me or them, who will?", []);
    ("Moscow!123'check-it'or   123, man,that,difficult:heck",
     ["moscow"; "check"; "123"; "man"; "difficult"; "heck"]);
    ("123 456 789", ["123"; "456"; "789"]);
    ("GoLang GOLANG golang", ["golang"]);
    ("hello    world     test", ["hello"; "world"; "test"]);
    ("test@email.com #hashtag $100",
     ["test"; "email"; "com"; "hashtag"; "100"]);
    ("a b c", ["b"; "c"]);
    ("supercalifragilisticexpialidocious",
     ["supercalifragilisticexpialidoci"]) ]%string.

(** ** Errors and results *)

(** The sentinel errors of the [core] packages, and the two errors a
    [context.Context] reports. *)
Inductive sentinel :=
  | ErrBadArguments
  | ErrAlreadyExists
  | ErrNotFound
  | ErrServiceUnavailable
  | ErrInvalidCredentials
  | Canceled
  | DeadlineExceeded.

(** A Go [error]: a sentinel, an error that wraps another one
    ([fmt.Errorf("...: %w", err)]), or any other error value. *)
Inductive error :=
  | Sentinel (s : sentinel)
  | Wrapf (msg : string) (inner : error)
  | Opaque (msg : string).

#[global] Instance sentinel_eq_dec : EqDecision sentinel.
Proof. solve_decision. Defined.

(** [errors.Is(err, target)] for a sentinel target. *)
Fixpoint errorsIs (err : error) (target : sentinel) : bool :=
  match err with
  | Sentinel s => bool_decide (s = target)
  | Wrapf _ inner => errorsIs inner target
  | Opaque _ => false
  end.

(** A Go result pair [(v, err)]. *)
Inductive result (A : Type) :=
  | Ok (v : A)
  | Err (e : error).
Arguments Ok {A} v.
Arguments Err {A} e.

(** [int64] arithmetic wraps around. *)
Definition wrap64 (z : Z) : Z := (z + 2 ^ 63) `mod` 2 ^ 64 - 2 ^ 63.

(** [sort.Slice(x, less)].  The library does not promise an order among
    elements that compare equal; it runs an insertion sort on slices of
    at most 12 elements, which is the function below.  [insertBack] is
    the inner loop [for j := i; j > a && less(j, j-1); j--], over the
    sorted prefix kept last element first.  The properties proved of the
    searches use only that the result is a permutation of the slice in
    which no element is [less] than one before it. *)
Fixpoint insertBack {A} (less : A -> A -> bool) (x : A) (revPrefix : list A)
  : list A :=
  match revPrefix with
  | [] => [x]
  | y :: rest =>
      if less x y then y :: insertBack less x rest else x :: revPrefix
  end.

Definition sortSlice {A} (less : A -> A -> bool) (x : list A) : list A :=
  reverse (foldl (fun revPrefix e => insertBack less e revPrefix) [] x).

(** ** The searcher ([search/core]) *)

Module Search.

Record Comic := { ID : Z; URL : gostring }.

Record ComicInfo := { comic : Comic; Words : list gostring }.

Record comicRank := { rankComic : Comic; matched : Z; total : Z }.

(** The ports [Words] and [DB] of the service. *)
Record Ports := {
  words_Norm : gostring -> result (list gostring);
  db_GetAllComicsInfo : result (list ComicInfo);
  db_GetComicsByIds : list Z -> result (list Comic);
}.

(** The service: its ports and the inverted index. *)
Record Service := {
  ports : Ports;
  index : gmap gostring (list Z);
}.

(** [m[k]] of a [map[string]bool]. *)
Definition setGet (m : gmap gostring bool) (k : gostring) : bool :=
  default false (m !! k).

(** [for _, word := range keywords { setOfPhrase[word] = true }]. *)
Definition makeSet (keywords : list gostring) : gmap gostring bool :=
  foldl (fun m word => <[word := true]> m) ∅ keywords.

(** The inner loop of [rankedSearch]: [matched++] per word in the set. *)
Definition countMatched (setOfPhrase : gmap gostring bool)
    (words : list gostring) : Z :=
  foldl (fun m word => if setGet setOfPhrase word then wrap64 (m + 1) else m)
    0 words.

(** The outer loop: the ranks of the entries with [matched != 0]. *)
Definition collectRanks (comicsInfo : list ComicInfo)
    (setOfPhrase : gmap gostring bool) : list comicRank :=
  foldl (fun comicsRanks c =>
           let m := countMatched setOfPhrase (Words c) in
           if m =? 0 then comicsRanks
           else comicsRanks ++
                  [{| rankComic := comic c; matched := m;
                      total := Z.of_nat (length (Words c)) |}])
    [] comicsInfo.

(** The [less] of [rankedSearch]. *)
Definition rankLess (a b : comicRank) : bool :=
  if negb (matched a =? matched b) then matched b <? matched a
  else
    let crossI := wrap64 (matched a * total b) in
    let crossJ := wrap64 (matched b * total a) in
    crossJ <? crossI.

(** [rankedSearch]; [Search] calls it with [limit > 0]. *)
Definition rankedSearch (comicsInfo : list ComicInfo)
    (setOfPhrase : gmap gostring bool) (limit : Z) : list Comic :=
  match comicsInfo with
  | [] => []
  | _ =>
      match collectRanks comicsInfo setOfPhrase with
      | [] => []
      | comicsRanks =>
          let sorted := sortSlice rankLess comicsRanks in
          let limit := Z.min (Z.of_nat (length sorted)) limit in
          rankComic <$> take (Z.to_nat limit) sorted
      end
  end.

Definition Search (s : Service) (phrase : gostring) (limit : Z)
  : result (list Comic) :=
  if bool_decide (phrase = []) || (limit <=? 0)
  then Err (Sentinel ErrBadArguments)
  else
    match words_Norm (ports s) phrase with
    | Err e => Err (Wrapf "failed to normalized phrase" e)
    | Ok keywords =>
        let setOfPhrase := makeSet keywords in
        match db_GetAllComicsInfo (ports s) with
        | Err e => Err (Wrapf "failed to get all comics" e)
        | Ok comicsInfo => Ok (rankedSearch comicsInfo setOfPhrase limit)
        end
    end.

(** The loop state of [ISearch]: [scores] and [uniqueIDs]. *)
Definition hits : Type := gmap Z Z * list Z.

(** The body of [for _, id := range s.index[keyword]]. *)
Definition hitStep (h : hits) (id : Z) : hits :=
  (<[id := wrap64 (default 0 (h.1 !! id) + 1)]> h.1,
   match h.1 !! id with
   | Some _ => h.2
   | None => h.2 ++ [id]
   end).

Definition collectHits (idx : gmap gostring (list Z))
    (keywords : list gostring) : hits :=
  foldl (fun h keyword => foldl hitStep h (default [] (idx !! keyword)))
    (∅, []) keywords.

(** The [less] of [ISearch]. *)
Definition scoreLess (scores : gmap Z Z) (a b : Comic) : bool :=
  default 0 (scores !! ID b) <? default 0 (scores !! ID a).

Definition ISearch (s : Service) (phrase : gostring) (limit : Z)
  : result (list Comic) :=
  if bool_decide (phrase = []) || (limit <=? 0)
  then Err (Sentinel ErrBadArguments)
  else
    match words_Norm (ports s) phrase with
    | Err e => Err (Wrapf "failed to normalized phrase" e)
    | Ok keywords =>
        let '(scores, uniqueIDs) := collectHits (index s) keywords in
        match db_GetComicsByIds (ports s) uniqueIDs with
        | Err e => Err (Wrapf "failed to get comics by comics ids" e)
        | Ok comics =>
            let sorted := sortSlice (scoreLess scores) comics in
            let limit := Z.min (Z.of_nat (length sorted)) limit in
            Ok (take (Z.to_nat limit) sorted)
        end
    end.

(** The [comics] table ([id BIGINT PRIMARY KEY, url, words]): one row
    per id. *)
Definition table : Type := gmap Z (gostring * list gostring).

(** The errors the driver may report for the two queries of the
    adapter; [None] is a query that is answered. *)
Record faults := {
  onGetAll : option error;
  onGetByIds : option error;
}.

Definition noFaults : faults := {| onGetAll := None; onGetByIds := None |}.

(** [DB.GetComicsByIds]: [SELECT id, url FROM comics WHERE id = ANY($1)],
    or the error of the driver, wrapped. *)
Definition GetComicsByIds (t : table) (fault : option error) (ids : list Z)
  : result (list Comic) :=
  match fault with
  | Some e =>
      Err (Wrapf "failed to select comics by ids from comics table" e)
  | None =>
      Ok ((fun row => {| ID := row.1; URL := row.2.1 |})
            <$> filter (fun row => row.1 ∈ ids) (map_to_list t))
  end.

(** [DB.GetAllComicsInfo]: [SELECT id, url, words FROM comics], or the
    error of the driver, wrapped. *)
Definition GetAllComicsInfo (t : table) (fault : option error)
  : result (list ComicInfo) :=
  match fault with
  | Some e =>
      Err (Wrapf "failed to select all comic info from comics table" e)
  | None =>
      Ok ((fun row => {| comic := {| ID := row.1; URL := row.2.1 |};
                         Words := row.2.2 |})
            <$> map_to_list t)
  end.

(** The service over the storage adapter and a words client. *)
Definition overTable (norm : gostring -> result (list gostring))
    (t : table) (f : faults) (idx : gmap gostring (list Z)) : Service :=
  {| ports := {| words_Norm := norm;
                 db_GetAllComicsInfo := GetAllComicsInfo t (onGetAll f);
                 db_GetComicsByIds := GetComicsByIds t (onGetByIds f) |};
     index := idx |}.

(** [UpdateIndex]: the index rebuilt from the catalog. *)
Definition buildIndex (comicsInfo : list ComicInfo)
  : gmap gostring (list Z) :=
  foldl (fun idx c =>
           foldl (fun idx keyword =>
                    <[keyword := default [] (idx !! keyword) ++ [ID (comic c)]]>
                      idx)
             idx (Words c))
    ∅ comicsInfo.

(** *** What the ranking is compared with *)

(** The entry has a word that is a keyword of the phrase. *)
Definition sharesKeyword (keywords : list gostring) (c : ComicInfo) : Prop :=
  Exists (fun w => w ∈ keywords) (Words c).

#[global] Instance sharesKeyword_dec keywords c :
  Decision (sharesKeyword keywords c).
Proof. unfold sharesKeyword. apply _. Defined.

(** The rank of an entry: how many of its words are keywords of the
    phrase, and how many words it has. *)
Definition rankOf (keywords : list gostring) (c : ComicInfo) : comicRank :=
  {| rankComic := comic c;
     matched := Z.of_nat (length (filter (fun w => w ∈ keywords) (Words c)));
     total := Z.of_nat (length (Words c)) |}.

(** [a] may stand before [b]: more matches, or as many and a ratio
    matched/total that is not smaller, compared cross-multiplied. *)
Definition rankedBefore (a b : comicRank) : Prop :=
  matched b < matched a
  \/ (matched a = matched b /\ matched b * total a <= matched a * total b).

(** The ranks that are sorted: at least one match, no more matches than
    words, and fewer than 2^31 words, so that no product wraps. *)
Definition boundedRank (r : comicRank) : Prop :=
  0 < matched r /\ matched r <= total r /\ total r < 2 ^ 31.

(** The service of scenario S4: the words service behind the port, and
    the three entries of the catalog. *)
Definition s4Catalog : list ComicInfo :=
  [ {| comic := {| ID := 1; URL := runes "url1" |};
       Words := [runes "test"; runes "phrase"] |};
    {| comic := {| ID := 2; URL := runes "url2" |};
       Words := [runes "test"; runes "phrase"; runes "unknown"] |};
    {| comic := {| ID := 3; URL := runes "url3" |};
       Words := [runes "test"] |} ].

(** The same entries as rows of the table, and the index built from
    them. *)
Definition s4Table : table :=
  list_to_map
    ((fun c => (ID (comic c), (URL (comic c), Words c))) <$> s4Catalog).

Definition s4Index : gmap gostring (list Z) := buildIndex s4Catalog.

(** The posting lists that the keywords hit, in the order of the loops
    of [ISearch]. *)
Definition postings (idx : gmap gostring (list Z)) (keywords : list gostring)
  : list Z :=
  concat ((fun keyword => default [] (idx !! keyword)) <$> keywords).

Definition s4Service : Service :=
  {| ports := {| words_Norm := fun phrase => Ok (WordsNorm asciiTables phrase);
                 db_GetAllComicsInfo := Ok s4Catalog;
                 db_GetComicsByIds := fun _ => Ok [] |};
     index := ∅ |}.

(** *** The index: [UpdateIndex], [ResetIndex], [HandleEvent] *)

Definition withIndex (s : Service) (idx : gmap gostring (list Z)) : Service :=
  {| ports := ports s; index := idx |}.

(** [UpdateIndex]: the catalog is read first; the index is cleared and
    rebuilt only when the read has succeeded. *)
Definition UpdateIndex (s : Service) : Service * option error :=
  match db_GetAllComicsInfo (ports s) with
  | Err e => (s, Some (Wrapf "failed to get all comics info" e))
  | Ok comicsInfo => (withIndex s (buildIndex comicsInfo), None)
  end.

(** [ResetIndex]. *)
Definition ResetIndex (s : Service) : Service := withIndex s ∅.

(** [EventType] is a string: the subscriber passes the payload of the
    message as it comes. *)
Definition EventUpdate : string := "update".
Definition EventReset : string := "reset".

(** [HandleEvent]. *)
Definition HandleEvent (s : Service) (eventType : string)
  : Service * option error :=
  if String.eqb eventType EventUpdate then
    match UpdateIndex s with
    | (s', Some e) => (s', Some (Wrapf "failed to update index" e))
    | (s', None) => (s', None)
    end
  else if String.eqb eventType EventReset then (ResetIndex s, None)
  else (s, None).

(** The score that [ISearch] sorts by. *)
Definition scoreOf (scores : gmap Z Z) (c : Comic) : Z :=
  default 0 (scores !! ID c).

(** The posting list of a keyword as the loops of [UpdateIndex] leave
    it: the id of each entry, once for each occurrence of the keyword
    among its words, in the order of the catalog. *)
Definition postingOf (comicsInfo : list ComicInfo) (keyword : gostring)
  : list Z :=
  comicsInfo ≫= fun c =>
    (fun _ => ID (comic c)) <$> filter (fun w => w = keyword) (Words c).

End Search.

(** ** The updater ([update/core]) *)

Module Update.

Record Comic := { ID : Z; URL : gostring; Words : list gostring }.

Record XKCDInfo := {
  infoID : Z;
  infoURL : gostring;
  SafeTitle : gostring;
  Title : gostring;
  Alt : gostring;
  Transcript : gostring;
}.

Inductive EventType := EventUpdate | EventReset.

Inductive ServiceStatus := StatusRunning | StatusIdle.

(** The ports [DB], [XKCD], [Words] and [Publisher]; [None] is a [nil]
    error.  The last field is not an interface of the service but the
    part of the Go runtime that [Update] depends on: the largest size
    [n] for which [make(chan int64, n)] and [make(chan *Comic, n)] do
    not panic.  [makechan] panics with "size out of range" when [n] is
    negative or when [n] elements and the header of the channel exceed
    [maxAlloc]; with elements of 8 bytes and the [maxAlloc] of
    linux/amd64, 2^48, the limit is a little below 2^45. *)
Record Ports := {
  db_IDs : result (list Z);
  db_Add : list Comic -> option error;
  db_Drop : option error;
  xkcd_LastID : result Z;
  xkcd_Get : Z -> result XKCDInfo;
  words_Norm : gostring -> result (list gostring);
  publisher_Publish : EventType -> option error;
  runtime_MaxChan : Z;
}.

Record Service := {
  ports : Ports;
  concurrency : Z;
  inProgress : bool;
}.

Definition NewService (p : Ports) (concurrency : Z) : result Service :=
  if concurrency <? 1 then Err (Opaque "wrong concurrency specified")
  else Ok {| ports := p; concurrency := concurrency; inProgress := false |}.

(** What a call does to the outside: calls on the ports and log lines. *)
Inductive level := Debug | Info | Warn | Error.

Inductive effect :=
  | CallIDs
  | CallLastID
  | CallGet (id : Z)
  | CallNorm (phrase : gostring)
  | CallAdd (comics : list Comic)
  | CallDrop
  | CallPublish (ev : EventType)
  | Log (lvl : level) (msg : string).

(** How a call ends: it returns an error or [nil], or it panics. *)
Inductive outcome :=
  | Returned (err : option error)
  | Panicked.

(** A run: the effects so far and how it ended. *)
Definition run : Type := list effect * outcome.

(** [emit es k]: the effects [es], then the run [k]. *)
Definition emit (es : list effect) (k : run) : run := (es ++ k.1, k.2).

Definition ret (err : option error) : run := ([], Returned err).

Definition withInProgress (s : Service) (b : bool) : Service :=
  {| ports := ports s; concurrency := concurrency s; inProgress := b |}.

(** [s.inProgress.CompareAndSwap(old, new)]: the new service and
    whether the swap happened. *)
Definition CompareAndSwap (s : Service) (old new : bool) : Service * bool :=
  if bool_decide (inProgress s = old) then (withInProgress s new, true)
  else (s, false).

(** [s.inProgress.Store(b)]. *)
Definition Store (s : Service) (b : bool) : Service := withInProgress s b.

Definition Status (s : Service) : ServiceStatus :=
  if inProgress s then StatusRunning else StatusIdle.

Definition makeDescription (info : XKCDInfo) : gostring :=
  Join [SafeTitle info; Title info; Transcript info; Alt info] (runes " ").

(** One iteration of [worker]: what it sends on [results] ([None] is
    [nil]) and its effects. *)
Definition worker (p : Ports) (id : Z) : option Comic * list effect :=
  if id =? 404 then (Some {| ID := id; URL := []; Words := [] |}, [])
  else
    match xkcd_Get p id with
    | Err e =>
        (None,
         [CallGet id;
          if errorsIs e ErrNotFound then Log Debug "comic not found"
          else Log Error "failed to get XKCDInfo"])
    | Ok info =>
        match words_Norm p (makeDescription info) with
        | Err e =>
            (None,
             [CallGet id; CallNorm (makeDescription info);
              Log Error "failed to normalize comic description"])
        | Ok keywords =>
            (Some {| ID := infoID info; URL := infoURL info;
                     Words := keywords |},
             [CallGet id; CallNorm (makeDescription info)])
        end
    end.

(** The order in which the results of the workers are received: at each
    step one of the outstanding jobs, picked by the next choice. *)
Fixpoint arrival (choices : list nat) (jobs : list Z) : list Z :=
  match choices with
  | [] => jobs
  | c :: choices' =>
      match jobs with
      | [] => []
      | j0 :: _ =>
          let i := (c `mod` length jobs)%nat in
          nth i jobs j0 :: arrival choices' (delete i jobs)
      end
  end.

(** [exists[id]] of the [map[int64]bool] built from the stored ids. *)
Definition makeExists (IDs : list Z) : gmap Z bool :=
  foldl (fun m id => <[id := true]> m) ∅ IDs.

(** The ids that [Update] sends on [jobs]. *)
Definition missing (IDs : list Z) (lastID : Z) : list Z :=
  filter (fun id => default false (makeExists IDs !! id) = false)
    (seqZ 1 lastID).

(** The part of [Update] that follows the reading of [lastID].
    [make(chan int64, lastID)] panics for a negative [lastID] and for
    one above the limit of the runtime; an allocation that the machine
    cannot serve below this limit is not modelled. *)
Definition ingest (choices : list nat) (p : Ports) (IDs : list Z)
    (lastID : Z) : run :=
  if (lastID <? 0) || (runtime_MaxChan p <? lastID) then ([], Panicked)
  else
    let results := worker p <$> arrival choices (missing IDs lastID) in
    let comics := omap fst results in
    emit (concat (snd <$> results))
      match comics with
      | [] => emit [Log Debug "no new comics to add"] (ret None)
      | _ =>
          emit [CallAdd comics]
            match db_Add p comics with
            | Some e =>
                emit [Log Error "failed to add comics"]
                  (ret (Some (Wrapf "failed to add comics" e)))
            | None =>
                emit [Log Debug "added new comics"; CallPublish EventUpdate]
                  match publisher_Publish p EventUpdate with
                  | Some e => emit [Log Error "failed to publish"] (ret None)
                  | None => ret None
                  end
            end
      end.

(** The body of [Update], between the swap and the deferred calls. *)
Definition updateBody (choices : list nat) (p : Ports) : run :=
  emit [Log Info "update started"; CallIDs]
    match db_IDs p with
    | Err e =>
        emit [Log Error "failed to get existing IDs in DB"]
          (ret (Some (Wrapf "failed to get existing IDs in DB" e)))
    | Ok IDs =>
        emit [Log Debug "existing comics in DB"; CallLastID]
          match xkcd_LastID p with
          | Err e =>
              emit [if errorsIs e ErrNotFound
                    then Log Warn "last comic not found from xkcd API"
                    else Log Error "failed to get last comic from xkcd API"]
                (ret (Some
                   (Wrapf "failed to get last comic from xkcd API" e)))
          | Ok lastID =>
              emit [Log Debug "last comics ID in XKCD"]
                (ingest choices p IDs lastID)
          end
    end.

(** The body of [Drop]. *)
Definition dropBody (p : Ports) : run :=
  emit [CallDrop]
    match db_Drop p with
    | Some e =>
        emit [Log Error "failed to drop db entries"]
          (ret (Some (Wrapf "failed to drop db entries" e)))
    | None =>
        emit [CallPublish EventReset]
          match publisher_Publish p EventReset with
          | Some e => emit [Log Error "failed to publish"] (ret None)
          | None => ret None
          end
    end.

(** [Service.Update]: the run and the service it leaves.  The deferred
    calls run last, also on a panic: the log line, then [Store(false)]. *)
Definition Update (choices : list nat) (s : Service) : run * Service :=
  match CompareAndSwap s false true with
  | (_, false) => (ret (Some (Sentinel ErrAlreadyExists)), s)
  | (s', true) =>
      let r := updateBody choices (ports s') in
      ((r.1 ++ [Log Info "update finished"], r.2), Store s' false)
  end.

(** [Service.Drop]. *)
Definition Drop (s : Service) : run * Service :=
  match CompareAndSwap s false true with
  | (_, false) => (ret (Some (Sentinel ErrAlreadyExists)), s)
  | (s', true) => (dropBody (ports s'), Store s' false)
  end.

(** *** Concurrent calls

    A call is two atomic steps on the service: the compare-and-swap at
    its entry and, when the swap happened, the deferred [Store(false)]
    at its end.  [inflight] lists the calls between the two. *)

Inductive op := OpUpdate | OpDrop.

Record system := {
  service : Service;
  inflight : list (nat * op);
}.

Definition initial (s : Service) : system :=
  {| service := withInProgress s false; inflight := [] |}.

Inductive event :=
  | Accepted (caller : nat) (o : op)
  | Rejected (caller : nat) (o : op) (err : error)
  | Completed (caller : nat) (o : op).

(** The entry of caller [c] into operation [o]. *)
Definition enter (c : nat) (o : op) (σ : system) : event * system :=
  match CompareAndSwap (service σ) false true with
  | (_, false) => (Rejected c o (Sentinel ErrAlreadyExists), σ)
  | (s', true) =>
      (Accepted c o, {| service := s'; inflight := (c, o) :: inflight σ |})
  end.

(** The deferred [Store(false)] of the call at position [i]. *)
Definition leave (i : nat) (σ : system) : system :=
  {| service := Store (service σ) false; inflight := delete i (inflight σ) |}.

Inductive step : system -> event -> system -> Prop :=
  | step_enter c o σ :
      step σ (enter c o σ).1 (enter c o σ).2
  | step_leave i c o σ :
      inflight σ !! i = Some (c, o) ->
      step σ (Completed c o) (leave i σ).

Inductive reachable (s : Service) : system -> Prop :=
  | reachable_initial : reachable s (initial s)
  | reachable_step σ ev σ' :
      reachable s σ -> step σ ev σ' -> reachable s σ'.

(** *** The upstream client ([update/adapters/xkcd]) *)

(** What a [GET] of the client comes to: one of the three failures
    before a response is read, or a response with its status code and
    the outcome of decoding its body. *)
Inductive fetched :=
  | JoinPathFailed (e : error)
  | NewRequestFailed (e : error)
  | DoFailed (e : error)
  | Responded (statusCode : Z) (decoded : result XKCDInfo).

(** The upstream: what a request for [info.0.json] (of the comic [id],
    or of the last comic for [None]) comes to. *)
Definition upstream : Type := option Z -> fetched.

Definition readInfo (f : fetched) (doMsg : string) : result XKCDInfo :=
  match f with
  | JoinPathFailed e => Err (Wrapf "cannot join url path" e)
  | NewRequestFailed e => Err (Wrapf "cannot create request" e)
  | DoFailed e => Err (Wrapf doMsg e)
  | Responded statusCode decoded =>
      if negb (statusCode =? 200) then
        if statusCode =? 404 then Err (Sentinel ErrNotFound)
        else Err (Opaque "unexpected status code")
      else
        match decoded with
        | Err e => Err (Wrapf "cannot decode reply" e)
        | Ok info => Ok info
        end
  end.

(** [Client.Get]. *)
Definition Get (up : upstream) (id : Z) : result XKCDInfo :=
  readInfo (up (Some id)) "cannot get response for comic".

(** [Client.LastID]. *)
Definition LastID (up : upstream) : result Z :=
  match readInfo (up None) "cannot get response" with
  | Err e => Err e
  | Ok info => Ok (infoID info)
  end.

(** The ports of a service wired to the upstream client. *)
Definition overUpstream (up : upstream) (p : Ports) : Ports :=
  {| db_IDs := db_IDs p; db_Add := db_Add p; db_Drop := db_Drop p;
     xkcd_LastID := LastID up; xkcd_Get := Get up;
     words_Norm := words_Norm p;
     publisher_Publish := publisher_Publish p;
     runtime_MaxChan := runtime_MaxChan p |}.

(** *** The way of an error to the HTTP status *)

Inductive code := CodeAlreadyExists | CodeInternal | CodeUnavailable.

(** [Server.Update] of [update/adapters/grpc]: the status code sent for
    an error of the service. *)
Definition grpcUpdate (err : option error) : option code :=
  match err with
  | None => None
  | Some e =>
      if errorsIs e ErrAlreadyExists then Some CodeAlreadyExists
      else Some CodeInternal
  end.

(** [Client.Update] of [api/adapters/update]: the error handed to the
    gateway for a status code. *)
Definition apiUpdate (reply : option code) : option error :=
  match reply with
  | None => None
  | Some CodeUnavailable => Some (Sentinel ErrServiceUnavailable)
  | Some CodeAlreadyExists => Some (Sentinel ErrAlreadyExists)
  | Some CodeInternal => Some (Opaque "rpc error: code = Internal")
  end.

(** [NewUpdateHandler] of [api/adapters/rest]: the HTTP status. *)
Definition NewUpdateHandler (err : option error) : Z :=
  match err with
  | None => 200
  | Some e =>
      if errorsIs e ErrServiceUnavailable then 503
      else if errorsIs e ErrAlreadyExists then 202
      else 500
  end.

(** The HTTP status the gateway answers for an error of [Update]. *)
Definition httpStatus (err : option error) : Z :=
  NewUpdateHandler (apiUpdate (grpcUpdate err)).

(** *** What the properties are stated with *)

(** The entries that [Update] collects from the workers. *)
Definition produced (choices : list nat) (p : Ports) (IDs : list Z)
    (lastID : Z) : list Comic :=
  omap fst (worker p <$> arrival choices (missing IDs lastID)).

(** The service with its [XKCD] port wired to the client of an upstream. *)
Definition wired (up : upstream) (s : Service) : Service :=
  {| ports := overUpstream up (ports s); concurrency := concurrency s;
     inProgress := inProgress s |}.

(** The ports of scenario S5: the catalog holds 1 and 2, the last id is
    4, comics 3 and 4 are fetched and normalized, the store and the
    broker accept; the runtime is that of linux/amd64. *)
Definition s5Info (id : Z) (title : string) : XKCDInfo :=
  {| infoID := id; infoURL := []; SafeTitle := []; Title := runes title;
     Alt := []; Transcript := [] |}.

Definition s5Ports : Ports :=
  {| db_IDs := Ok [1; 2];
     db_Add := fun _ => None;
     db_Drop := None;
     xkcd_LastID := Ok 4;
     xkcd_Get := fun id =>
       if id =? 3 then Ok (s5Info 3 "New")
       else if id =? 4 then Ok (s5Info 4 "Newer")
       else Err (Sentinel ErrNotFound);
     words_Norm := fun _ => Ok [runes "new"; runes "comic"];
     publisher_Publish := fun _ => None;
     runtime_MaxChan := 2 ^ 45 - 13 |}.

Definition s5Service : Service :=
  {| ports := s5Ports; concurrency := 10; inProgress := false |}.

(** An upstream that answers 404 to every request. *)
Definition upstream404 : upstream :=
  fun _ => Responded 404 (Err (Opaque "EOF")).

(** *** The rest of the way to the gateway *)

(** The ids of the [Get] calls of a trace, in order. *)
Definition getsOf (trace : list effect) : list Z :=
  omap (fun e => match e with CallGet id => Some id | _ => None end) trace.

(** [updatepb.Status]. *)
Inductive pbStatus := STATUS_UNSPECIFIED | STATUS_IDLE | STATUS_RUNNING.

(** [Server.Status] of [update/adapters/grpc]. *)
Definition grpcStatus (st : ServiceStatus) : pbStatus :=
  match st with
  | StatusRunning => STATUS_RUNNING
  | StatusIdle => STATUS_IDLE
  end.

(** [core.UpdateStatus] of the gateway. *)
Inductive UpdateStatus :=
  StatusUpdateUnknown | StatusUpdateIdle | StatusUpdateRunning.

(** [Client.Status] of [api/adapters/update], for a reply. *)
Definition apiStatus (reply : pbStatus) : UpdateStatus :=
  match reply with
  | STATUS_IDLE => StatusUpdateIdle
  | STATUS_RUNNING => StatusUpdateRunning
  | STATUS_UNSPECIFIED => StatusUpdateUnknown
  end.

(** [Server.Drop] of [update/adapters/grpc]: every error of the service
    is sent as Internal. *)
Definition grpcDrop (err : option error) : option code :=
  match err with
  | None => None
  | Some _ => Some CodeInternal
  end.

(** [Client.Drop] of [api/adapters/update]. *)
Definition apiDrop (reply : option code) : option error :=
  match reply with
  | None => None
  | Some CodeUnavailable => Some (Sentinel ErrServiceUnavailable)
  | Some CodeAlreadyExists => Some (Opaque "rpc error: code = AlreadyExists")
  | Some CodeInternal => Some (Opaque "rpc error: code = Internal")
  end.

(** [NewDropHandler] of [api/adapters/rest]. *)
Definition NewDropHandler (err : option error) : Z :=
  match err with
  | None => 200
  | Some e =>
      if errorsIs e ErrServiceUnavailable then 503
      else if errorsIs e ErrAlreadyExists then 202
      else 500
  end.

(** The HTTP status the gateway answers for an error of [Drop]. *)
Definition dropStatus (err : option error) : Z :=
  NewDropHandler (apiDrop (grpcDrop err)).

End Update.

(** ** The rate limiter ([api/adapters/rest/middleware]) *)

Module Middleware.

(** [time.Duration]: nanoseconds, an [int64]. *)
Definition Duration := Z.

(** [time.Time]: nanoseconds since the zero time. *)
Definition Time := Z.

Definition maxInt64 : Z := 2 ^ 63 - 1.
Definition minInt64 : Z := - 2 ^ 63.
Definition Second : Duration := 1000000000.

(** [t.Sub(u)], which saturates. *)
Definition Sub (t u : Time) : Duration :=
  Z.max minInt64 (Z.min maxInt64 (t - u)).

(** [t.Add(d)]. *)
Definition Add (t : Time) (d : Duration) : Time := t + d.

(** [float64(n)] for an [int64]. *)
Definition floatOfInt64 (n : Z) : float :=
  let ofNonneg (m : Z) : float :=
    if m <? 2 ^ 63 then PrimFloat.of_uint63 (Uint63.of_Z m)
    else 9223372036854775808%float in
  if n <? 0 then PrimFloat.opp (ofNonneg (- n)) else ofNonneg n.

(** [int64(f)]: truncation towards zero; what does not fit comes out
    as the least [int64], as the conversion instruction of amd64
    gives it. *)
Definition int64OfFloat (f : float) : Z :=
  match Prim2SF f with
  | SpecFloat.S754_zero _ => 0
  | SpecFloat.S754_finite s m e =>
      let mag := if 0 <=? e then Z.pos m * 2 ^ e else Z.pos m / 2 ^ (- e) in
      let v := if s then - mag else mag in
      if (minInt64 <=? v) && (v <=? maxInt64) then v else minInt64
  | _ => minInt64
  end.

(** [Limit]: events per second; [Inf] is [math.MaxFloat64]. *)
Definition Inf : float := 0x1.fffffffffffffp+1023%float.

Definition defaultBurst : Z := 1.

(** The fields of [RateLimiter] that its mutex guards. *)
Record RateLimiter := {
  limit : float;
  burst : Z;
  tokens : float;
  last : Time;
}.

Definition NewRateLimiter (rate : Z) : RateLimiter :=
  {| limit := floatOfInt64 rate; burst := defaultBurst; tokens := 0%float;
     last := 0 |}.

(** [d.Seconds()]. *)
Definition Seconds (d : Duration) : float :=
  (floatOfInt64 (Z.quot d Second)
   + floatOfInt64 (Z.rem d Second) / floatOfInt64 Second)%float.

Definition durationFromTokens (limit : float) (tokens : float) : Duration :=
  if PrimFloat.leb limit 0 then maxInt64
  else int64OfFloat (floatOfInt64 Second * (tokens / limit))%float.

Definition tokensFromDuration (limit : float) (d : Duration) : float :=
  if PrimFloat.leb limit 0 then 0%float
  else (Seconds d * limit)%float.

Definition tokensAt (rl : RateLimiter) (t : Time) : float :=
  if PrimFloat.eqb (limit rl) Inf then floatOfInt64 (burst rl)
  else
    let elapsed := Z.max (Sub t (last rl)) 0 in
    let delta := tokensFromDuration (limit rl) elapsed in
    let tokens := (tokens rl + delta)%float in
    if PrimFloat.ltb (floatOfInt64 (burst rl)) tokens
    then floatOfInt64 (burst rl)
    else tokens.

(** What [wait] observes of the request context: [ctx.Err()] when
    [ctx.Done()] is ready at the first [select], the deadline, and
    [ctx.Err()] when [ctx.Done()] wins the second [select] against the
    timer. *)
Record Context := {
  doneAtEntry : option error;
  deadline : option Time;
  doneDuringSleep : option error;
}.

Definition refill (rl : RateLimiter) (now : Time) : RateLimiter :=
  {| limit := limit rl; burst := burst rl; tokens := tokensAt rl now;
     last := now |}.

Definition withTokens (rl : RateLimiter) (tokens : float) : RateLimiter :=
  {| limit := limit rl; burst := burst rl; tokens := tokens;
     last := last rl |}.

(** [rl.wait(ctx)] with [time.Now()] read as [now]: the limiter it
    leaves and the error it returns. *)
Definition wait (rl : RateLimiter) (ctx : Context) (now : Time)
  : RateLimiter * option error :=
  match doneAtEntry ctx with
  | Some e => (rl, Some e)
  | None =>
      let rl := refill rl now in
      let tokens := (tokens rl - 1)%float in
      let delay :=
        if PrimFloat.ltb tokens 0
        then durationFromTokens (limit rl) (PrimFloat.opp tokens)
        else 0 in
      if match deadline ctx with
         | Some d => d <? Add now delay
         | None => false
         end
      then (rl, Some (Opaque "rate: Wait would exceed context deadline"))
      else
        let rl := withTokens rl tokens in
        if delay <=? 0 then (rl, None)
        else (rl, doneDuringSleep ctx)
  end.

(** [rl.Limit(next)]: the limiter left and the status answered, where
    [next] is the status of the handler behind the limiter. *)
Definition Limit (rl : RateLimiter) (ctx : Context) (now : Time) (next : Z)
  : RateLimiter * Z :=
  match wait rl ctx now with
  | (rl', Some _) => (rl', 408)
  | (rl', None) => (rl', next)
  end.

(** *** A scenario: three requests against a limiter of one per second *)

(** A context that is never done and has no deadline. *)
Definition background : Context :=
  {| doneAtEntry := None; deadline := None; doneDuringSleep := None |}.

(** A context that is cancelled while [wait] sleeps. *)
Definition cancelledAsleep : Context :=
  {| doneAtEntry := None; deadline := None;
     doneDuringSleep := Some (Sentinel Canceled) |}.

(** A context with a deadline. *)
Definition withDeadline (d : Time) : Context :=
  {| doneAtEntry := None; deadline := Some d; doneDuringSleep := None |}.

(** The time of the first two requests. *)
Definition t0 : Time := 63900000000 * Second.

(** The limiter after a first request, admitted at [t0], has taken the
    one token of the bucket. *)
Definition afterFirst : RateLimiter := (wait (NewRateLimiter 1) background t0).1.

(** The limiter after a second request at [t0] that is cancelled while
    it sleeps for its token. *)
Definition afterCancelled : RateLimiter := (wait afterFirst cancelledAsleep t0).1.

End Middleware.

(** ** The concurrency limiter ([api/adapters/rest/middleware]) *)

Module Concurrency.

(** The semaphore [sem chan struct{}]: its capacity and the number of
    values it holds. *)
Record ConcurrencyLimiter := {
  capacity : Z;
  held : Z;
}.

(** [NewConcurrencyLimiter]; [make] panics on a negative size, which is
    [None]. *)
Definition NewConcurrencyLimiter (concurrency : Z)
  : option ConcurrencyLimiter :=
  if concurrency <? 0 then None
  else Some {| capacity := concurrency; held := 0 |}.

(** The [select] of [Limit]: the send goes through when the channel has
    room; otherwise the [default] case runs, which is [None]. *)
Definition tryAcquire (cl : ConcurrencyLimiter) : option ConcurrencyLimiter :=
  if held cl <? capacity cl
  then Some {| capacity := capacity cl; held := held cl + 1 |}
  else None.

(** The deferred [<-cl.sem]. *)
Definition release (cl : ConcurrencyLimiter) : ConcurrencyLimiter :=
  {| capacity := capacity cl; held := held cl - 1 |}.

(** The limiter and the requests that are inside [next.ServeHTTP]. *)
Record system := {
  limiter : ConcurrencyLimiter;
  serving : list nat;
}.

Inductive event :=
  | Served (request : nat)
  | Unavailable (request : nat)
  | Finished (request : nat).

(** A request reaches the handler of [Limit]. *)
Definition enter (r : nat) (σ : system) : event * system :=
  match tryAcquire (limiter σ) with
  | Some cl => (Served r, {| limiter := cl; serving := r :: serving σ |})
  | None => (Unavailable r, σ)
  end.

(** The downstream handler of the request at position [i] returns. *)
Definition leave (i : nat) (σ : system) : system :=
  {| limiter := release (limiter σ); serving := delete i (serving σ) |}.

Inductive step : system -> event -> system -> Prop :=
  | step_enter r σ : step σ (enter r σ).1 (enter r σ).2
  | step_leave i r σ :
      serving σ !! i = Some r -> step σ (Finished r) (leave i σ).

Inductive reachable (cl : ConcurrencyLimiter) : system -> Prop :=
  | reachable_initial : reachable cl {| limiter := cl; serving := [] |}
  | reachable_step σ ev σ' :
      reachable cl σ -> step σ ev σ' -> reachable cl σ'.

(** The status [Limit] answers to an arriving request, where [next] is
    the status of the downstream handler. *)
Definition Limit (cl : ConcurrencyLimiter) (next : Z) : Z :=
  match tryAcquire cl with
  | Some _ => next
  | None => 503
  end.

End Concurrency.

(** ** The words service ([words/main.go]) and its client *)

Module WordsService.

(** The status codes of gRPC that the adapters tell apart. *)
Inductive code :=
  | InvalidArgument
  | ResourceExhausted
  | Unavailable
  | Internal
  | OtherCode (n : Z).

(** What a call of [Norm] over gRPC comes to. *)
Inductive reply :=
  | Words (words : list gostring)
  | Status (c : code) (msg : string).

Definition maxPhraseLen : Z := 1048576.

(** [server.Norm] of [words/main.go]. *)
Definition serverNorm (u : UnicodeTables) (phrase : gostring) : reply :=
  if maxPhraseLen <? byteLen phrase
  then Status ResourceExhausted "phrase is large than 1048576"
  else Words (WordsNorm u phrase).

(** [Client.Norm] of the words adapter of the updater, over a call
    [rpc] that reaches the server or fails on the way. *)
Definition clientNorm (rpc : gostring -> reply) (phrase : gostring)
  : result (list gostring) :=
  match rpc phrase with
  | Words words => Ok words
  | Status Unavailable _ => Err (Sentinel ErrServiceUnavailable)
  | Status ResourceExhausted _ => Err (Sentinel ErrBadArguments)
  | Status _ msg => Err (Opaque msg)
  end.

(** The ports of an updater whose [Words] port is the client of a words
    service that is reached. *)
Definition overWords (u : UnicodeTables) (p : Update.Ports) : Update.Ports :=
  {| Update.db_IDs := Update.db_IDs p;
     Update.db_Add := Update.db_Add p;
     Update.db_Drop := Update.db_Drop p;
     Update.xkcd_LastID := Update.xkcd_LastID p;
     Update.xkcd_Get := Update.xkcd_Get p;
     Update.words_Norm := clientNorm (serverNorm u);
     Update.publisher_Publish := Update.publisher_Publish p;
     Update.runtime_MaxChan := Update.runtime_MaxChan p |}.

End WordsService.

(** ** The search handlers of the gateway ([api/adapters/rest]) *)

Module Rest.

Definition searchLimit : Z := 10.

(** The value of a run of decimal digits; [None] when a rune is not a
    digit. *)
Fixpoint digitsValue (acc : Z) (s : gostring) : option Z :=
  match s with
  | [] => Some acc
  | ch :: s' =>
      if isAsciiDigit ch then digitsValue (acc * 10 + (ch - 48)) s'
      else None
  end.

(** [strconv.Atoi]: an optional sign and decimal digits, within the
    range of [int]; [None] is a syntax or range error. *)
Definition Atoi (s : gostring) : option Z :=
  match s with
  | [] => None
  | ch :: rest =>
      let body := if (ch =? 45) || (ch =? 43) then rest else s in
      match body with
      | [] => None
      | _ =>
          match digitsValue 0 body with
          | None => None
          | Some n =>
              let v := if ch =? 45 then - n else n in
              if (- 2 ^ 63 <=? v) && (v <=? 2 ^ 63 - 1) then Some v else None
          end
      end
  end.

(** [core.SearchResult]. *)
Record SearchResult := {
  Comics : list Search.Comic;
  Total : Z;
}.

(** The answer of a handler: the status and, with 200, the body. *)
Definition answer : Type := Z * option SearchResult.

(** The end of both handlers: the reply of the searcher turned into an
    answer. *)
Definition respond (r : result (list Search.Comic)) : answer :=
  match r with
  | Err e =>
      if errorsIs e ErrBadArguments then (400, None)
      else if errorsIs e ErrServiceUnavailable then (503, None)
      else (500, None)
  | Ok comics =>
      (200, Some {| Comics := comics; Total := Z.of_nat (length comics) |})
  end.

(** [NewSearchHandler] and [NewISearchHandler], which differ in the
    method of the searcher they call: [phrase] and [limitStr] are the
    query parameters, empty when absent. *)
Definition NewSearchHandler
    (searcher : gostring -> Z -> result (list Search.Comic))
    (phrase limitStr : gostring) : answer :=
  if bool_decide (phrase = []) then (400, None)
  else
    match Atoi limitStr with
    | None =>
        if bool_decide (limitStr = []) then respond (searcher phrase searchLimit)
        else (400, None)
    | Some limit =>
        if limit <=? 0 then (400, None) else respond (searcher phrase limit)
    end.

End Rest.

(** ** The store of the updater ([update/adapters/db]) *)

Module Storage.

(** [core.DBStats], the one row of [comics_stats]. *)
Record DBStats := {
  WordsTotal : Z;
  WordsUnique : Z;
  ComicsFetched : Z;
}.

(** The database: the table [comics], one row per id, and the row of
    [comics_stats]. *)
Record DB := {
  comics : gmap Z (gostring * list gostring);
  stats : DBStats;
}.

(** The database after the migration. *)
Definition migrated : DB :=
  {| comics := ∅;
     stats := {| WordsTotal := 0; WordsUnique := 0; ComicsFetched := 0 |} |}.

(** The errors the driver may report for the steps of a transaction. *)
Record faults := {
  onBegin : option error;
  onExec1 : option error;
  onExec2 : option error;
  onCommit : option error;
}.

Definition noFaults : faults :=
  {| onBegin := None; onExec1 := None; onExec2 := None; onCommit := None |}.

(** The words of all rows. *)
Definition allWords (t : gmap Z (gostring * list gostring)) : list gostring :=
  map_to_list t ≫= fun row => row.2.2.

(** The aggregate that [updateStats] computes: [COUNT( * )], the sum of
    the array lengths, and the number of distinct unnested words. *)
Definition aggregate (t : gmap Z (gostring * list gostring)) : DBStats :=
  {| WordsTotal := Z.of_nat (length (allWords t));
     WordsUnique := Z.of_nat (size (list_to_set (allWords t) : gset gostring));
     ComicsFetched := Z.of_nat (size t) |}.

(** [INSERT INTO comics (id, url, words) VALUES ...] for the rows of a
    batch, one after the other: [None] is a violation of the primary
    key. *)
Fixpoint insertRows (t : gmap Z (gostring * list gostring))
    (batch : list Update.Comic) : option (gmap Z (gostring * list gostring)) :=
  match batch with
  | [] => Some t
  | c :: rest =>
      match t !! Update.ID c with
      | Some _ => None
      | None =>
          insertRows (<[Update.ID c := (Update.URL c, Update.Words c)]> t) rest
      end
  end.

(** [DB.Add]: a failed step rolls the transaction back. *)
Definition Add (db : DB) (f : faults) (batch : list Update.Comic)
  : DB * option error :=
  match onBegin f with
  | Some e => (db, Some (Wrapf "failed to begin transaction" e))
  | None =>
      match batch with
      | [] =>
          (db, Some (Wrapf "failed to insert into comic table "
                       (Opaque "length of array is 0")))
      | _ =>
          match onExec1 f with
          | Some e => (db, Some (Wrapf "failed to insert into comic table " e))
          | None =>
              match insertRows (comics db) batch with
              | None =>
                  (db, Some (Wrapf "failed to insert into comic table "
                               (Opaque "duplicate key value violates unique constraint")))
              | Some t =>
                  match onExec2 f with
                  | Some e =>
                      (db, Some (Wrapf "failed to update comics_stats table" e))
                  | None =>
                      match onCommit f with
                      | Some e =>
                          (db, Some (Wrapf "failed to commit transaction" e))
                      | None => ({| comics := t; stats := aggregate t |}, None)
                      end
                  end
              end
          end
      end
  end.

(** [DB.Drop]. *)
Definition Drop (db : DB) (f : faults) : DB * option error :=
  match onBegin f with
  | Some e => (db, Some (Wrapf "failed to begin transaction" e))
  | None =>
      match onExec1 f with
      | Some e => (db, Some (Wrapf "failed to truncate comics table" e))
      | None =>
          match onExec2 f with
          | Some e =>
              (db, Some (Wrapf "failed to truncate comics_stats table" e))
          | None =>
              match onCommit f with
              | Some e => (db, Some (Wrapf "failed to commit transaction" e))
              | None => (migrated, None)
              end
          end
      end
  end.

(** [DB.IDs], with the error of the driver if the query fails. *)
Definition IDs (db : DB) (fault : option error) : result (list Z) :=
  match fault with
  | Some e => Err (Wrapf "failed to select IDs from comics table" e)
  | None => Ok ((map_to_list (comics db)).*1)
  end.

(** [DB.Stats]. *)
Definition Stats (db : DB) (fault : option error) : result DBStats :=
  match fault with
  | Some e => Err (Wrapf "failed to select stats from comics_stats table" e)
  | None => Ok (stats db)
  end.

(** An operation of the updater on its store. *)
Inductive operation :=
  | OpAdd (f : faults) (batch : list Update.Comic)
  | OpDrop (f : faults).

Definition apply (db : DB) (op : operation) : DB :=
  match op with
  | OpAdd f batch => (Add db f batch).1
  | OpDrop f => (Drop db f).1
  end.

End Storage.

(** * Properties *)

(** ** Splitting and the normalizer, for any stemmer *)

Section NormFacts.

Context (u : UnicodeTables).
Context (Stem : gostring -> gostring).
Context (IsStopWord : gostring -> bool).

Local Abbreviation Norm := (Words.Norm u Stem IsStopWord).
Local Abbreviation normStep := (Words.normStep Stem IsStopWord).
Local Abbreviation stems := (Words.stems u Stem).

(** What the loop of [Norm] maintains after the tokens [done]. *)
Record normInv (done : list gostring) (st : Words.normState) : Prop := {
  inv_dict : forall k, Words.dictGet st.2 k = true <-> k ∈ st.1;
  inv_nodup : NoDup st.1;
  inv_mem : forall k,
    k ∈ st.1 <-> k ∈ Stem <$> done /\ IsStopWord k = false;
  inv_order : forall i j a b,
    st.1 !! i = Some a -> st.1 !! j = Some b -> (i < j)%nat ->
    (Words.firstIndex a (Stem <$> done)
     < Words.firstIndex b (Stem <$> done))%nat;
}.

Lemma firstIndex_le k l : (Words.firstIndex k l <= length l)%nat.
Proof. induction l as [|x l IH]; simpl; [lia|]. case_decide; lia. Qed.

Lemma firstIndex_elem k l :
  k ∈ l <-> (Words.firstIndex k l < length l)%nat.
Proof.
  induction l as [|x l IH]; simpl.
  - split; [by intros ?%elem_of_nil | lia].
  - case_decide as Hx.
    + subst. split; [lia | intros _; left].
    + rewrite elem_of_cons, IH. split; [intros [?|?]; [congruence | lia] | ].
      intros ?. right. lia.
Qed.

Lemma firstIndex_app_l k l l' :
  k ∈ l -> Words.firstIndex k (l ++ l') = Words.firstIndex k l.
Proof.
  induction l as [|x l IH]; simpl; [by intros ?%elem_of_nil|].
  intros Hin. case_decide; [done|]. f_equal. apply IH.
  apply elem_of_cons in Hin as [?|?]; [congruence | done].
Qed.

Lemma firstIndex_app_r k l l' :
  k ∉ l ->
  Words.firstIndex k (l ++ l') = (length l + Words.firstIndex k l')%nat.
Proof.
  induction l as [|x l IH]; simpl; [done|].
  intros Hin. apply not_elem_of_cons in Hin as [? ?].
  case_decide; [congruence|]. f_equal. by apply IH.
Qed.

Lemma dictGet_insert (d : gmap gostring bool) k k' :
  Words.dictGet (<[k := true]> d) k' = true
  <-> k = k' \/ Words.dictGet d k' = true.
Proof.
  unfold Words.dictGet. destruct (decide (k = k')) as [->|Hne].
  - rewrite lookup_insert_eq. simpl. tauto.
  - rewrite lookup_insert_ne by done. split; [tauto | intros [?|?]; done].
Qed.

Lemma normInv_init : normInv [] ([], ∅).
Proof.
  split; simpl.
  - intros k. unfold Words.dictGet. rewrite lookup_empty. simpl.
    split; [done | by intros ?%elem_of_nil].
  - constructor.
  - intros k. split; [by intros ?%elem_of_nil | by intros [?%elem_of_nil _]].
  - intros i j a b Hi. by rewrite lookup_nil in Hi.
Qed.

Lemma normInv_step done st word :
  normInv done st -> normInv (done ++ [word]) (normStep st word).
Proof.
  intros [Hdict Hnodup Hmem Horder]. unfold Words.normStep.
  destruct (IsStopWord (Stem word)) eqn:Hstop; simpl.
  { (* a stop-word: nothing changes *)
    split; [done | done | |].
    - intros k. rewrite Hmem, fmap_app, elem_of_app. simpl.
      rewrite list_elem_of_singleton. split; [tauto|].
      intros [[?| ->] ?]; [tauto | congruence].
    - intros i j a b Hi Hj Hij. rewrite fmap_app.
      assert (a ∈ Stem <$> done) by (apply Hmem; eauto using list_elem_of_lookup_2).
      assert (b ∈ Stem <$> done) by (apply Hmem; eauto using list_elem_of_lookup_2).
      rewrite !firstIndex_app_l by done. eauto. }
  destruct (Words.dictGet st.2 (Stem word)) eqn:Hseen; simpl.
  { (* already a keyword *)
    apply Hdict in Hseen.
    split; [done | done | |].
    - intros k. rewrite Hmem, fmap_app, elem_of_app. simpl.
      rewrite list_elem_of_singleton. split; [tauto|].
      intros [[?| ->] ?]; [tauto|]. by apply Hmem.
    - intros i j a b Hi Hj Hij. rewrite fmap_app.
      assert (a ∈ Stem <$> done) by (apply Hmem; eauto using list_elem_of_lookup_2).
      assert (b ∈ Stem <$> done) by (apply Hmem; eauto using list_elem_of_lookup_2).
      rewrite !firstIndex_app_l by done. eauto. }
  (* a new keyword *)
  assert (Stem word ∉ st.1) as Hnew.
  { intros Hin. apply Hdict in Hin. congruence. }
  assert (Stem word ∉ Stem <$> done) as Hfresh.
  { intros Hin. apply Hnew, Hmem. done. }
  split; simpl.
  - intros k. rewrite dictGet_insert, elem_of_app, list_elem_of_singleton, Hdict.
    split; intros [?|?]; auto.
  - apply NoDup_app. split; [done|]. split; [|apply NoDup_singleton].
    intros k Hk ->%list_elem_of_singleton. done.
  - intros k. rewrite elem_of_app, list_elem_of_singleton, Hmem, fmap_app.
    rewrite elem_of_app. simpl. rewrite list_elem_of_singleton.
    split; [intros [[? ?]| ->]; auto | intros [[?| ->] ?]; auto].
  - intros i j a b Hi Hj Hij. rewrite fmap_app. simpl.
    assert (i < length st.1)%nat as Hilt.
    { apply lookup_lt_Some in Hj. rewrite length_app in Hj. simpl in Hj. lia. }
    rewrite lookup_app_l in Hi by done.
    assert (a ∈ Stem <$> done) as Ha
      by (apply Hmem; eauto using list_elem_of_lookup_2).
    rewrite (firstIndex_app_l a) by done.
    destruct (decide (j < length st.1)%nat) as [Hjlt|Hjge].
    + rewrite lookup_app_l in Hj by done.
      assert (b ∈ Stem <$> done)
        by (apply Hmem; eauto using list_elem_of_lookup_2).
      rewrite firstIndex_app_l by done. eauto.
    + rewrite lookup_app_r in Hj by lia.
      apply list_lookup_singleton_Some in Hj as [_ <-].
      rewrite firstIndex_app_r by done.
      apply firstIndex_elem in Ha. lia.
Qed.

Lemma normInv_foldl tokens :
  normInv tokens (foldl normStep ([], ∅) tokens).
Proof.
  induction tokens as [|word tokens IH] using rev_ind.
  - apply normInv_init.
  - rewrite foldl_app. simpl. by apply normInv_step.
Qed.

(** The keywords of a phrase are distinct, none is a stop-word, they are
    the stems of its tokens that are not stop-words, and they come in
    the order of the first occurrences of these stems. *)
Lemma Norm_spec (phrase : gostring) :
  NoDup (Norm phrase)
  /\ Forall (fun k => IsStopWord k = false) (Norm phrase)
  /\ (forall k, k ∈ Norm phrase
                <-> k ∈ stems phrase /\ IsStopWord k = false)
  /\ (forall i j a b,
        Norm phrase !! i = Some a -> Norm phrase !! j = Some b ->
        (i < j)%nat ->
        (Words.firstIndex a (stems phrase)
         < Words.firstIndex b (stems phrase))%nat).
Proof.
  destruct (normInv_foldl (FieldsFunc phrase (Words.isSeparator u)))
    as [Hdict Hnodup Hmem Horder].
  unfold Words.Norm, Words.stems.
split; [done|]. split; [|split; [done|done]].
apply Forall_forall. intros k Hk. by apply Hmem in Hk as [_ ?].
Qed.

End NormFacts.

(** ** A second pass over the keywords *)

Section NormAgain.

Context (u : UnicodeTables).
Context (Stem : gostring -> gostring).
Context (IsStopWord : gostring -> bool).

Local Abbreviation Norm := (Words.Norm u Stem IsStopWord).
Local Abbreviation normStep := (Words.normStep Stem IsStopWord).
Local Abbreviation fields := (fun s => FieldsFunc s (Words.isSeparator u)).
Local Abbreviation sep := (Words.isSeparator u).

Lemma fieldsFrom_separator f cur s r s' :
  f r = true ->
  fieldsFrom f cur (s ++ r :: s') = fieldsFrom f cur s ++ fieldsFrom f [] s'.
Proof.
  intros Hr. revert cur. induction s as [|c s IH]; intros cur; simpl.
  - rewrite Hr. by destruct cur.
  - destruct (f c); [|apply IH]. destruct cur; [apply IH|].
    simpl. f_equal. apply IH.
Qed.

Lemma space_isSeparator : Words.isSeparator u 32 = true.
Proof. reflexivity. Qed.

Lemma fields_Join (ws : list gostring) :
  FieldsFunc (Join ws (runes " ")) sep = concat (fields <$> ws).
Proof.
  induction ws as [|k ws IH]; [done|].
  destruct ws as [|k' ws].
  - simpl. by rewrite app_nil_r.
  - change (Join (k :: k' :: ws) (runes " "))
      with (k ++ 32 :: Join (k' :: ws) (runes " ")).
    unfold FieldsFunc in *. rewrite fieldsFrom_separator
      by apply space_isSeparator.
    by rewrite IH.
Qed.

Lemma normInv_run done st tokens :
  normInv Stem IsStopWord done st ->
  normInv Stem IsStopWord (done ++ tokens) (foldl normStep st tokens).
Proof.
  revert done st. induction tokens as [|word tokens IH]; intros done st Hst.
  - by rewrite app_nil_r.
  - simpl. replace (done ++ word :: tokens) with ((done ++ [word]) ++ tokens)
      by (by rewrite <- app_assoc).
    apply IH. by apply normInv_step.
Qed.

(** The keywords added by a run that starts with the keywords [st.1] are
    those a fresh run finds, less the ones already there. *)
Lemma normStep_frame done st tokens :
  normInv Stem IsStopWord done st ->
  (foldl normStep st tokens).1
  = st.1 ++ filter (fun k => k ∉ st.1) (foldl normStep ([], ∅) tokens).1.
Proof.
  intros Hst. induction tokens as [|word tokens IH] using rev_ind.
  - simpl. by rewrite app_nil_r.
  - rewrite !foldl_app. simpl.
    pose proof (inv_dict _ _ _ _ (normInv_run done st tokens Hst)) as HA.
    pose proof (inv_dict _ _ _ _ (normInv_foldl Stem IsStopWord tokens)) as HB.
    set (A := foldl normStep st tokens) in *.
    set (B := foldl normStep ([], ∅) tokens) in *.
    unfold Words.normStep.
    destruct (IsStopWord (Stem word)); simpl; [done|].
    destruct (Words.dictGet A.2 (Stem word)) eqn:HinA;
      destruct (Words.dictGet B.2 (Stem word)) eqn:HinB; simpl; try done.
    + apply HA in HinA. rewrite IH in HinA.
      rewrite filter_app, filter_cons, filter_nil.
      apply elem_of_app in HinA as [Hin|Hin].
      * rewrite decide_False by tauto. by rewrite app_nil_r.
      * apply list_elem_of_filter in Hin as [_ Hin]. apply HB in Hin. congruence.
    + exfalso. apply HB in HinB.
      destruct (decide (Stem word ∈ st.1)) as [Hin|Hnin].
      * assert (Stem word ∈ A.1) as Hin'
          by (rewrite IH; apply elem_of_app; by left).
        apply HA in Hin'. congruence.
      * assert (Stem word ∈ A.1) as Hin'.
        { rewrite IH. apply elem_of_app. right.
          by apply list_elem_of_filter. }
        apply HA in Hin'. congruence.
    + rewrite filter_app, filter_cons, filter_nil.
      assert (Stem word ∉ st.1) as Hnin.
      { intros Hin. assert (Stem word ∈ A.1) as Hin'
          by (rewrite IH; apply elem_of_app; by left).
        apply HA in Hin'. congruence. }
      rewrite decide_True by done. by rewrite IH, <- app_assoc.
Qed.

Lemma Norm_concat (ws : list gostring) :
  NoDup ws ->
  Forall (fun k => Norm k = [k]) ws ->
  (foldl normStep ([], ∅) (concat (fields <$> ws))).1 = ws.
Proof.
  induction ws as [|k ws IH] using rev_ind; [done|].
  intros [Hnodup [Hk _]]%NoDup_app [Hws [Hnorm _]%Forall_cons]%Forall_app.
  rewrite fmap_app, concat_app, foldl_app. simpl. rewrite app_nil_r.
  rewrite (normStep_frame (concat (fields <$> ws)))
    by apply normInv_foldl.
  rewrite IH by done. f_equal.
  unfold Words.Norm in Hnorm. rewrite Hnorm.
  rewrite filter_cons, filter_nil. rewrite decide_True; [done|].
  intros Hin. apply (Hk k Hin). left.
Qed.

(** A second pass returns the keywords of the first when each of them,
    taken alone, normalizes to itself. *)
Lemma Norm_again (phrase : gostring) :
  Forall (fun k => Norm k = [k]) (Norm phrase) ->
  Norm (Join (Norm phrase) (runes " ")) = Norm phrase.
Proof.
  intros Hfix. unfold Words.Norm at 1.
  rewrite fields_Join. apply Norm_concat; [|done].
  apply (Norm_spec u Stem IsStopWord phrase).
Qed.

End NormAgain.

(** ** The normalizer of the words service *)

(** C4.  For every phrase, [Norm] returns distinct keywords, none of which
    is a stop-word of the stemmer's English list; the keywords are exactly
    the stemmed (lower-cased) tokens of the phrase that are not
    stop-words, and they appear in the order in which these stems first
    occur in the phrase. *)
Theorem Norm_distinct_first_occurrence (u : UnicodeTables) (phrase : gostring) :
  NoDup (WordsNorm u phrase)
  /\ Forall (fun k => Snowball.IsStopWord k = false) (WordsNorm u phrase)
  /\ (forall k,
        k ∈ WordsNorm u phrase
        <-> k ∈ Words.stems u (Snowball.Stem u true) phrase
            /\ Snowball.IsStopWord k = false)
  /\ (forall i j a b,
        WordsNorm u phrase !! i = Some a ->
        WordsNorm u phrase !! j = Some b ->
        (i < j)%nat ->
        (Words.firstIndex a (Words.stems u (Snowball.Stem u true) phrase)
         < Words.firstIndex b (Words.stems u (Snowball.Stem u true) phrase))%nat).
Proof. apply Norm_spec. Qed.

(** The tokens of the phrase of scenario S3, and their stems. *)
Example weirdPhrase_tokens (u : UnicodeTables) :
  FieldsFunc weirdPhrase (Words.isSeparator u)
  = runes <$> ["Moscow"; "123"; "check"; "it"; "or"; "123"; "man"; "that";
               "difficult"; "heck"]%string.
Proof. vm_compute. reflexivity. Qed.

(** C5, as the code has it.  On the phrase of scenario S3 [Norm] returns
    the keywords in the order of their first occurrence: "123", which
    follows "Moscow" in the phrase, comes before "check". *)
Theorem Norm_weird (u : UnicodeTables) :
  WordsNorm u weirdPhrase
  = runes <$> ["moscow"; "123"; "check"; "man"; "difficult"; "heck"]%string.
Proof. vm_compute. reflexivity. Qed.

(** C5, as the specification states it, fails: the list of the scenario
    has "check" before "123". *)
Lemma Norm_weird_not_as_stated :
  WordsNorm asciiTables weirdPhrase
  = runes <$> ["moscow"; "123"; "check"; "man"; "difficult"; "heck"]%string
  /\ WordsNorm asciiTables weirdPhrase
     <> runes <$> ["moscow"; "check"; "123"; "man"; "difficult"; "heck"]%string.
Proof. split; [by vm_compute | vm_compute; discriminate]. Qed.

(** The other scenarios of the normalizer. *)
Example Norm_simple (u : UnicodeTables) :
  WordsNorm u (runes "I follow followers") = [runes "follow"].
Proof. vm_compute. reflexivity. Qed.

Example Norm_punctuation (u : UnicodeTables) :
  WordsNorm u (runes "I shouted: 'give me your car!!!")
  = runes <$> ["shout"; "give"; "car"]%string.
Proof. vm_compute. reflexivity. Qed.

(** The stemmer of this file passes the test table of the repository:
    on every phrase of the table [Norm] returns the expected keywords, up
    to their order. *)
Example Norm_testCases :
  Forall (fun tc => WordsNorm asciiTables (runes tc.1) ≡ₚ runes <$> tc.2)
    testCases.
Proof.
  unfold testCases.
  repeat (apply List.Forall_cons;
          [cbv beta; cbn [fst snd]; apply (bool_decide_unpack _);
           by vm_compute|]).
  apply List.Forall_nil.
Qed.

(** C6, as the code has it.  A second pass over the space-joined keywords
    of a phrase returns these keywords whenever each of them, taken alone,
    normalizes to itself. *)
Theorem Norm_second_pass (u : UnicodeTables) (phrase : gostring) :
  Forall (fun k => WordsNorm u k = [k]) (WordsNorm u phrase) ->
  WordsNorm u (Join (WordsNorm u phrase) (runes " ")) = WordsNorm u phrase.
Proof. apply Norm_again. Qed.

Lemma Norm_second_pass_witness :
  Forall (fun k => WordsNorm asciiTables k = [k])
    (WordsNorm asciiTables weirdPhrase)
  /\ WordsNorm asciiTables
       (Join (WordsNorm asciiTables weirdPhrase) (runes " "))
     = WordsNorm asciiTables weirdPhrase.
Proof.
  assert (Forall (fun k => WordsNorm asciiTables k = [k])
            (WordsNorm asciiTables weirdPhrase)) as Hfix
    by (replace (WordsNorm asciiTables weirdPhrase)
          with (runes <$> ["moscow"; "123"; "check"; "man"; "difficult";
                           "heck"]%string) by (by vm_compute);
        repeat (apply List.Forall_cons; [by vm_compute|]);
        apply List.Forall_nil).
  split; [exact Hfix | exact (Norm_second_pass asciiTables weirdPhrase Hfix)].
Defined.

(** C6, as the specification states it, fails: the stemmer is not
    idempotent.  The keyword of "agreed" is "agre", and a second pass
    stems it to "agr". *)
Lemma Norm_second_pass_differs :
  WordsNorm asciiTables (runes "agreed") = [runes "agre"]
  /\ WordsNorm asciiTables
       (Join (WordsNorm asciiTables (runes "agreed")) (runes " "))
     = [runes "agr"]
  /\ WordsNorm asciiTables
       (Join (WordsNorm asciiTables (runes "agreed")) (runes " "))
     <> WordsNorm asciiTables (runes "agreed").
Proof.
  split; [by vm_compute|]. split; [by vm_compute|].
  vm_compute. discriminate.
Qed.

(** ** The sort *)

Section SortSlice.

Context {A : Type} (less : A -> A -> bool) (P : A -> Prop).

(** On the elements that satisfy [P], [less] is a strict weak order. *)
Hypothesis less_asym :
  forall a b, P a -> P b -> less a b = true -> less b a = false.
Hypothesis less_negtrans :
  forall a b c, P a -> P b -> P c ->
    less a b = false -> less b c = false -> less a c = false.

Lemma insertBack_perm x l : insertBack less x l ≡ₚ x :: l.
Proof.
  induction l as [|y l IH]; simpl; [done|].
  destruct (less x y); [|done]. rewrite IH. apply Permutation_swap.
Qed.

Lemma insertBack_sorted x l :
  P x -> Forall P l ->
  StronglySorted (fun a b => less a b = false) l ->
  StronglySorted (fun a b => less a b = false) (insertBack less x l).
Proof.
  intros Hx. induction l as [|y l IH]; simpl; intros HP Hsorted.
  - repeat constructor.
  - apply Forall_cons in HP as [Hy HP].
    apply StronglySorted_inv in Hsorted as [Hsorted Hall].
    destruct (less x y) eqn:Hxy.
    + constructor; [by apply IH|].
      rewrite insertBack_perm. constructor; [by apply less_asym | done].
    + constructor; [by constructor|]. constructor; [done|].
      rewrite Forall_forall in Hall, HP. apply Forall_forall.
      intros z Hz. apply (less_negtrans x y z); auto.
Qed.

Lemma sortSlice_foldl_perm acc l :
  foldl (fun revPrefix e => insertBack less e revPrefix) acc l ≡ₚ acc ++ l.
Proof.
  revert acc. induction l as [|x l IH]; intros acc; simpl.
  - by rewrite app_nil_r.
  - rewrite IH, insertBack_perm. simpl. apply Permutation_middle.
Qed.

Lemma sortSlice_perm l : sortSlice less l ≡ₚ l.
Proof.
  unfold sortSlice. rewrite reverse_Permutation.
  apply (sortSlice_foldl_perm [] l).
Qed.

Lemma sortSlice_foldl_sorted acc l :
  Forall P acc -> Forall P l ->
  StronglySorted (fun a b => less a b = false) acc ->
  StronglySorted (fun a b => less a b = false)
    (foldl (fun revPrefix e => insertBack less e revPrefix) acc l).
Proof.
  revert acc. induction l as [|x l IH]; intros acc Hacc Hl Hsorted; [done|].
  apply Forall_cons in Hl as [Hx Hl]. simpl. apply IH; [|done|].
  - rewrite insertBack_perm. by constructor.
  - by apply insertBack_sorted.
Qed.

Lemma StronglySorted_reverse (R : A -> A -> Prop) l :
  StronglySorted R l -> StronglySorted (fun a b => R b a) (reverse l).
Proof.
  induction 1 as [|x l Hsorted IH Hall]; [constructor|].
  rewrite reverse_cons. apply StronglySorted_app_2; [ | done | ].
  - intros a b Ha ->%list_elem_of_singleton.
    rewrite Forall_forall in Hall. apply Hall. by apply elem_of_reverse.
  - repeat constructor.
Qed.

(** The sorted slice: no element is [less] than one that stands before
    it. *)
Lemma sortSlice_sorted l :
  Forall P l ->
  StronglySorted (fun a b => less b a = false) (sortSlice less l).
Proof.
  intros Hl. unfold sortSlice.
  apply (StronglySorted_reverse (fun a b => less a b = false)).
  apply sortSlice_foldl_sorted; [constructor | done | constructor].
Qed.

End SortSlice.

(** ** The full-scan ranker *)

Lemma wrap64_small z : - 2 ^ 63 <= z < 2 ^ 63 -> wrap64 z = z.
Proof. intros Hz. unfold wrap64. rewrite Z.mod_small; lia. Qed.

Lemma take_min_length {A} (l : list A) (limit : Z) :
  take (Z.to_nat (Z.min (Z.of_nat (length l)) limit)) l
  = take (Z.to_nat limit) l.
Proof.
  destruct (Z.le_gt_cases (Z.of_nat (length l)) limit).
  - rewrite Z.min_l by done. rewrite !take_ge; [done | lia | lia].
  - by rewrite Z.min_r by lia.
Qed.

Section RankedSearch.

Import Search.

Context (keywords : list gostring).

Lemma setGet_foldl (m : gmap gostring bool) (kws : list gostring) w :
  setGet (foldl (fun m word => <[word := true]> m) m kws) w = true
  <-> setGet m w = true \/ w ∈ kws.
Proof.
  revert m. induction kws as [|k kws IH]; intros m; simpl.
  - rewrite elem_of_nil. tauto.
  - rewrite IH, elem_of_cons. unfold setGet.
    destruct (decide (k = w)) as [->|Hne].
    + rewrite lookup_insert_eq. simpl. tauto.
    + rewrite lookup_insert_ne by done. split; [tauto|].
      intros [?|[?|?]]; [tauto | congruence | tauto].
Qed.

Lemma setGet_makeSet w : setGet (makeSet keywords) w = true <-> w ∈ keywords.
Proof.
  unfold makeSet. rewrite setGet_foldl. unfold setGet.
  rewrite lookup_empty. simpl. split; [intros [?|?]; done | tauto].
Qed.

Lemma countMatched_foldl (words : list gostring) (m : Z) :
  0 <= m -> m + Z.of_nat (length words) < 2 ^ 63 ->
  foldl (fun m word =>
           if setGet (makeSet keywords) word then wrap64 (m + 1) else m)
    m words
  = m + Z.of_nat (length (filter (fun w => w ∈ keywords) words)).
Proof.
  revert m. induction words as [|w words IH]; intros m Hm Hlen; simpl.
  - lia.
  - simpl in Hlen. rewrite filter_cons.
    destruct (setGet (makeSet keywords) w) eqn:Hw.
    + apply setGet_makeSet in Hw. rewrite decide_True by done.
      rewrite wrap64_small by lia. rewrite IH by lia. simpl. lia.
    + rewrite decide_False; [apply IH; lia|].
      intros Hin%setGet_makeSet. congruence.
Qed.

Lemma countMatched_count (words : list gostring) :
  Z.of_nat (length words) < 2 ^ 63 ->
  countMatched (makeSet keywords) words
  = Z.of_nat (length (filter (fun w => w ∈ keywords) words)).
Proof. intros Hlen. unfold countMatched. rewrite countMatched_foldl; lia. Qed.

Lemma filter_empty_not_Exists {B} (Q : B -> Prop) `{!forall x, Decision (Q x)}
    (l : list B) :
  length (filter Q l) = O <-> ~ Exists Q l.
Proof.
  induction l as [|x l IH]; simpl.
  - split; [intros _ HE; inversion HE | done].
  - rewrite filter_cons. destruct (decide (Q x)) as [Hx|Hx]; simpl.
    + split; [done|]. intros Hn. destruct Hn. by left.
    + rewrite IH. split.
      * intros Hn HE. inversion HE; subst; tauto.
      * intros Hn HE. apply Hn. by right.
Qed.

Lemma collectRanks_foldl (catalog : list ComicInfo) (acc : list comicRank) :
  Forall (fun c => Z.of_nat (length (Words c)) < 2 ^ 31) catalog ->
  foldl (fun comicsRanks c =>
           let m := countMatched (makeSet keywords) (Words c) in
           if m =? 0 then comicsRanks
           else comicsRanks ++
                  [{| rankComic := comic c; matched := m;
                      total := Z.of_nat (length (Words c)) |}])
    acc catalog
  = acc ++ (rankOf keywords <$> filter (sharesKeyword keywords) catalog).
Proof.
  revert acc. induction catalog as [|c catalog IH]; intros acc Hlen.
  - simpl. by rewrite app_nil_r.
  - apply Forall_cons in Hlen as [Hc Hlen]. simpl.
    rewrite countMatched_count by lia. rewrite filter_cons.
    destruct (Z.eqb_spec
      (Z.of_nat (length (filter (fun w => w ∈ keywords) (Words c)))) 0)
      as [Hzero|Hpos].
    + rewrite decide_False; [by apply IH|].
      unfold sharesKeyword.
      apply (proj1 (filter_empty_not_Exists (fun w => w ∈ keywords) _)). lia.
    + rewrite decide_True.
      * rewrite IH by done. by rewrite <- app_assoc.
      * unfold sharesKeyword.
        destruct (decide (Exists (fun w => w ∈ keywords) (Words c)));
          [done|].
        exfalso. apply Hpos.
        apply (proj2 (filter_empty_not_Exists (fun w => w ∈ keywords) _)) in n.
        lia.
Qed.

Lemma collectRanks_spec (catalog : list ComicInfo) :
  Forall (fun c => Z.of_nat (length (Words c)) < 2 ^ 31) catalog ->
  collectRanks catalog (makeSet keywords)
  = rankOf keywords <$> filter (sharesKeyword keywords) catalog.
Proof. intros Hlen. unfold collectRanks. by rewrite collectRanks_foldl. Qed.

Lemma rankLess_bounded (a b : comicRank) :
  boundedRank a -> boundedRank b ->
  rankLess a b = true
  <-> matched b < matched a
      \/ (matched a = matched b /\ matched b * total a < matched a * total b).
Proof.
  intros (Ha1 & Ha2 & Ha3) (Hb1 & Hb2 & Hb3). unfold rankLess.
  assert (0 <= matched a * total b < 2 ^ 62) by nia.
  assert (0 <= matched b * total a < 2 ^ 62) by nia.
  rewrite !wrap64_small by lia.
  destruct (Z.eqb_spec (matched a) (matched b)); simpl.
  - rewrite Z.ltb_lt. split; [intros ?; right; split; lia | lia].
  - rewrite Z.ltb_lt. lia.
Qed.

Lemma rankLess_false (a b : comicRank) :
  boundedRank a -> boundedRank b ->
  rankLess b a = false <-> rankedBefore a b.
Proof.
  intros Ha Hb. unfold rankedBefore.
  destruct (rankLess b a) eqn:Hless.
  - apply rankLess_bounded in Hless; [|done..]. split; [done|]. lia.
  - split; [intros _|done].
    assert (~ (matched a < matched b
               \/ (matched b = matched a
                   /\ matched a * total b < matched b * total a))) as Hn.
    { intros HE%rankLess_bounded; [congruence | done..]. }
    lia.
Qed.

Lemma rankOf_bounded (c : ComicInfo) :
  Z.of_nat (length (Words c)) < 2 ^ 31 ->
  sharesKeyword keywords c ->
  boundedRank (rankOf keywords c).
Proof.
  intros Hlen Hshares. unfold boundedRank, rankOf. simpl.
  pose proof (length_filter (fun w => w ∈ keywords) (Words c)).
  assert (length (filter (fun w => w ∈ keywords) (Words c)) <> O).
  { intros Hz.
    by apply (proj1 (filter_empty_not_Exists (fun w => w ∈ keywords) _)) in Hz. }
  lia.
Qed.

(** For an entry whose words are distinct, as the normalizer produces
    them, the number of matches is the size of the intersection of its
    words with the keywords. *)
Lemma matched_intersection (c : ComicInfo) :
  NoDup (Words c) ->
  matched (rankOf keywords c)
  = Z.of_nat (size (list_to_set (Words c) ∩ list_to_set keywords
                    : gset gostring)).
Proof.
  intros Hnodup. unfold rankOf. cbn [matched]. f_equal.
  rewrite <- (size_list_to_set (C := gset gostring))
    by (by apply NoDup_filter).
  f_equal. apply set_eq. intros w.
  rewrite elem_of_intersection, !elem_of_list_to_set, list_elem_of_filter.
  tauto.
Qed.

End RankedSearch.

Lemma StronglySorted_impl_on {A} (P : A -> Prop) (R R' : A -> A -> Prop) l :
  (forall a b, P a -> P b -> R a b -> R' a b) ->
  Forall P l -> StronglySorted R l -> StronglySorted R' l.
Proof.
  intros HR HP Hsorted. induction Hsorted as [|x l Hsorted IH Hall].
  - constructor.
  - apply Forall_cons in HP as [Hx HP]. constructor; [by apply IH|].
    rewrite Forall_forall in Hall, HP. apply Forall_forall.
    intros y Hy. apply HR; auto.
Qed.

Lemma rankLess_asym (a b : Search.comicRank) :
  Search.boundedRank a -> Search.boundedRank b ->
  Search.rankLess a b = true -> Search.rankLess b a = false.
Proof.
  intros Ha Hb Hab. apply rankLess_bounded in Hab; [|done..].
  destruct (Search.rankLess b a) eqn:Hba; [|done].
  apply rankLess_bounded in Hba; [|done..]. lia.
Qed.

Lemma rankLess_negtrans (a b c : Search.comicRank) :
  Search.boundedRank a -> Search.boundedRank b -> Search.boundedRank c ->
  Search.rankLess a b = false -> Search.rankLess b c = false ->
  Search.rankLess a c = false.
Proof.
  intros Ha Hb Hc Hab Hbc.
  apply rankLess_false in Hab; [|done..].
  apply rankLess_false in Hbc; [|done..].
  apply rankLess_false; [done..|].
  unfold Search.rankedBefore in *.
  destruct Hab as [Hab|[Hab Hab']], Hbc as [Hbc|[Hbc Hbc']]; nia.
Qed.

(** The general part of the ranking of [Search]. *)
Lemma Search_ranked (s : Search.Service) (phrase : gostring) (limit : Z)
    (keywords : list gostring) (catalog : list Search.ComicInfo) :
  phrase <> [] ->
  0 < limit ->
  Search.words_Norm (Search.ports s) phrase = Ok keywords ->
  Search.db_GetAllComicsInfo (Search.ports s) = Ok catalog ->
  Forall (fun c => Z.of_nat (length (Search.Words c)) < 2 ^ 31) catalog ->
  exists ranked : list Search.comicRank,
    Search.Search s phrase limit
    = Ok (Search.rankComic <$> take (Z.to_nat limit) ranked)
    /\ ranked ≡ₚ Search.rankOf keywords
                   <$> filter (Search.sharesKeyword keywords) catalog
    /\ StronglySorted Search.rankedBefore ranked.
Proof.
  intros Hphrase Hlimit Hnorm Hdb Hlen.
  exists (sortSlice Search.rankLess
            (Search.collectRanks catalog (Search.makeSet keywords))).
  assert (Forall Search.boundedRank
            (Search.collectRanks catalog (Search.makeSet keywords)))
    as Hbounded.
  { rewrite collectRanks_spec by done. apply Forall_fmap, Forall_forall.
    intros c [Hc Hshares]%list_elem_of_filter. simpl.
    apply rankOf_bounded; [|done].
    rewrite Forall_forall in Hlen. by apply Hlen. }
  split; [|split].
  - unfold Search.Search. rewrite bool_decide_false by done.
    replace (limit <=? 0) with false by (symmetry; apply Z.leb_gt; lia).
    simpl. rewrite Hnorm, Hdb. f_equal. unfold Search.rankedSearch.
    destruct catalog as [|c catalog];
      [unfold Search.collectRanks, sortSlice; simpl;
       by rewrite reverse_nil, take_nil|].
    destruct (Search.collectRanks (c :: catalog) (Search.makeSet keywords))
      as [|r ranks] eqn:Hranks;
      [unfold sortSlice; simpl; by rewrite reverse_nil, take_nil|].
    by rewrite take_min_length.
  - rewrite sortSlice_perm. by rewrite collectRanks_spec.
  - apply (StronglySorted_impl_on Search.boundedRank
             (fun a b => Search.rankLess b a = false)).
    + intros a b Ha Hb. by apply rankLess_false.
    + by rewrite sortSlice_perm.
    + apply (sortSlice_sorted _ Search.boundedRank);
        [apply rankLess_asym | apply rankLess_negtrans | done].
Qed.

(** C1.  For a non-empty phrase and a positive limit, with the keywords
    the words service returns for the phrase and the catalog the store
    returns (entries of fewer than 2^31 words), [Search] returns the
    first [limit] entries of a list [ranked] which holds exactly the
    entries that share a keyword with the phrase, each with its number of
    matched words and its number of words, and in which an entry stands
    before another only with more matches or, with as many, with a ratio
    matched/total that is not smaller (compared cross-multiplied).  On
    the catalog and the phrase of scenario S4, with limit 10, the ids
    come out as 2, 1, 3. *)
Theorem Search_ranking :
  (forall (s : Search.Service) (phrase : gostring) (limit : Z)
          (keywords : list gostring) (catalog : list Search.ComicInfo),
     phrase <> [] ->
     0 < limit ->
     Search.words_Norm (Search.ports s) phrase = Ok keywords ->
     Search.db_GetAllComicsInfo (Search.ports s) = Ok catalog ->
     Forall (fun c => Z.of_nat (length (Search.Words c)) < 2 ^ 31) catalog ->
     exists ranked : list Search.comicRank,
       Search.Search s phrase limit
       = Ok (Search.rankComic <$> take (Z.to_nat limit) ranked)
       /\ ranked ≡ₚ Search.rankOf keywords
                      <$> filter (Search.sharesKeyword keywords) catalog
       /\ StronglySorted Search.rankedBefore ranked)
  /\ Search.Search Search.s4Service (runes "test phrase is unknown") 10
     = Ok [ {| Search.ID := 2; Search.URL := runes "url2" |};
            {| Search.ID := 1; Search.URL := runes "url1" |};
            {| Search.ID := 3; Search.URL := runes "url3" |} ].
Proof. split; [apply Search_ranked | by vm_compute]. Qed.

(** A word that an entry repeats is counted each time. *)
Example rankOf_repeated_word :
  Search.matched
    (Search.rankOf [runes "test"]
       {| Search.comic := {| Search.ID := 1; Search.URL := [] |};
          Search.Words := [runes "test"; runes "test"] |})
  = 2.
Proof. reflexivity. Qed.

Lemma Search_ranking_witness :
  exists ranked : list Search.comicRank,
    Search.Search Search.s4Service (runes "test phrase is unknown") 10
    = Ok (Search.rankComic <$> take (Z.to_nat 10) ranked)
    /\ ranked ≡ₚ Search.rankOf
                   (WordsNorm asciiTables (runes "test phrase is unknown"))
                   <$> filter
                         (Search.sharesKeyword
                            (WordsNorm asciiTables
                               (runes "test phrase is unknown")))
                         Search.s4Catalog
    /\ StronglySorted Search.rankedBefore ranked.
Proof.
  apply (proj1 Search_ranking Search.s4Service
           (runes "test phrase is unknown") 10
           (WordsNorm asciiTables (runes "test phrase is unknown"))
           Search.s4Catalog).
  - discriminate.
  - lia.
  - reflexivity.
  - reflexivity.
  - repeat (apply List.Forall_cons; [by vm_compute|]). apply List.Forall_nil.
Defined.

(** ** The indexed ranker *)

Section IndexedSearch.

Import Search.

(** What the loops of [ISearch] maintain after the hits [ids]. *)
Record hitsInv (ids : list Z) (h : hits) : Prop := {
  hits_nodup : NoDup h.2;
  hits_unique : forall id, id ∈ h.2 <-> id ∈ ids;
  hits_scored : forall id, is_Some (h.1 !! id) <-> id ∈ ids;
  hits_score : forall id,
    Z.of_nat (length ids) < 2 ^ 63 ->
    default 0 (h.1 !! id) = Z.of_nat (length (filter (fun x => x = id) ids));
}.

Lemma hitsInv_init : hitsInv [] (∅, []).
Proof.
  split; simpl.
  - constructor.
  - done.
  - intros id. rewrite lookup_empty, elem_of_nil. split; [by intros [? ?]|done].
  - intros id _. by rewrite lookup_empty.
Qed.

Lemma hitsInv_step ids h id :
  hitsInv ids h -> hitsInv (ids ++ [id]) (hitStep h id).
Proof.
  intros [Hnodup Hunique Hscored Hscore]. unfold hitStep. split; simpl.
  - destruct (h.1 !! id) eqn:Hid; [done|].
    apply NoDup_app. split; [done|]. split; [|apply NoDup_singleton].
    intros x Hx ->%list_elem_of_singleton.
    apply Hunique, Hscored in Hx. rewrite Hid in Hx. by destruct Hx.
  - intros x. rewrite elem_of_app, list_elem_of_singleton.
    destruct (h.1 !! id) eqn:Hid.
    + rewrite Hunique. split; [tauto|]. intros [?| ->]; [done|].
      apply Hscored. by rewrite Hid.
    + rewrite elem_of_app, list_elem_of_singleton, Hunique. tauto.
  - intros x. rewrite elem_of_app, list_elem_of_singleton.
    destruct (decide (id = x)) as [->|Hne].
    + rewrite lookup_insert_eq. split; [tauto | eauto].
    + rewrite lookup_insert_ne by done. rewrite Hscored.
      split; [tauto | intros [?|?]; [done | congruence]].
  - intros x Hlen. rewrite length_app in Hlen. simpl in Hlen.
    rewrite filter_app, length_app, filter_cons, filter_nil.
    pose proof (length_filter (fun y => y = id) ids).
    destruct (decide (id = x)) as [->|Hne].
    + rewrite lookup_insert_eq. simpl. rewrite Hscore by lia.
      pose proof (length_filter (fun y => y = x) ids).
      rewrite wrap64_small by lia. lia.
    + rewrite lookup_insert_ne by done. rewrite Hscore by lia. simpl. lia.
Qed.

Lemma hitsInv_foldl ids h more :
  hitsInv ids h -> hitsInv (ids ++ more) (foldl hitStep h more).
Proof.
  revert ids h. induction more as [|id more IH]; intros ids h Hh; simpl.
  - by rewrite app_nil_r.
  - replace (ids ++ id :: more) with ((ids ++ [id]) ++ more)
      by (by rewrite <- app_assoc).
    apply IH. by apply hitsInv_step.
Qed.

Lemma collectHits_foldl idx keywords h :
  foldl (fun h keyword => foldl hitStep h (default [] (idx !! keyword)))
    h keywords
  = foldl hitStep h (postings idx keywords).
Proof.
  revert h. induction keywords as [|k keywords IH]; intros h; [done|].
  unfold postings. simpl. by rewrite foldl_app, IH.
Qed.

Lemma collectHits_inv idx keywords :
  hitsInv (postings idx keywords) (collectHits idx keywords).
Proof.
  unfold collectHits. rewrite collectHits_foldl.
  apply (hitsInv_foldl [] (∅, [])), hitsInv_init.
Qed.

Lemma GetComicsByIds_ids (t : table) (fault : option error) (ids : list Z)
    comics :
  GetComicsByIds t fault ids = Ok comics ->
  NoDup (ID <$> comics) /\ (forall c, c ∈ comics -> ID c ∈ ids).
Proof.
  unfold GetComicsByIds. destruct fault as [e|]; [done|].
  intros [= <-]. split.
  - rewrite <- list_fmap_compose.
    assert ((ID ∘ (fun row : Z * (gostring * list gostring) =>
                     {| ID := row.1; URL := row.2.1 |}))
              <$> filter (fun row => row.1 ∈ ids) (map_to_list t)
            `sublist_of` (map_to_list t).*1) as Hsub
      by apply (fmap_sublist fst), sublist_filter.
    exact (sublist_NoDup _ _ (NoDup_fst_map_to_list t) Hsub).
  - intros c (row & -> & Hrow)%list_elem_of_fmap.
    by apply list_elem_of_filter in Hrow as [? _].
Qed.

(** [ISearch] over any store: the comics returned are, up to their
    order, among the rows the store returned for the unique ids. *)
Lemma ISearch_rows (s : Service) (phrase : gostring) (limit : Z)
    (keywords : list gostring) (rows : list Comic) :
  phrase <> [] ->
  0 < limit ->
  words_Norm (ports s) phrase = Ok keywords ->
  db_GetComicsByIds (ports s) (collectHits (index s) keywords).2 = Ok rows ->
  exists sorted : list Comic,
    ISearch s phrase limit = Ok (take (Z.to_nat limit) sorted)
    /\ sorted ≡ₚ rows.
Proof.
  intros Hphrase Hlimit Hnorm Hrows.
  unfold ISearch. rewrite bool_decide_false by done.
  replace (limit <=? 0) with false by (symmetry; apply Z.leb_gt; lia).
  cbn [orb]. rewrite Hnorm.
  destruct (collectHits (index s) keywords) as [scores uniqueIDs].
  cbn [snd] in Hrows. rewrite Hrows.
  exists (sortSlice (scoreLess scores) rows).
  split; [by rewrite take_min_length | apply sortSlice_perm].
Qed.

(** [ISearch] when the store refuses the query. *)
Lemma ISearch_store_error (s : Service) (phrase : gostring) (limit : Z)
    (keywords : list gostring) (e : error) :
  phrase <> [] ->
  0 < limit ->
  words_Norm (ports s) phrase = Ok keywords ->
  db_GetComicsByIds (ports s) (collectHits (index s) keywords).2 = Err e ->
  ISearch s phrase limit = Err (Wrapf "failed to get comics by comics ids" e).
Proof.
  intros Hphrase Hlimit Hnorm Hrows.
  unfold ISearch. rewrite bool_decide_false by done.
  replace (limit <=? 0) with false by (symmetry; apply Z.leb_gt; lia).
  cbn [orb]. rewrite Hnorm.
  destruct (collectHits (index s) keywords) as [scores uniqueIDs].
  cbn [snd] in Hrows. by rewrite Hrows.
Qed.

End IndexedSearch.

(** C10.  For every service, a non-empty phrase and a positive limit,
    with the keywords the words service returns: the hits are collected
    into a list of distinct ids, exactly the ids on the posting lists of
    the keywords, and the score of an id is the number of its
    occurrences on these lists.  [ISearch] asks the store for this list:
    it fails with the error of the store for this list, wrapped, and for
    the rows the store returns for it, it returns the first [limit] of
    a rearrangement of them, so that no row is repeated: a comic id
    occurs at most once in the result when it does so among the rows.
    The rows of the storage adapter have distinct ids, all of them
    asked for. *)
Theorem ISearch_distinct_ids (s : Search.Service) (phrase : gostring)
    (limit : Z) (keywords : list gostring) :
  phrase <> [] ->
  0 < limit ->
  Search.words_Norm (Search.ports s) phrase = Ok keywords ->
  NoDup (Search.collectHits (Search.index s) keywords).2
  /\ (forall id, id ∈ (Search.collectHits (Search.index s) keywords).2
                 <-> id ∈ Search.postings (Search.index s) keywords)
  /\ (Z.of_nat (length (Search.postings (Search.index s) keywords)) < 2 ^ 63 ->
      forall id,
        default 0 ((Search.collectHits (Search.index s) keywords).1 !! id)
        = Z.of_nat (length (filter (fun x => x = id)
                              (Search.postings (Search.index s) keywords))))
  /\ (forall e,
        Search.db_GetComicsByIds (Search.ports s)
          (Search.collectHits (Search.index s) keywords).2 = Err e ->
        Search.ISearch s phrase limit
        = Err (Wrapf "failed to get comics by comics ids" e))
  /\ (forall rows,
        Search.db_GetComicsByIds (Search.ports s)
          (Search.collectHits (Search.index s) keywords).2 = Ok rows ->
        exists sorted : list Search.Comic,
          Search.ISearch s phrase limit = Ok (take (Z.to_nat limit) sorted)
          /\ sorted ≡ₚ rows
          /\ (NoDup (Search.ID <$> rows) ->
              NoDup (Search.ID <$> take (Z.to_nat limit) sorted))
          /\ forall c, c ∈ take (Z.to_nat limit) sorted -> c ∈ rows)
  /\ (forall (t : Search.table) (fault : option error) rows,
        Search.GetComicsByIds t fault
          (Search.collectHits (Search.index s) keywords).2 = Ok rows ->
        NoDup (Search.ID <$> rows)
        /\ forall c, c ∈ rows ->
             Search.ID c ∈ (Search.collectHits (Search.index s) keywords).2).
Proof.
  intros Hphrase Hlimit Hnorm.
  destruct (collectHits_inv (Search.index s) keywords)
    as [Hnodup Hunique _ Hscore].
  split; [done|]. split; [done|]. split; [by intros ? ?; apply Hscore|].
  split; [|split].
  - intros e He. by apply (ISearch_store_error s phrase limit keywords).
  - intros rows Hrows.
    destruct (ISearch_rows s phrase limit keywords rows Hphrase Hlimit
                Hnorm Hrows) as (sorted & Hsearch & Hperm).
    exists sorted. split; [done|]. split; [done|].
    pose proof (sublist_take sorted (Z.to_nat limit)) as Hsub.
    split.
    + intros Hids.
      assert (Search.ID <$> take (Z.to_nat limit) sorted
              `sublist_of` Search.ID <$> sorted)
        as Hsub' by (by apply fmap_sublist).
      refine (sublist_NoDup _ _ _ Hsub'). by rewrite Hperm.
    + intros c Hc. rewrite <- Hperm.
      by apply (elem_of_sublist _ _ _ Hc Hsub).
  - intros t fault rows Hrows. by apply GetComicsByIds_ids in Hrows.
Qed.

Lemma ISearch_distinct_ids_witness :
  NoDup (Search.collectHits Search.s4Index
           (WordsNorm asciiTables (runes "test phrase is unknown"))).2
  /\ exists sorted : list Search.Comic,
       Search.ISearch
         (Search.overTable (fun p => Ok (WordsNorm asciiTables p))
            Search.s4Table Search.noFaults Search.s4Index)
         (runes "test phrase is unknown") 10
       = Ok (take (Z.to_nat 10) sorted)
       /\ NoDup (Search.ID <$> take (Z.to_nat 10) sorted).
Proof.
  destruct (ISearch_distinct_ids
              (Search.overTable (fun p => Ok (WordsNorm asciiTables p))
                 Search.s4Table Search.noFaults Search.s4Index)
              (runes "test phrase is unknown") 10
              (WordsNorm asciiTables (runes "test phrase is unknown")))
    as (Hnodup & _ & _ & _ & Hfound & Hstore).
  - discriminate.
  - lia.
  - reflexivity.
  - split; [exact Hnodup|].
    destruct (Hfound _ eq_refl) as (sorted & Hsearch & _ & Hids & _).
    exists sorted. split; [exact Hsearch|].
    apply Hids. exact (proj1 (Hstore Search.s4Table None _ eq_refl)).
Defined.

(** The posting lists of scenario S4 hit comic 2 three times and comic 1
    twice; each comes back once. *)
Example ISearch_s4 :
  Search.postings Search.s4Index
    (WordsNorm asciiTables (runes "test phrase is unknown"))
  = [1; 2; 3; 1; 2; 2]
  /\ Search.ID <$> match Search.ISearch
                          (Search.overTable
                             (fun p => Ok (WordsNorm asciiTables p))
                             Search.s4Table Search.noFaults Search.s4Index)
                          (runes "test phrase is unknown") 10 with
                   | Ok comics => comics
                   | Err _ => []
                   end
    = [2; 1; 3].
Proof. split; by vm_compute. Qed.

(** ** The updater: exclusion of [Update] and [Drop] *)

Section Exclusion.

Import Update.

Lemma CompareAndSwap_busy (s : Service) :
  inProgress s = true -> CompareAndSwap s false true = (s, false).
Proof.
  intros Hbusy. unfold CompareAndSwap. by rewrite bool_decide_false by congruence.
Qed.

Lemma CompareAndSwap_idle (s : Service) :
  inProgress s = false ->
  CompareAndSwap s false true = (withInProgress s true, true).
Proof.
  intros Hidle. unfold CompareAndSwap. by rewrite bool_decide_true.
Qed.

(** Either nothing is in flight and the flag is down, or one call is in
    flight and the flag is up. *)
Lemma reachable_inv (s : Service) (σ : system) :
  reachable s σ ->
  (inflight σ = [] /\ inProgress (service σ) = false)
  \/ (exists call, inflight σ = [call] /\ inProgress (service σ) = true).
Proof.
  induction 1 as [|σ ev σ' _ IH Hstep].
  - left. by split.
  - destruct Hstep as [c o σ|i c o σ Hi].
    + unfold enter. destruct IH as [[Hnone Hidle]|(call & Hone & Hbusy)].
      * rewrite CompareAndSwap_idle by done. simpl. right.
        exists (c, o). by rewrite Hnone.
      * rewrite CompareAndSwap_busy by done. simpl. right. eauto.
    + destruct IH as [[Hnone Hidle]|(call & Hone & Hbusy)].
      * rewrite Hnone in Hi. by rewrite lookup_nil in Hi.
      * left. unfold leave. simpl. rewrite Hone in Hi |- *.
        destruct i as [|i]; [done|]. by rewrite lookup_cons, lookup_nil in Hi.
Qed.

End Exclusion.

(** C2.  A call of [Update] or [Drop] on a service whose flag is up
    returns the already-exists error with no effect at all and leaves
    the service as it is; a call on a service whose flag is down leaves
    the flag down when it ends.  In every state that interleaved calls
    can reach, at most one call is between its compare-and-swap and its
    deferred store, the flag is up exactly when there is one, and any
    call that enters meanwhile is rejected with the already-exists error,
    the state unchanged. *)
Theorem Update_Drop_exclusive :
  (forall choices s,
     Update.inProgress s = true ->
     Update.Update choices s
     = (([], Update.Returned (Some (Sentinel ErrAlreadyExists))), s))
  /\ (forall s,
        Update.inProgress s = true ->
        Update.Drop s
        = (([], Update.Returned (Some (Sentinel ErrAlreadyExists))), s))
  /\ (forall choices s,
        Update.inProgress s = false ->
        Update.inProgress (Update.Update choices s).2 = false)
  /\ (forall s,
        Update.inProgress s = false ->
        Update.inProgress (Update.Drop s).2 = false)
  /\ (forall s σ,
        Update.reachable s σ ->
        (length (Update.inflight σ) <= 1)%nat
        /\ (Update.inProgress (Update.service σ) = true
            <-> Update.inflight σ <> []))
  /\ (forall s σ c o,
        Update.reachable s σ ->
        Update.inflight σ <> [] ->
        Update.enter c o σ
        = (Update.Rejected c o (Sentinel ErrAlreadyExists), σ)).
Proof.
  split; [|split; [|split; [|split; [|split]]]].
  - intros choices s Hbusy. unfold Update.Update.
    by rewrite CompareAndSwap_busy.
  - intros s Hbusy. unfold Update.Drop. by rewrite CompareAndSwap_busy.
  - intros choices s Hidle. unfold Update.Update.
    by rewrite CompareAndSwap_idle.
  - intros s Hidle. unfold Update.Drop. by rewrite CompareAndSwap_idle.
  - intros s σ Hreach.
    destruct (reachable_inv s σ Hreach) as [[-> ->]|(call & -> & ->)];
      simpl; (split; [lia|done]).
  - intros s σ c o Hreach Hne. unfold Update.enter.
    destruct (reachable_inv s σ Hreach) as [[Hnone _]|(call & _ & Hbusy)];
      [done|].
    by rewrite CompareAndSwap_busy.
Qed.

Lemma Update_Drop_exclusive_witness :
  (length
     (Update.inflight
        (Update.enter 2 Update.OpDrop
           (Update.enter 1 Update.OpUpdate
              (Update.initial Update.s5Service)).2).2) <= 1)%nat
  /\ Update.enter 2 Update.OpDrop
       (Update.enter 1 Update.OpUpdate (Update.initial Update.s5Service)).2
     = (Update.Rejected 2 Update.OpDrop (Sentinel ErrAlreadyExists),
        (Update.enter 1 Update.OpUpdate
           (Update.initial Update.s5Service)).2).
Proof.
  assert (Update.reachable Update.s5Service
            (Update.enter 1 Update.OpUpdate
               (Update.initial Update.s5Service)).2) as Hone.
  { eapply Update.reachable_step;
      [apply Update.reachable_initial | apply Update.step_enter]. }
  assert (Update.reachable Update.s5Service
            (Update.enter 2 Update.OpDrop
               (Update.enter 1 Update.OpUpdate
                  (Update.initial Update.s5Service)).2).2) as Htwo.
  { eapply Update.reachable_step; [exact Hone | apply Update.step_enter]. }
  destruct Update_Drop_exclusive as (_ & _ & _ & _ & Hinv & Hreject).
  split.
  - exact (proj1 (Hinv _ _ Htwo)).
  - apply (Hreject Update.s5Service); [exact Hone | discriminate].
Defined.

(** ** The updater: workers and the batch *)

Section Ingest.

Import Update.

(** Every job is received once, in some order. *)
Lemma arrival_perm (choices : list nat) (jobs : list Z) :
  arrival choices jobs ≡ₚ jobs.
Proof.
  revert jobs. induction choices as [|c choices IH]; intros jobs; [done|].
  destruct jobs as [|j0 jobs]; [done|]. cbn [arrival].
  set (i := (c `mod` length (j0 :: jobs))%nat).
  assert (i < length (j0 :: jobs))%nat as Hi
    by (apply Nat.mod_upper_bound; simpl; lia).
  destruct (lookup_lt_is_Some_2 _ _ Hi) as [j Hj].
  rewrite (nth_lookup_Some _ _ _ _ Hj), IH.
  symmetry. by apply delete_Permutation.
Qed.

(** A worker calls the upstream and the words service and writes to the
    log; it neither writes to the store nor publishes. *)
Lemma worker_effects (p : Ports) (id : Z) (e : effect) :
  e ∈ (worker p id).2 ->
  (exists i, e = CallGet i) \/ (exists ph, e = CallNorm ph)
  \/ (exists lvl msg, e = Log lvl msg).
Proof.
  unfold worker. destruct (id =? 404); simpl; [by intros ?%elem_of_nil|].
  destruct (xkcd_Get p id) as [info|err]; simpl.
  - destruct (words_Norm p (makeDescription info)); simpl;
      rewrite ?elem_of_cons, elem_of_nil; intros Hin;
      repeat (destruct Hin as [->|Hin]; [eauto 6|]); destruct Hin.
  - destruct (errorsIs err ErrNotFound);
      rewrite ?elem_of_cons, elem_of_nil; intros Hin;
      repeat (destruct Hin as [->|Hin]; [eauto 6|]); destruct Hin.
Qed.

Lemma workers_effects (p : Ports) (ids : list Z) (e : effect) :
  e ∈ concat (snd <$> (worker p <$> ids)) ->
  (exists i, e = CallGet i) \/ (exists ph, e = CallNorm ph)
  \/ (exists lvl msg, e = Log lvl msg).
Proof.
  induction ids as [|id ids IH]; simpl; [by intros ?%elem_of_nil|].
  rewrite elem_of_app. intros [Hin|Hin]; [by eapply worker_effects | auto].
Qed.

Lemma workers_no_Add (p : Ports) (ids : list Z) (comics : list Comic) :
  CallAdd comics ∉ concat (snd <$> (worker p <$> ids)).
Proof.
  intros Hin%workers_effects.
  destruct Hin as [[? ?]|[[? ?]|(? & ? & ?)]]; discriminate.
Qed.

Lemma workers_no_Publish (p : Ports) (ids : list Z) (ev : EventType) :
  CallPublish ev ∉ concat (snd <$> (worker p <$> ids)).
Proof.
  intros Hin%workers_effects.
  destruct Hin as [[? ?]|[[? ?]|(? & ? & ?)]]; discriminate.
Qed.

(** The two [make] calls succeed for a last id within the limit of the
    runtime and panic for any other. *)
Lemma makechan_in_range (p : Ports) (lastID : Z) :
  0 <= lastID <= runtime_MaxChan p ->
  (lastID <? 0) || (runtime_MaxChan p <? lastID) = false.
Proof.
  intros [? ?]. apply orb_false_iff. split; apply Z.ltb_ge; lia.
Qed.

Lemma makechan_out_of_range (p : Ports) (lastID : Z) :
  lastID < 0 \/ runtime_MaxChan p < lastID ->
  (lastID <? 0) || (runtime_MaxChan p <? lastID) = true.
Proof.
  intros [?|?]; apply orb_true_iff; [left | right]; apply Z.ltb_lt; lia.
Qed.

(** How [ingest] ends: only a failure of the batch insert is returned. *)
Lemma ingest_outcome (choices : list nat) (p : Ports) (IDs : list Z)
    (lastID : Z) :
  0 <= lastID <= runtime_MaxChan p ->
  (ingest choices p IDs lastID).2
  = match produced choices p IDs lastID with
    | [] => Returned None
    | comics =>
        match db_Add p comics with
        | Some e => Returned (Some (Wrapf "failed to add comics" e))
        | None => Returned None
        end
    end.
Proof.
  intros Hlast. unfold ingest, produced.
  rewrite makechan_in_range by done.
  destruct (omap fst (worker p <$> arrival choices (missing IDs lastID)))
    as [|c comics]; [done|].
  simpl. destruct (db_Add p (c :: comics)); [done|].
  by destruct (publisher_Publish p EventUpdate).
Qed.

End Ingest.

(** C7.  A worker that receives id 404 sends the entry with id 404, an
    empty url and no words, and does nothing else: it makes no upstream
    call.  For any other id to which the upstream answers 404, the worker
    sends [nil] and only logs at debug level.  The workers' failures
    do not reach the result of [Update]: once a last id is read for
    which the runtime makes the channels, the call ends with [nil] or
    with the error of the batch insert. *)
Theorem worker_tombstone_and_skip :
  (forall p : Update.Ports,
     Update.worker p 404
     = (Some {| Update.ID := 404; Update.URL := []; Update.Words := [] |}, []))
  /\ (forall (up : Update.upstream) (p : Update.Ports) (id : Z)
             (decoded : result Update.XKCDInfo),
        id <> 404 ->
        up (Some id) = Update.Responded 404 decoded ->
        Update.worker (Update.overUpstream up p) id
        = (None,
           [Update.CallGet id; Update.Log Update.Debug "comic not found"]))
  /\ (forall (choices : list nat) (p : Update.Ports) (IDs : list Z)
             (lastID : Z),
        0 <= lastID <= Update.runtime_MaxChan p ->
        (Update.ingest choices p IDs lastID).2
        = match Update.produced choices p IDs lastID with
          | [] => Update.Returned None
          | comics =>
              match Update.db_Add p comics with
              | Some e =>
                  Update.Returned (Some (Wrapf "failed to add comics" e))
              | None => Update.Returned None
              end
          end).
Proof.
  split; [done|]. split; [|apply ingest_outcome].
  intros up p id decoded Hid Hup. unfold Update.worker.
  replace (id =? 404) with false by (symmetry; by apply Z.eqb_neq).
  simpl. unfold Update.Get. by rewrite Hup.
Qed.

Lemma worker_tombstone_and_skip_witness :
  Update.worker (Update.overUpstream Update.upstream404 Update.s5Ports) 3
  = (None, [Update.CallGet 3; Update.Log Update.Debug "comic not found"])
  /\ (Update.ingest [] (Update.overUpstream Update.upstream404 Update.s5Ports)
        [1; 2] 4).2
     = Update.Returned None.
Proof.
  destruct worker_tombstone_and_skip as (_ & Hskip & Hout).
  split.
  - apply (Hskip Update.upstream404 Update.s5Ports 3 (Err (Opaque "EOF")));
      [lia | reflexivity].
  - rewrite Hout by (simpl; lia). reflexivity.
Defined.

(** ** The updater: when [Update] publishes *)

(** Membership in a trace that is written out. *)
Ltac unfold_trace :=
  cbn [Update.emit Update.ret fst snd app];
  repeat (rewrite ?elem_of_app, ?elem_of_cons, ?elem_of_nil).

Section Publish.

Import Update.

Lemma Update_idle (choices : list nat) (s : Service) :
  inProgress s = false ->
  Update choices s
  = (((updateBody choices (ports s)).1 ++ [Log Info "update finished"],
      (updateBody choices (ports s)).2),
     withInProgress s false).
Proof. intros Hidle. unfold Update. by rewrite CompareAndSwap_idle. Qed.

Lemma Update_busy (choices : list nat) (s : Service) :
  inProgress s = true ->
  Update choices s = (([], Returned (Some (Sentinel ErrAlreadyExists))), s).
Proof. intros Hbusy. unfold Update. by rewrite CompareAndSwap_busy. Qed.

Lemma updateBody_publish (choices : list nat) (p : Ports) :
  CallPublish EventUpdate ∈ (updateBody choices p).1
  <-> exists IDs lastID,
        db_IDs p = Ok IDs /\ xkcd_LastID p = Ok lastID
        /\ 0 <= lastID <= runtime_MaxChan p
        /\ produced choices p IDs lastID <> []
        /\ db_Add p (produced choices p IDs lastID) = None.
Proof.
  unfold updateBody, ingest, produced.
  destruct (db_IDs p) as [IDs|e1].
  2:{ unfold_trace. split; [intuition discriminate|].
      by intros (? & ? & ? & _). }
  destruct (xkcd_LastID p) as [lastID|e2].
  2:{ destruct (errorsIs e2 ErrNotFound); unfold_trace;
        (split; [intuition discriminate | by intros (? & ? & _ & ? & _)]). }
  destruct (decide (0 <= lastID <= runtime_MaxChan p)) as [Hin|Hout].
  2:{ rewrite makechan_out_of_range by lia. unfold_trace.
      split; [intuition discriminate|].
      intros (? & ? & _ & [= <-] & ? & _). lia. }
  rewrite makechan_in_range by done.
  pose proof (workers_no_Publish p (arrival choices (missing IDs lastID))
                EventUpdate) as HW.
  set (W := concat _) in *.
  destruct (omap fst (worker p <$> arrival choices (missing IDs lastID)))
    as [|c rest] eqn:Hcs.
  { unfold_trace. split; [intuition discriminate|].
    intros (IDs' & lastID' & [= <-] & [= <-] & _ & Hne & _).
    by rewrite Hcs in Hne. }
  destruct (db_Add p (c :: rest)) as [e3|] eqn:Hadd.
  { unfold_trace. split; [intuition discriminate|].
    intros (IDs' & lastID' & [= <-] & [= <-] & _ & _ & Hadd').
    rewrite Hcs in Hadd'. congruence. }
  split.
  - intros _. exists IDs, lastID. rewrite Hcs.
    split; [done|]. split; [done|]. split; [done|]. by split.
  - intros _. destruct (publisher_Publish p EventUpdate); unfold_trace; tauto.
Qed.

Lemma updateBody_nothing_new (choices : list nat) (p : Ports)
    (IDs : list Z) (lastID : Z) :
  db_IDs p = Ok IDs -> xkcd_LastID p = Ok lastID ->
  0 <= lastID <= runtime_MaxChan p ->
  produced choices p IDs lastID = [] ->
  (updateBody choices p).2 = Returned None
  /\ (forall comics, CallAdd comics ∉ (updateBody choices p).1)
  /\ (forall ev, CallPublish ev ∉ (updateBody choices p).1).
Proof.
  intros HIDs Hlast Hpos Hnone. unfold updateBody, ingest.
  rewrite HIDs, Hlast. unfold produced in Hnone. rewrite Hnone.
  rewrite makechan_in_range by done.
  split; [done|]. split.
  - intros comics.
    pose proof (workers_no_Add p (arrival choices (missing IDs lastID))
                  comics).
    unfold_trace. intuition discriminate.
  - intros ev.
    pose proof (workers_no_Publish p (arrival choices (missing IDs lastID))
                  ev).
    unfold_trace. intuition discriminate.
Qed.

Lemma updateBody_published (choices : list nat) (p : Ports) :
  CallPublish EventUpdate ∈ (updateBody choices p).1 ->
  (updateBody choices p).2 = Returned None
  /\ (forall e, publisher_Publish p EventUpdate = Some e ->
                Log Error "failed to publish" ∈ (updateBody choices p).1).
Proof.
  intros (IDs & lastID & HIDs & Hlast & Hpos & Hsome & Hadd)%updateBody_publish.
  unfold updateBody. rewrite HIDs, Hlast. cbn [emit snd fst].
  rewrite ingest_outcome by done.
  unfold ingest. unfold produced in *.
  rewrite makechan_in_range by done.
  destruct (omap fst (worker p <$> arrival choices (missing IDs lastID)))
    as [|c rest]; [done|].
  rewrite Hadd. split; [done|]. intros e ->. unfold_trace. tauto.
Qed.

End Publish.

(** C8.  [Update] publishes the update event exactly when it was
    accepted, read the stored ids and a last id for which the runtime
    makes the channels, collected at least one entry from the workers
    and inserted the batch.  With such a last id and no entry collected
    it returns [nil] and neither inserts nor publishes.  When it
    publishes it returns [nil], also when the broker fails, and then
    the failure is logged. *)
Theorem Update_publishes :
  (forall choices s,
     Update.CallPublish Update.EventUpdate ∈ (Update.Update choices s).1.1
     <-> Update.inProgress s = false
         /\ exists IDs lastID,
              Update.db_IDs (Update.ports s) = Ok IDs
              /\ Update.xkcd_LastID (Update.ports s) = Ok lastID
              /\ 0 <= lastID <= Update.runtime_MaxChan (Update.ports s)
              /\ Update.produced choices (Update.ports s) IDs lastID <> []
              /\ Update.db_Add (Update.ports s)
                   (Update.produced choices (Update.ports s) IDs lastID)
                 = None)
  /\ (forall choices s IDs lastID,
        Update.inProgress s = false ->
        Update.db_IDs (Update.ports s) = Ok IDs ->
        Update.xkcd_LastID (Update.ports s) = Ok lastID ->
        0 <= lastID <= Update.runtime_MaxChan (Update.ports s) ->
        Update.produced choices (Update.ports s) IDs lastID = [] ->
        (Update.Update choices s).1.2 = Update.Returned None
        /\ (forall comics,
              Update.CallAdd comics ∉ (Update.Update choices s).1.1)
        /\ (forall ev,
              Update.CallPublish ev ∉ (Update.Update choices s).1.1))
  /\ (forall choices s,
        Update.CallPublish Update.EventUpdate
          ∈ (Update.Update choices s).1.1 ->
        (Update.Update choices s).1.2 = Update.Returned None
        /\ (forall e,
              Update.publisher_Publish (Update.ports s) Update.EventUpdate
              = Some e ->
              Update.Log Update.Error "failed to publish"
                ∈ (Update.Update choices s).1.1)).
Proof.
  split; [|split].
  - intros choices s. destruct (Update.inProgress s) eqn:Hflag.
    + rewrite Update_busy by done. simpl. rewrite elem_of_nil.
      split; [done | by intros [? _]].
    + rewrite Update_idle by done. cbn [fst snd].
      rewrite elem_of_app, <- updateBody_publish. unfold_trace.
      intuition discriminate.
  - intros choices s IDs lastID Hidle HIDs Hlast Hpos Hnone.
    rewrite Update_idle by done. cbn [fst snd].
    destruct (updateBody_nothing_new choices (Update.ports s) IDs lastID)
      as (Hret & HnoAdd & HnoPub); [done..|].
    split; [done|]. split.
    + intros comics. specialize (HnoAdd comics). unfold_trace.
      intuition discriminate.
    + intros ev. specialize (HnoPub ev). unfold_trace.
      intuition discriminate.
  - intros choices s. destruct (Update.inProgress s) eqn:Hflag.
    + rewrite Update_busy by done. simpl. by intros ?%elem_of_nil.
    + rewrite Update_idle by done. cbn [fst snd]. rewrite elem_of_app.
      intros [Hpub|Hpub]; [|by apply list_elem_of_singleton in Hpub].
      destruct (updateBody_published choices (Update.ports s) Hpub)
        as [Hret Hlog].
      split; [done|]. intros e He. apply elem_of_app. left. eauto.
Qed.

Lemma Update_publishes_witness :
  Update.CallPublish Update.EventUpdate
    ∈ (Update.Update [] Update.s5Service).1.1
  /\ (Update.Update [] Update.s5Service).1.2 = Update.Returned None.
Proof.
  assert (Update.CallPublish Update.EventUpdate
            ∈ (Update.Update [] Update.s5Service).1.1) as Hpub.
  { apply (proj1 Update_publishes [] Update.s5Service).
    split; [reflexivity|]. exists [1; 2], 4.
    split_and!; [reflexivity | reflexivity | lia | simpl; lia
                | discriminate | reflexivity]. }
  split; [exact Hpub|].
  exact (proj1 (proj2 (proj2 Update_publishes) [] Update.s5Service Hpub)).
Defined.

(** Scenario S5: the two missing comics are fetched and inserted, the
    event is published once, and [Update] returns [nil]. *)
Example Update_s5 :
  Update.Update [] Update.s5Service
  = (([ Update.Log Update.Info "update started"; Update.CallIDs;
        Update.Log Update.Debug "existing comics in DB"; Update.CallLastID;
        Update.Log Update.Debug "last comics ID in XKCD";
        Update.CallGet 3; Update.CallNorm (runes " New  ");
        Update.CallGet 4; Update.CallNorm (runes " Newer  ");
        Update.CallAdd
          [ {| Update.ID := 3; Update.URL := [];
               Update.Words := [runes "new"; runes "comic"] |};
            {| Update.ID := 4; Update.URL := [];
               Update.Words := [runes "new"; runes "comic"] |} ];
        Update.Log Update.Debug "added new comics";
        Update.CallPublish Update.EventUpdate;
        Update.Log Update.Info "update finished" ],
      Update.Returned None),
     Update.s5Service).
Proof. by vm_compute. Qed.

(** ** The updater: the last id is not found *)

(** C9, as the code has it.  When the upstream answers 404 to the query
    for its last comic, an accepted [Update] that has read the stored ids
    returns the not-found error of the client, wrapped; this error is not
    the service-unavailable one and the gateway answers it with status
    500.  Nothing is inserted and nothing is published. *)
Theorem Update_last_id_not_found (choices : list nat) (s : Update.Service)
    (up : Update.upstream) (IDs : list Z)
    (decoded : result Update.XKCDInfo) :
  Update.inProgress s = false ->
  Update.db_IDs (Update.ports s) = Ok IDs ->
  up None = Update.Responded 404 decoded ->
  (Update.Update choices (Update.wired up s)).1.2
  = Update.Returned
      (Some (Wrapf "failed to get last comic from xkcd API"
               (Sentinel ErrNotFound)))
  /\ errorsIs (Wrapf "failed to get last comic from xkcd API"
                 (Sentinel ErrNotFound)) ErrNotFound = true
  /\ errorsIs (Wrapf "failed to get last comic from xkcd API"
                 (Sentinel ErrNotFound)) ErrServiceUnavailable = false
  /\ Update.httpStatus
       (Some (Wrapf "failed to get last comic from xkcd API"
                (Sentinel ErrNotFound))) = 500
  /\ (forall comics,
        Update.CallAdd comics
          ∉ (Update.Update choices (Update.wired up s)).1.1)
  /\ (forall ev,
        Update.CallPublish ev
          ∉ (Update.Update choices (Update.wired up s)).1.1).
Proof.
  intros Hidle HIDs Hup.
  rewrite Update_idle by done. cbn [fst snd].
  unfold Update.updateBody. cbn [Update.wired Update.ports Update.overUpstream
    Update.db_IDs Update.xkcd_LastID].
  rewrite HIDs. unfold Update.LastID, Update.readInfo. rewrite Hup.
  cbn [Z.eqb Pos.eqb negb errorsIs bool_decide decide_rel].
  split; [done|]. split; [done|]. split; [done|]. split; [done|].
  split; intros ?; unfold_trace; simpl; unfold_trace; intuition discriminate.
Qed.

Lemma Update_last_id_not_found_witness :
  (Update.Update [] (Update.wired Update.upstream404 Update.s5Service)).1.2
  = Update.Returned
      (Some (Wrapf "failed to get last comic from xkcd API"
               (Sentinel ErrNotFound))).
Proof.
  apply (Update_last_id_not_found [] Update.s5Service Update.upstream404
           [1; 2] (Err (Opaque "EOF"))); reflexivity.
Defined.

(** C9, as the specification states it, fails: the error that [Update]
    returns when the upstream has no last comic is not of the
    service-unavailable kind, and the gateway answers 500, not 503. *)
Lemma Update_last_id_not_found_is_internal :
  (Update.Update [] (Update.wired Update.upstream404 Update.s5Service)).1.2
  = Update.Returned
      (Some (Wrapf "failed to get last comic from xkcd API"
               (Sentinel ErrNotFound)))
  /\ errorsIs (Wrapf "failed to get last comic from xkcd API"
                 (Sentinel ErrNotFound)) ErrServiceUnavailable = false
  /\ Update.httpStatus
       (Some (Wrapf "failed to get last comic from xkcd API"
                (Sentinel ErrNotFound))) = 500.
Proof. repeat split; by vm_compute. Qed.

(** ** The rate limiter: a request cancelled while it waits *)

Section Cancellation.

Import Middleware.

(** A request that is cancelled while it sleeps leaves the limiter with
    the token taken: [wait] has stored [tokens - 1] before it sleeps and
    returns the error of the context without putting the token back. *)
Lemma wait_cancelled_asleep (rl : RateLimiter) (ctx : Context) (now : Time)
    (e : error) :
  doneAtEntry ctx = None ->
  deadline ctx = None ->
  PrimFloat.ltb (tokensAt rl now - 1)%float 0 = true ->
  0 < durationFromTokens (limit rl) (- (tokensAt rl now - 1))%float ->
  doneDuringSleep ctx = Some e ->
  wait rl ctx now
  = (withTokens (refill rl now) (tokensAt rl now - 1)%float, Some e).
Proof.
  intros Hentry Hdeadline Hneg Hdelay Hasleep. unfold wait.
  rewrite Hentry, Hdeadline. cbn [refill tokens limit]. rewrite Hneg.
  replace (_ <=? 0) with false by (symmetry; apply Z.leb_gt; lia).
  by rewrite Hasleep.
Qed.

End Cancellation.

(** C3, on the code.  A limiter of one request per second admits a first
    request at [t0].  A second request at [t0] sleeps for its token and
    is cancelled: it is answered 408, and the limiter is left at -1
    token, where a second request that had taken nothing would have left
    it at 0.  A third request one second later, with half a second to
    its deadline, is then refused with 408, although it is admitted when
    the cancelled request has taken no token. *)
Theorem wait_cancelled_keeps_token :
  Middleware.tokens Middleware.afterFirst = 0%float
  /\ Middleware.wait Middleware.afterFirst Middleware.cancelledAsleep
       Middleware.t0
     = (Middleware.afterCancelled, Some (Sentinel Canceled))
  /\ (Middleware.Limit Middleware.afterFirst Middleware.cancelledAsleep
        Middleware.t0 200).2 = 408
  /\ Middleware.tokens Middleware.afterCancelled = (-1)%float
  /\ (Middleware.Limit Middleware.afterCancelled
        (Middleware.withDeadline
           (Middleware.t0 + 3 * Middleware.Second / 2))
        (Middleware.t0 + Middleware.Second) 200).2 = 408
  /\ (Middleware.Limit Middleware.afterFirst
        (Middleware.withDeadline
           (Middleware.t0 + 3 * Middleware.Second / 2))
        (Middleware.t0 + Middleware.Second) 200).2 = 200.
Proof. repeat split; by vm_compute. Qed.

(** * Further properties *)

(** ** The index of the searcher *)

Section IndexFacts.

Import Search.

Lemma index_words (idx : gmap gostring (list Z)) (id : Z)
    (words : list gostring) (k : gostring) :
  default []
    (foldl (fun idx keyword =>
              <[keyword := default [] (idx !! keyword) ++ [id]]> idx)
       idx words !! k)
  = default [] (idx !! k)
    ++ ((fun _ => id) <$> filter (fun w => w = k) words).
Proof.
  revert idx. induction words as [|w words IH]; intros idx; simpl.
  - by rewrite app_nil_r.
  - rewrite IH, filter_cons. destruct (decide (w = k)) as [->|Hne].
    + rewrite lookup_insert_eq. simpl. by rewrite <- app_assoc.
    + by rewrite lookup_insert_ne.
Qed.

Lemma index_words_None (idx : gmap gostring (list Z)) (id : Z)
    (words : list gostring) (k : gostring) :
  foldl (fun idx keyword =>
           <[keyword := default [] (idx !! keyword) ++ [id]]> idx)
    idx words !! k = None
  <-> idx !! k = None /\ k ∉ words.
Proof.
  revert idx. induction words as [|w words IH]; intros idx; simpl.
  - rewrite elem_of_nil. tauto.
  - rewrite IH, not_elem_of_cons. destruct (decide (w = k)) as [->|Hne].
    + rewrite lookup_insert_eq. split; [by intros [? _] | by intros [_ [? _]]].
    + rewrite lookup_insert_ne by done. split; [intros [? ?] | tauto].
      split; [done|]. split; [congruence | done].
Qed.

Lemma index_catalog (idx : gmap gostring (list Z))
    (catalog : list ComicInfo) (k : gostring) :
  default []
    (foldl (fun idx c =>
              foldl (fun idx keyword =>
                       <[keyword := default [] (idx !! keyword)
                                    ++ [ID (comic c)]]> idx)
                idx (Words c))
       idx catalog !! k)
  = default [] (idx !! k) ++ postingOf catalog k.
Proof.
  revert idx. induction catalog as [|c catalog IH]; intros idx.
  - simpl. by rewrite app_nil_r.
  - cbn [foldl]. rewrite IH, index_words. unfold postingOf.
    by rewrite bind_cons, <- app_assoc.
Qed.

Lemma index_catalog_None (idx : gmap gostring (list Z))
    (catalog : list ComicInfo) (k : gostring) :
  foldl (fun idx c =>
           foldl (fun idx keyword =>
                    <[keyword := default [] (idx !! keyword)
                                 ++ [ID (comic c)]]> idx)
             idx (Words c))
    idx catalog !! k = None
  <-> idx !! k = None /\ forall c, c ∈ catalog -> k ∉ Words c.
Proof.
  revert idx. induction catalog as [|c catalog IH]; intros idx.
  - simpl. split; [intros ?; split; [done|] | tauto].
    intros c ?%elem_of_nil. done.
  - cbn [foldl]. rewrite IH, index_words_None. split.
    + intros [[? ?] Hrest]. split; [done|].
      intros c' [->|?]%elem_of_cons; auto.
    + intros [? Hall]. split; [split; [done|] |].
      * apply Hall. left.
      * intros c' ?. apply Hall. by right.
Qed.

Lemma elem_of_postingOf (catalog : list ComicInfo) (k : gostring) (id : Z) :
  id ∈ postingOf catalog k
  <-> exists c, c ∈ catalog /\ ID (comic c) = id /\ k ∈ Words c.
Proof.
  unfold postingOf. rewrite list_elem_of_bind. split.
  - intros (c & (w & -> & [-> Hw]%list_elem_of_filter)%list_elem_of_fmap & Hc).
    eauto.
  - intros (c & Hc & <- & Hk). exists c. split; [|done].
    apply list_elem_of_fmap. exists k. split; [done|].
    by apply list_elem_of_filter.
Qed.

End IndexFacts.

(** X1.  After a rebuild, the posting list of a keyword holds the id of
    each entry of the catalog once for each occurrence of the keyword
    among its words, in the order of the catalog; so an id is on the list
    exactly when an entry with this id has the keyword, and the keyword
    has no list exactly when no entry has it. *)
Theorem buildIndex_postings (catalog : list Search.ComicInfo)
    (keyword : gostring) :
  default [] (Search.buildIndex catalog !! keyword)
  = Search.postingOf catalog keyword
  /\ (forall id,
        id ∈ default [] (Search.buildIndex catalog !! keyword)
        <-> exists c, c ∈ catalog /\ Search.ID (Search.comic c) = id
                      /\ keyword ∈ Search.Words c)
  /\ (Search.buildIndex catalog !! keyword = None
      <-> forall c, c ∈ catalog -> keyword ∉ Search.Words c).
Proof.
  assert (default [] (Search.buildIndex catalog !! keyword)
          = Search.postingOf catalog keyword) as Hpost.
  { unfold Search.buildIndex. rewrite index_catalog.
    by rewrite lookup_empty. }
  split; [done|]. split.
  - intros id. rewrite Hpost. apply elem_of_postingOf.
  - unfold Search.buildIndex. rewrite index_catalog_None, lookup_empty.
    tauto.
Qed.

(** X2.  An event never changes the ports of the service.  It fails only
    when it is an update event and the catalog cannot be read, and then
    the index is left as it was, not cleared.  An event that is neither
    an update nor a reset changes nothing. *)
Theorem HandleEvent_keeps_index (s : Search.Service) (eventType : string) :
  Search.ports (Search.HandleEvent s eventType).1 = Search.ports s
  /\ (forall err,
        (Search.HandleEvent s eventType).2 = Some err ->
        eventType = Search.EventUpdate
        /\ (Search.HandleEvent s eventType).1 = s
        /\ exists e,
             Search.db_GetAllComicsInfo (Search.ports s) = Err e
             /\ err = Wrapf "failed to update index"
                        (Wrapf "failed to get all comics info" e))
  /\ (eventType <> Search.EventUpdate ->
      eventType <> Search.EventReset ->
      Search.HandleEvent s eventType = (s, None)).
Proof.
  unfold Search.HandleEvent, Search.UpdateIndex.
  destruct (String.eqb_spec eventType Search.EventUpdate) as [->|Hupdate].
  - destruct (Search.db_GetAllComicsInfo (Search.ports s)) as [catalog|e];
      simpl; (split; [done|]); (split; [|done]).
    + by intros err.
    + intros err [= <-]. eauto.
  - destruct (String.eqb_spec eventType Search.EventReset) as [->|Hreset];
      simpl; (split; [done|]); (split; [by intros err|]); done.
Qed.

Section AfterEvents.

Import Search.

Lemma postings_empty (keywords : list gostring) : postings ∅ keywords = [].
Proof.
  unfold postings. induction keywords as [|k keywords IH]; [done|].
  simpl. by rewrite lookup_empty.
Qed.

Lemma collectHits_empty (keywords : list gostring) :
  collectHits ∅ keywords = (∅, []).
Proof.
  unfold collectHits. by rewrite collectHits_foldl, postings_empty.
Qed.

Lemma GetComicsByIds_nil (t : table) : GetComicsByIds t None [] = Ok [].
Proof.
  unfold GetComicsByIds. f_equal.
  induction (map_to_list t) as [|row rows IH]; [done|].
  rewrite filter_cons. rewrite decide_False by apply not_elem_of_nil.
  exact IH.
Qed.

Lemma scoreLess_sorted (scores : gmap Z Z) (rows : list Comic) :
  StronglySorted (fun a b => scoreOf scores b <= scoreOf scores a)
    (sortSlice (scoreLess scores) rows).
Proof.
  apply (StronglySorted_impl_on (fun _ => True)
           (fun a b => scoreLess scores b a = false)).
  - intros a b _ _. unfold scoreLess, scoreOf. intros ?%Z.ltb_ge. lia.
  - by apply Forall_true.
  - apply (sortSlice_sorted _ (fun _ => True)).
    + intros a b _ _. unfold scoreLess. rewrite Z.ltb_lt, Z.ltb_ge. lia.
    + intros a b c _ _ _. unfold scoreLess. rewrite !Z.ltb_ge. lia.
    + by apply Forall_true.
Qed.

End AfterEvents.

(** X3.  After a reset event [ISearch] asks the store for no id,
    whatever the table holds: for a non-empty phrase that the words
    service normalizes and a positive limit, it returns the empty list
    when the store answers, and the error of the store, wrapped by the
    adapter and by the service, when it does not. *)
Theorem ISearch_after_reset
    (norm : gostring -> result (list gostring)) (t : Search.table)
    (f : Search.faults) (idx : gmap gostring (list Z)) (phrase : gostring)
    (limit : Z) (keywords : list gostring) :
  phrase <> [] ->
  0 < limit ->
  norm phrase = Ok keywords ->
  Search.ISearch
    (Search.HandleEvent (Search.overTable norm t f idx) Search.EventReset).1
    phrase limit
  = match Search.onGetByIds f with
    | None => Ok []
    | Some e =>
        Err (Wrapf "failed to get comics by comics ids"
               (Wrapf "failed to select comics by ids from comics table" e))
    end.
Proof.
  intros Hphrase Hlimit Hnorm.
  assert ((Search.HandleEvent (Search.overTable norm t f idx)
             Search.EventReset).1
          = Search.overTable norm t f ∅) as -> by reflexivity.
  destruct (Search.onGetByIds f) as [e|] eqn:Hfault.
  - apply (ISearch_store_error _ phrase limit keywords); [done..|].
    cbn [Search.overTable Search.ports Search.db_GetComicsByIds].
    by rewrite Hfault.
  - destruct (ISearch_rows (Search.overTable norm t f ∅)
                phrase limit keywords [] Hphrase Hlimit Hnorm)
      as (sorted & -> & Hperm).
    + cbn [Search.overTable Search.ports Search.db_GetComicsByIds
           Search.index].
      rewrite Hfault, collectHits_empty. apply GetComicsByIds_nil.
    + apply Permutation_nil_r in Hperm as ->. by rewrite take_nil.
Qed.

Lemma ISearch_after_reset_witness :
  Search.ISearch
    (Search.HandleEvent
       (Search.overTable (fun p => Ok (WordsNorm asciiTables p))
          Search.s4Table Search.noFaults Search.s4Index)
       Search.EventReset).1
    (runes "test phrase is unknown") 10
  = Ok [].
Proof.
  apply (ISearch_after_reset (fun p => Ok (WordsNorm asciiTables p))
           Search.s4Table Search.noFaults Search.s4Index
           (runes "test phrase is unknown") 10
           (WordsNorm asciiTables (runes "test phrase is unknown")));
    [discriminate | lia | reflexivity].
Defined.

(** X4.  For a non-empty phrase and a positive limit, when the words
    service and the store answer, [ISearch] returns at most [limit]
    comics, all among the rows of the store, in an order in which the
    number of hits never increases. *)
Theorem ISearch_sorted_by_score (s : Search.Service) (phrase : gostring)
    (limit : Z) (keywords : list gostring) (rows : list Search.Comic) :
  phrase <> [] ->
  0 < limit ->
  Search.words_Norm (Search.ports s) phrase = Ok keywords ->
  Search.db_GetComicsByIds (Search.ports s)
    (Search.collectHits (Search.index s) keywords).2 = Ok rows ->
  exists found : list Search.Comic,
    Search.ISearch s phrase limit = Ok found
    /\ Z.of_nat (length found) <= limit
    /\ found ⊆ rows
    /\ (Z.of_nat (length rows) <= limit -> found ≡ₚ rows)
    /\ StronglySorted
         (fun a b =>
            Search.scoreOf (Search.collectHits (Search.index s) keywords).1 b
            <= Search.scoreOf
                 (Search.collectHits (Search.index s) keywords).1 a)
         found.
Proof.
  intros Hphrase Hlimit Hnorm Hrows.
  unfold Search.ISearch. rewrite bool_decide_false by done.
  replace (limit <=? 0) with false by (symmetry; apply Z.leb_gt; lia).
  cbn [orb]. rewrite Hnorm.
  destruct (Search.collectHits (Search.index s) keywords)
    as [scores uniqueIDs].
  cbn [fst snd] in *. rewrite Hrows. rewrite take_min_length.
  set (sorted := sortSlice (Search.scoreLess scores) rows).
  assert (sorted ≡ₚ rows) as Hperm by apply sortSlice_perm.
  exists (take (Z.to_nat limit) sorted). split; [done|]. split; [|split; [|split]].
  - rewrite length_take. lia.
  - intros c Hc. rewrite <- Hperm.
    apply (elem_of_sublist _ _ _ Hc (sublist_take _ _)).
  - intros Hall. rewrite take_ge; [done|]. rewrite Hperm. lia.
  - pose proof (scoreLess_sorted scores rows) as Hsorted. fold sorted in Hsorted.
    rewrite <- (take_drop (Z.to_nat limit) sorted) in Hsorted.
    by apply StronglySorted_app_1_l in Hsorted.
Qed.

Lemma ISearch_sorted_by_score_witness :
  exists found : list Search.Comic,
    Search.ISearch
      (Search.overTable (fun p => Ok (WordsNorm asciiTables p))
         Search.s4Table Search.noFaults Search.s4Index)
      (runes "test phrase is unknown") 2
    = Ok found
    /\ Z.of_nat (length found) <= 2.
Proof.
  destruct (ISearch_sorted_by_score
              (Search.overTable (fun p => Ok (WordsNorm asciiTables p))
                 Search.s4Table Search.noFaults Search.s4Index)
              (runes "test phrase is unknown") 2
              (WordsNorm asciiTables (runes "test phrase is unknown"))
              (match Search.GetComicsByIds Search.s4Table None
                       (Search.collectHits Search.s4Index
                          (WordsNorm asciiTables
                             (runes "test phrase is unknown"))).2 with
               | Ok rows => rows
               | Err _ => []
               end))
    as (found & Hfound & Hlen & _).
  - discriminate.
  - lia.
  - reflexivity.
  - reflexivity.
  - exists found. by split.
Defined.

Section BothRankers.

Import Search.

Lemma buildIndex_lookup (catalog : list ComicInfo) (k : gostring) :
  default [] (buildIndex catalog !! k) = postingOf catalog k.
Proof.
  unfold buildIndex. rewrite index_catalog. by rewrite lookup_empty.
Qed.

Lemma elem_of_postings (idx : gmap gostring (list Z))
    (keywords : list gostring) (id : Z) :
  id ∈ postings idx keywords
  <-> exists k, k ∈ keywords /\ id ∈ default [] (idx !! k).
Proof.
  unfold postings. induction keywords as [|k keywords IH]; simpl.
  - rewrite elem_of_nil. split; [done|]. by intros (k & ?%elem_of_nil & _).
  - rewrite elem_of_app, IH. split.
    + intros [Hid|(k' & Hk' & Hid)]; [exists k | exists k'];
        (split; [|done]); [left | by right].
    + intros (k' & [->|Hk']%elem_of_cons & Hid); [by left | right; eauto].
Qed.

Lemma filter_ext_in {A} (P Q : A -> Prop) `{!forall x, Decision (P x)}
    `{!forall x, Decision (Q x)} (l : list A) :
  (forall x, x ∈ l -> P x <-> Q x) -> filter P l = filter Q l.
Proof.
  induction l as [|x l IH]; intros Hext; [done|].
  rewrite !filter_cons. rewrite IH by (intros y ?; apply Hext; by right).
  pose proof (Hext x (list_elem_of_here _ _)) as Hx.
  destruct (decide (P x)) as [HP|HP], (decide (Q x)) as [HQ|HQ];
    [done | tauto | tauto | done].
Qed.

Lemma filter_fmap_list {A B} (f : A -> B) (P : B -> Prop)
    `{!forall y, Decision (P y)} (l : list A) :
  filter P (f <$> l) = f <$> filter (P ∘ f) l.
Proof.
  induction l as [|x l IH]; [done|].
  rewrite fmap_cons, !filter_cons, IH. simpl.
  by destruct (decide (P (f x))).
Qed.

(** The entries of the store that share a keyword are the rows whose id
    the rebuilt index lists under a keyword. *)
Lemma rows_hit_iff_share (t : table) (keywords : list gostring) :
  comic <$> filter (sharesKeyword keywords)
              (match GetAllComicsInfo t None with Ok c => c | Err _ => [] end)
  = (fun row => {| ID := row.1; URL := row.2.1 |})
      <$> filter
            (fun row : Z * (gostring * list gostring) =>
               row.1 ∈ (collectHits
                          (buildIndex
                             (match GetAllComicsInfo t None with
                              | Ok c => c
                              | Err _ => []
                              end))
                          keywords).2)
            (map_to_list t).
Proof.
  unfold GetAllComicsInfo.
  set (info := fun row : Z * (gostring * list gostring) =>
                 {| comic := {| ID := row.1; URL := row.2.1 |};
                    Words := row.2.2 |}).
  rewrite filter_fmap_list, <- list_fmap_compose.
  rewrite (filter_ext_in (sharesKeyword keywords ∘ info)
             (fun row => row.1 ∈ (collectHits
                                    (buildIndex (info <$> map_to_list t))
                                    keywords).2)); [done|].
  intros [id [url words]] Hrow.
  rewrite (hits_unique _ _ (collectHits_inv _ keywords)).
  rewrite elem_of_postings. unfold compose, sharesKeyword.
  rewrite Exists_exists. simpl. split.
  - intros (w & Hw & Hk). exists w. split; [done|].
    rewrite buildIndex_lookup. apply elem_of_postingOf.
    exists (info (id, (url, words))). split; [|done].
    apply list_elem_of_fmap. eauto.
  - intros (k & Hk & Hid). exists k. split; [|done].
    rewrite buildIndex_lookup in Hid.
    apply elem_of_postingOf in Hid
      as (c & ([id' [url' words']] & -> & Hrow')%list_elem_of_fmap
          & Hid & Hwords).
    simpl in Hid, Hwords. subst id'.
    apply elem_of_map_to_list in Hrow, Hrow'.
    rewrite Hrow in Hrow'. by injection Hrow' as _ ->.
Qed.

End BothRankers.

(** X5.  When the store answers its queries: after an update event
    has rebuilt the index from the table, and for a limit that is not
    below the number of rows, [Search] and [ISearch] return the same
    comics for every phrase, up to their order: the rows of which a word
    is a keyword of the phrase. *)
Theorem Search_ISearch_same_comics
    (norm : gostring -> result (list gostring))
    (t : gmap Z (gostring * list gostring)) (f : Search.faults)
    (idx : gmap gostring (list Z)) (phrase : gostring) (limit : Z)
    (keywords : list gostring) :
  Search.onGetAll f = None ->
  Search.onGetByIds f = None ->
  phrase <> [] ->
  Z.of_nat (size t) <= limit ->
  0 < limit ->
  norm phrase = Ok keywords ->
  (forall (id : Z) (row : gostring * list gostring),
     t !! id = Some row -> Z.of_nat (length row.2) < 2 ^ 31) ->
  exists ranked found : list Search.Comic,
    Search.Search
      (Search.HandleEvent (Search.overTable norm t f idx)
         Search.EventUpdate).1
      phrase limit = Ok ranked
    /\ Search.ISearch
         (Search.HandleEvent (Search.overTable norm t f idx)
            Search.EventUpdate).1
         phrase limit = Ok found
    /\ ranked ≡ₚ found
    /\ forall c, c ∈ found
         <-> exists words, t !! Search.ID c = Some (Search.URL c, words)
                           /\ exists w, w ∈ words /\ w ∈ keywords.
Proof.
  destruct f as [onAll onByIds]. simpl. intros -> ->.
  intros Hphrase Hsize Hlimit Hnorm Hwords.
  set (catalog := match Search.GetAllComicsInfo t None with
                  | Ok c => c
                  | Err _ => []
                  end).
  assert ((Search.HandleEvent
             (Search.overTable norm t
                {| Search.onGetAll := None; Search.onGetByIds := None |} idx)
             Search.EventUpdate).1
          = Search.overTable norm t Search.noFaults
              (Search.buildIndex catalog)) as ->
    by reflexivity.
  assert (length catalog = size t) as Hcatalog.
  { unfold catalog, Search.GetAllComicsInfo. cbv beta iota.
    rewrite length_fmap. exact (length_map_to_list t). }
  destruct (Search_ranked
              (Search.overTable norm t Search.noFaults
                 (Search.buildIndex catalog))
              phrase limit keywords catalog Hphrase Hlimit Hnorm
              eq_refl)
    as (ranks & Hsearch & Hranks & _).
  { unfold catalog, Search.GetAllComicsInfo. cbv beta iota.
    apply Forall_fmap, Forall_forall.
    intros [id row] Hrow%elem_of_map_to_list. simpl. by apply (Hwords id). }
  destruct (ISearch_rows
              (Search.overTable norm t Search.noFaults
                 (Search.buildIndex catalog))
              phrase limit keywords
              ((fun row => {| Search.ID := row.1; Search.URL := row.2.1 |})
                 <$> filter
                       (fun row : Z * (gostring * list gostring) =>
                          row.1 ∈ (Search.collectHits
                                     (Search.buildIndex catalog) keywords).2)
                       (map_to_list (t : Search.table)))
              Hphrase Hlimit Hnorm eq_refl)
    as (sorted & Hisearch & Hsorted).
  pose proof (rows_hit_iff_share t keywords) as Hsame. fold catalog in Hsame.
  assert (sorted
          ≡ₚ Search.comic <$> filter (Search.sharesKeyword keywords) catalog)
    as Hmatching by (rewrite Hsame; exact Hsorted).
  clear Hsorted Hsame. rename Hmatching into Hsorted.
  assert (length (filter (Search.sharesKeyword keywords) catalog)
          <= length catalog)%nat as Hfew by apply length_filter.
  exists (Search.rankComic <$> take (Z.to_nat limit) ranks),
         (take (Z.to_nat limit) sorted).
  split; [done|]. split; [done|].
  rewrite !take_ge.
  2:{ rewrite Hsorted, length_fmap. lia. }
  2:{ rewrite Hranks, length_fmap. lia. }
  split.
  - rewrite Hranks, Hsorted, <- list_fmap_compose. done.
  - intros c. rewrite Hsorted. unfold catalog, Search.GetAllComicsInfo.
    cbv beta iota.
    rewrite list_elem_of_fmap. split.
    + intros (info & -> & [Hshares Hinfo]%list_elem_of_filter).
      apply list_elem_of_fmap in Hinfo
        as ([id [url words]] & -> & Hrow%elem_of_map_to_list).
      simpl. exists words. split; [done|].
      by apply Exists_exists in Hshares.
    + intros (words & Hrow & Hw).
      exists {| Search.comic := c; Search.Words := words |}.
      split; [done|]. apply list_elem_of_filter. split.
      * by apply Exists_exists.
      * apply list_elem_of_fmap.
        exists (Search.ID c, (Search.URL c, words)).
        split; [by destruct c|]. by apply elem_of_map_to_list.
Qed.

Lemma Search_ISearch_same_comics_witness :
  exists ranked found : list Search.Comic,
    Search.Search
      (Search.HandleEvent
         (Search.overTable (fun p => Ok (WordsNorm asciiTables p))
            Search.s4Table Search.noFaults ∅)
         Search.EventUpdate).1
      (runes "test phrase is unknown") 10 = Ok ranked
    /\ Search.ISearch
         (Search.HandleEvent
            (Search.overTable (fun p => Ok (WordsNorm asciiTables p))
               Search.s4Table Search.noFaults ∅)
            Search.EventUpdate).1
         (runes "test phrase is unknown") 10 = Ok found
    /\ ranked ≡ₚ found.
Proof.
  destruct (Search_ISearch_same_comics
              (fun p => Ok (WordsNorm asciiTables p)) Search.s4Table
              Search.noFaults ∅
              (runes "test phrase is unknown") 10
              (WordsNorm asciiTables (runes "test phrase is unknown")))
    as (ranked & found & Hranked & Hfound & Hperm & _).
  - reflexivity.
  - reflexivity.
  - discriminate.
  - by vm_compute.
  - lia.
  - reflexivity.
  - intros id row Hrow%elem_of_list_to_map_2.
    apply (proj1 (Forall_forall
                    (fun r : Z * (gostring * list gostring) =>
                       Z.of_nat (length r.2.2) < 2 ^ 31) _)) in Hrow;
      [exact Hrow|].
    repeat (apply List.Forall_cons; [by vm_compute|]).
    apply List.Forall_nil.
  - exists ranked, found. exact (conj Hranked (conj Hfound Hperm)).
Defined.

(** ** The updater: [Drop], the status and the gateway *)

(** X6.  [Drop] calls the store exactly when it is accepted, publishes
    the reset event exactly when it is accepted and the store has
    dropped its rows, and publishes no other event.  It returns [nil]
    exactly then, also when the broker refuses the event.  The flag and
    the ports are left as they were found. *)
Theorem Drop_publishes_reset (s : Update.Service) :
  (Update.CallDrop ∈ (Update.Drop s).1.1 <-> Update.inProgress s = false)
  /\ (Update.CallPublish Update.EventReset ∈ (Update.Drop s).1.1
      <-> Update.inProgress s = false
          /\ Update.db_Drop (Update.ports s) = None)
  /\ ((Update.Drop s).1.2 = Update.Returned None
      <-> Update.inProgress s = false
          /\ Update.db_Drop (Update.ports s) = None)
  /\ (forall ev, Update.CallPublish ev ∈ (Update.Drop s).1.1 ->
                 ev = Update.EventReset)
  /\ Update.inProgress (Update.Drop s).2 = Update.inProgress s
  /\ Update.ports (Update.Drop s).2 = Update.ports s.
Proof.
  unfold Update.Drop. destruct (Update.inProgress s) eqn:Hflag.
  - rewrite CompareAndSwap_busy by done. cbn [fst snd Update.ret].
    split_and!; try done.
    + rewrite elem_of_nil. by split.
    + rewrite elem_of_nil. split; [done | by intros [? _]].
    + split; [done | by intros [? _]].
    + by intros ev ?%elem_of_nil.
  - rewrite CompareAndSwap_idle by done. cbn [fst snd].
    unfold Update.dropBody. cbn [Update.ports Update.withInProgress].
    destruct (Update.db_Drop (Update.ports s)) as [e|];
      [|destruct (Update.publisher_Publish (Update.ports s)
                    Update.EventReset)];
      unfold_trace; (split_and!; try done);
      try (split; [intuition discriminate | by intros [_ ?]]);
      try (split; [by intros _ | tauto]);
      intros ev; unfold_trace; intuition congruence.
Qed.

(** X7.  In every state that calls of [Update] and [Drop] can reach,
    the status that the gateway reads is running exactly when a call is
    between its entry and its end, idle exactly when none is, and never
    unknown. *)
Theorem Status_running_iff_inflight (s : Update.Service)
    (σ : Update.system) :
  Update.reachable s σ ->
  (Update.apiStatus (Update.grpcStatus (Update.Status (Update.service σ)))
   = Update.StatusUpdateRunning
   <-> Update.inflight σ <> [])
  /\ (Update.apiStatus (Update.grpcStatus (Update.Status (Update.service σ)))
      = Update.StatusUpdateIdle
      <-> Update.inflight σ = [])
  /\ Update.apiStatus (Update.grpcStatus (Update.Status (Update.service σ)))
     <> Update.StatusUpdateUnknown.
Proof.
  intros [[Hnone Hidle]|(call & Hone & Hbusy)]%reachable_inv;
    unfold Update.Status; rewrite ?Hidle, ?Hbusy, ?Hnone, ?Hone; simpl;
    repeat split; try done.
Qed.

Lemma Status_running_iff_inflight_witness :
  Update.apiStatus
    (Update.grpcStatus
       (Update.Status
          (Update.service
             (Update.enter 0 Update.OpUpdate
                (Update.initial Update.s5Service)).2)))
  = Update.StatusUpdateRunning
  <-> Update.inflight
        (Update.enter 0 Update.OpUpdate (Update.initial Update.s5Service)).2
      <> [].
Proof.
  apply (Status_running_iff_inflight Update.s5Service).
  eapply Update.reachable_step;
    [apply Update.reachable_initial | apply Update.step_enter].
Defined.

(** X8.  Whatever error [Update] returns, the gateway answers 200, 202 or
    500 and never 503; it answers 200 exactly for [nil], and 202 to a
    call that found another one in progress. *)
Theorem Update_http_status (choices : list nat) (s : Update.Service)
    (err : option error) :
  (Update.Update choices s).1.2 = Update.Returned err ->
  (Update.httpStatus err = 200 \/ Update.httpStatus err = 202
   \/ Update.httpStatus err = 500)
  /\ (Update.httpStatus err = 200 <-> err = None)
  /\ (Update.httpStatus err = 202
      <-> exists e, err = Some e /\ errorsIs e ErrAlreadyExists = true)
  /\ (Update.inProgress s = true -> Update.httpStatus err = 202).
Proof.
  intros Hreturned.
  assert (Update.inProgress s = true -> Update.httpStatus err = 202) as Hbusy.
  { intros Hflag. rewrite Update_busy in Hreturned by done.
    by injection Hreturned as <-. }
  unfold Update.httpStatus, Update.grpcUpdate in *.
  destruct err as [e|]; simpl.
  - destruct (errorsIs e ErrAlreadyExists) eqn:His; simpl.
    + repeat split; try done; try tauto; eauto.
    + repeat split; try done; try tauto.
      intros (e' & [= <-] & ?). congruence.
  - repeat split; try done; try tauto. by intros (e' & ? & _).
Qed.

Lemma Update_http_status_witness :
  Update.httpStatus
    (Some (Sentinel ErrAlreadyExists)) = 202.
Proof.
  apply (Update_http_status []
           (Update.withInProgress Update.s5Service true)
           (Some (Sentinel ErrAlreadyExists)));
    reflexivity.
Defined.

(** X9.  [Drop] always returns.  The gateway answers 200 for [nil] and
    500 for every error of [Drop]: a call that found another one in
    progress is answered 500, not 202 as for [Update], because the gRPC
    server sends every error of [Drop] as Internal. *)
Theorem Drop_http_status (s : Update.Service) :
  exists err,
    (Update.Drop s).1.2 = Update.Returned err
    /\ (Update.dropStatus err = 200 <-> err = None)
    /\ (Update.dropStatus err = 500 <-> err <> None)
    /\ (Update.inProgress s = true ->
        err = Some (Sentinel ErrAlreadyExists)
        /\ Update.dropStatus err = 500
        /\ Update.httpStatus err = 202).
Proof.
  unfold Update.Drop. destruct (Update.inProgress s) eqn:Hflag.
  - rewrite CompareAndSwap_busy by done.
    exists (Some (Sentinel ErrAlreadyExists)). by repeat split.
  - rewrite CompareAndSwap_idle by done. unfold Update.dropBody.
    cbn [Update.ports Update.withInProgress fst snd].
    destruct (Update.db_Drop (Update.ports s)) as [e|].
    + eexists. split; [reflexivity|]. by repeat split.
    + exists None.
      destruct (Update.publisher_Publish (Update.ports s) Update.EventReset);
        by repeat split.
Qed.

(** ** The updater: what [Update] fetches and stores *)

Section Fetches.

Import Update.

Lemma getsOf_app (a b : list effect) : getsOf (a ++ b) = getsOf a ++ getsOf b.
Proof. apply omap_app. Qed.

Lemma getsOf_worker (p : Ports) (id : Z) :
  getsOf (worker p id).2 = if id =? 404 then [] else [id].
Proof.
  unfold worker. destruct (id =? 404); [done|].
  destruct (xkcd_Get p id) as [info|e]; [|by destruct (errorsIs e ErrNotFound)].
  by destruct (words_Norm p (makeDescription info)).
Qed.

Lemma getsOf_workers (p : Ports) (ids : list Z) :
  getsOf (concat (snd <$> (worker p <$> ids)))
  = filter (fun id => id <> 404) ids.
Proof.
  induction ids as [|id ids IH]; [done|].
  cbn [fmap list_fmap concat]. rewrite getsOf_app, IH, getsOf_worker.
  rewrite filter_cons. destruct (Z.eqb_spec id 404) as [->|Hne].
  - by rewrite decide_False by (by intros ?).
  - by rewrite decide_True.
Qed.

Lemma arrival_nil (choices : list nat) : arrival choices [] = [].
Proof. by destruct choices. Qed.

Lemma makeExists_lookup (IDs : list Z) (id : Z) :
  default false (makeExists IDs !! id) = bool_decide (id ∈ IDs).
Proof.
  unfold makeExists.
  assert (forall m : gmap Z bool,
            default false (foldl (fun m id => <[id := true]> m) m IDs !! id)
            = bool_decide (id ∈ IDs) || default false (m !! id)) as Hgen.
  { induction IDs as [|x IDs IH]; intros m; cbn [foldl].
    - by rewrite bool_decide_false by apply not_elem_of_nil.
    - rewrite IH. destruct (decide (x = id)) as [->|Hne].
      + rewrite lookup_insert_eq. cbn [default].
        rewrite (bool_decide_true (id ∈ id :: IDs)) by left.
        by rewrite orb_true_r.
      + rewrite lookup_insert_ne by done.
        f_equal. apply bool_decide_ext. rewrite elem_of_cons.
        split; [tauto | intros [?|?]; [congruence | done]]. }
  rewrite Hgen, lookup_empty. simpl. by rewrite orb_false_r.
Qed.

Lemma elem_of_missing (IDs : list Z) (lastID id : Z) :
  id ∈ missing IDs lastID <-> 1 <= id <= lastID /\ id ∉ IDs.
Proof.
  unfold missing. rewrite list_elem_of_filter, makeExists_lookup.
  rewrite elem_of_seqZ, bool_decide_eq_false. split; [|intros [? ?]; split; [done|lia]].
  intros [? ?]. split; [lia | done].
Qed.

Lemma NoDup_missing (IDs : list Z) (lastID : Z) : NoDup (missing IDs lastID).
Proof. unfold missing. apply NoDup_filter, NoDup_seqZ. Qed.

Lemma getsOf_ingest (choices : list nat) (p : Ports) (IDs : list Z)
    (lastID : Z) :
  lastID <= runtime_MaxChan p ->
  getsOf (ingest choices p IDs lastID).1
  = filter (fun id => id <> 404) (arrival choices (missing IDs lastID)).
Proof.
  intros Hmax. unfold ingest. destruct (Z.ltb_spec lastID 0) as [Hneg|Hpos].
  - unfold missing, seqZ. replace (Z.to_nat lastID) with O by lia.
    simpl. by rewrite filter_nil, arrival_nil.
  - replace (runtime_MaxChan p <? lastID) with false
      by (symmetry; apply Z.ltb_ge; lia).
    cbn [orb emit fst]. rewrite getsOf_app, getsOf_workers.
    destruct (omap fst (worker p <$> arrival choices (missing IDs lastID)))
      as [|c comics]; [by rewrite app_nil_r|].
    destruct (db_Add p (c :: comics)); [by rewrite app_nil_r|].
    destruct (publisher_Publish p EventUpdate); by rewrite app_nil_r.
Qed.

(** When the upstream answers with the number it was asked for, the ids
    of the entries collected are, in order, among the ids received. *)
Lemma workers_ids (p : Ports) (ids : list Z) :
  (forall id info, xkcd_Get p id = Ok info -> infoID info = id) ->
  ID <$> omap fst (worker p <$> ids) `sublist_of` ids.
Proof.
  intros Hnum. induction ids as [|id ids IH]; [done|].
  rewrite fmap_cons. cbn [omap list_omap].
  assert ((worker p id).1 = None
          \/ exists c, (worker p id).1 = Some c /\ ID c = id) as [->|(c & -> & <-)].
  { unfold worker. destruct (id =? 404); [right; eauto|].
    destruct (xkcd_Get p id) as [info|e] eqn:Hget; [|by left].
    destruct (words_Norm p (makeDescription info)); [|by left].
    right. eexists. split; [done|]. simpl. by apply Hnum. }
  - apply sublist_cons, IH.
  - rewrite fmap_cons. apply sublist_skip, IH.
Qed.

End Fetches.

(** X10.  An accepted [Update] that has read the stored ids and a last
    id that is not above the limit of the runtime asks the upstream once
    for each id from 1 to the last id that is neither stored nor 404,
    and for no other id. *)
Theorem Update_fetches_missing (choices : list nat) (s : Update.Service)
    (IDs : list Z) (lastID : Z) :
  Update.inProgress s = false ->
  Update.db_IDs (Update.ports s) = Ok IDs ->
  Update.xkcd_LastID (Update.ports s) = Ok lastID ->
  lastID <= Update.runtime_MaxChan (Update.ports s) ->
  Update.getsOf (Update.Update choices s).1.1
  ≡ₚ filter (fun id => id <> 404) (Update.missing IDs lastID)
  /\ NoDup (Update.getsOf (Update.Update choices s).1.1)
  /\ forall id,
       id ∈ Update.getsOf (Update.Update choices s).1.1
       <-> 1 <= id <= lastID /\ (id ∉ IDs) /\ id <> 404.
Proof.
  intros Hidle HIDs Hlast Hmax.
  assert (Update.getsOf (Update.Update choices s).1.1
          = filter (fun id => id <> 404)
              (Update.arrival choices (Update.missing IDs lastID))) as ->.
  { rewrite Update_idle by done. cbn [fst]. unfold Update.updateBody.
    rewrite HIDs, Hlast. cbn [Update.emit fst].
    rewrite !getsOf_app, getsOf_ingest by done. simpl.
    by rewrite app_nil_r. }
  split; [by rewrite arrival_perm|]. split.
  - rewrite arrival_perm. apply NoDup_filter, NoDup_missing.
  - intros id. rewrite arrival_perm, list_elem_of_filter, elem_of_missing.
    tauto.
Qed.

Lemma Update_fetches_missing_witness :
  Update.getsOf (Update.Update [] Update.s5Service).1.1
  ≡ₚ filter (fun id => id <> 404) (Update.missing [1; 2] 4).
Proof.
  apply (Update_fetches_missing [] Update.s5Service [1; 2] 4);
    [reflexivity.. | simpl; lia].
Defined.

(** X11.  When every id from 1 to the last id of the upstream is stored
    and the last id is not above the limit of the runtime, an accepted
    [Update] reads the stored ids and the last id and does nothing else:
    it calls neither the upstream for a comic nor the words service, the
    store or the broker, and returns [nil]. *)
Theorem Update_up_to_date (choices : list nat) (s : Update.Service)
    (IDs : list Z) (lastID : Z) :
  Update.inProgress s = false ->
  Update.db_IDs (Update.ports s) = Ok IDs ->
  Update.xkcd_LastID (Update.ports s) = Ok lastID ->
  0 <= lastID <= Update.runtime_MaxChan (Update.ports s) ->
  (forall id, 1 <= id <= lastID -> id ∈ IDs) ->
  Update.Update choices s
  = (([Update.Log Update.Info "update started"; Update.CallIDs;
       Update.Log Update.Debug "existing comics in DB"; Update.CallLastID;
       Update.Log Update.Debug "last comics ID in XKCD";
       Update.Log Update.Debug "no new comics to add";
       Update.Log Update.Info "update finished"],
      Update.Returned None),
     s).
Proof.
  intros Hidle HIDs Hlast Hpos Hall.
  assert (Update.missing IDs lastID = []) as Hnone.
  { apply elem_of_nil_inv. intros id [Hid Hnew]%elem_of_missing.
    by apply Hnew, Hall. }
  rewrite Update_idle by done. unfold Update.updateBody, Update.ingest.
  rewrite HIDs, Hlast, Hnone, arrival_nil.
  rewrite makechan_in_range by done.
  destruct s as [p c flag]. simpl in Hidle. by subst flag.
Qed.

Lemma Update_up_to_date_witness :
  (Update.Update []
     {| Update.ports :=
          {| Update.db_IDs := Ok [2; 1];
             Update.db_Add := Update.db_Add Update.s5Ports;
             Update.db_Drop := None;
             Update.xkcd_LastID := Ok 2;
             Update.xkcd_Get := Update.xkcd_Get Update.s5Ports;
             Update.words_Norm := Update.words_Norm Update.s5Ports;
             Update.publisher_Publish := fun _ => None;
             Update.runtime_MaxChan := 2 ^ 45 - 13 |};
        Update.concurrency := 1; Update.inProgress := false |}).1.2
  = Update.Returned None.
Proof.
  rewrite (Update_up_to_date [] _ [2; 1] 2);
    [reflexivity.. | simpl; lia |].
  intros id Hid. assert (id = 1 \/ id = 2) as [->| ->] by lia.
  - right. left.
  - left.
Defined.

(** X12.  [Update] writes to the store at most once, and only after all
    its calls of the upstream and of the words service: when it calls
    [Add], the batch is the non-empty list of the entries it collected,
    no call of the store or of the broker precedes it, and only log lines
    and the publication of the update event follow it. *)
Theorem Update_adds_once (choices : list nat) (s : Update.Service)
    (comics : list Update.Comic) :
  Update.CallAdd comics ∈ (Update.Update choices s).1.1 ->
  exists IDs lastID pre post,
    Update.db_IDs (Update.ports s) = Ok IDs
    /\ Update.xkcd_LastID (Update.ports s) = Ok lastID
    /\ comics = Update.produced choices (Update.ports s) IDs lastID
    /\ comics <> []
    /\ (Update.Update choices s).1.1 = pre ++ Update.CallAdd comics :: post
    /\ (forall e, e ∈ pre ->
          e = Update.CallIDs \/ e = Update.CallLastID
          \/ (exists id, e = Update.CallGet id)
          \/ (exists phrase, e = Update.CallNorm phrase)
          \/ exists lvl msg, e = Update.Log lvl msg)
    /\ (forall e, e ∈ post ->
          e = Update.CallPublish Update.EventUpdate
          \/ exists lvl msg, e = Update.Log lvl msg).
Proof.
  destruct (Update.inProgress s) eqn:Hflag.
  { rewrite Update_busy by done. by intros ?%elem_of_nil. }
  rewrite Update_idle by done. cbn [fst].
  unfold Update.updateBody, Update.ingest, Update.produced.
  destruct (Update.db_IDs (Update.ports s)) as [IDs|e1].
  2:{ unfold_trace. intuition discriminate. }
  destruct (Update.xkcd_LastID (Update.ports s)) as [lastID|e2].
  2:{ destruct (errorsIs e2 ErrNotFound); unfold_trace;
        intuition discriminate. }
  destruct ((lastID <? 0)
            || (Update.runtime_MaxChan (Update.ports s) <? lastID)).
  { unfold_trace. intuition discriminate. }
  pose proof (workers_no_Add (Update.ports s)
                (Update.arrival choices (Update.missing IDs lastID)) comics)
    as HnoAdd.
  pose proof (workers_effects (Update.ports s)
                (Update.arrival choices (Update.missing IDs lastID)))
    as Hworkers.
  set (W := concat _) in *.
  destruct (omap fst (Update.worker (Update.ports s)
                        <$> Update.arrival choices
                              (Update.missing IDs lastID)))
    as [|c rest] eqn:Hcs.
  { unfold_trace. intuition discriminate. }
  intros Hin. assert (comics = c :: rest) as ->.
  { revert Hin.
    destruct (Update.db_Add (Update.ports s) (c :: rest));
      [|destruct (Update.publisher_Publish (Update.ports s)
                    Update.EventUpdate)];
      unfold_trace; intuition congruence. }
  exists IDs, lastID,
    ([Update.Log Update.Info "update started"; Update.CallIDs;
      Update.Log Update.Debug "existing comics in DB"; Update.CallLastID;
      Update.Log Update.Debug "last comics ID in XKCD"] ++ W).
  eexists. split_and!; try done.
  - cbn [Update.emit Update.ret fst snd]. rewrite <- !app_assoc.
    cbn [app]. reflexivity.
  - intros e. rewrite elem_of_app, !elem_of_cons, elem_of_nil.
    intros [[->|[->|[->|[->|[->|[]]]]]]|HW]; eauto 8.
  - intros e.
    destruct (Update.db_Add (Update.ports s) (c :: rest));
      [|destruct (Update.publisher_Publish (Update.ports s)
                    Update.EventUpdate)];
      unfold_trace; intuition (subst; eauto).
Qed.

Lemma Update_adds_once_witness :
  exists pre post,
    (Update.Update [] Update.s5Service).1.1
    = pre ++ Update.CallAdd (Update.produced [] Update.s5Ports [1; 2] 4)
               :: post.
Proof.
  destruct (Update_adds_once [] Update.s5Service
              (Update.produced [] Update.s5Ports [1; 2] 4))
    as (IDs & lastID & pre & post & _ & _ & _ & _ & Htrace & _).
  - vm_compute. do 9 right. left.
  - by exists pre, post.
Defined.

(** ** The store of the updater *)

Section Store.

Import Storage.

Local Abbreviation rowOf :=
  (fun c : Update.Comic => (Update.URL c, Update.Words c)).

(** The batch goes in exactly when its ids are distinct and none is
    stored; the table then holds the old rows and the rows of the
    batch. *)
Lemma insertRows_spec (t : gmap Z (gostring * list gostring))
    (batch : list Update.Comic) :
  match insertRows t batch with
  | Some t' =>
      NoDup (Update.ID <$> batch)
      /\ (forall c, c ∈ batch -> t !! Update.ID c = None)
      /\ forall id row,
           t' !! id = Some row
           <-> t !! id = Some row
               \/ exists c, c ∈ batch /\ Update.ID c = id /\ row = rowOf c
  | None =>
      ~ (NoDup (Update.ID <$> batch)
         /\ forall c, c ∈ batch -> t !! Update.ID c = None)
  end.
Proof.
  revert t. induction batch as [|c batch IH]; intros t.
  - simpl. split; [constructor|]. split; [by intros c ?%elem_of_nil|].
    intros id row. split; [by left|].
    by intros [?|(c & ?%elem_of_nil & _)].
  - cbn [insertRows]. destruct (t !! Update.ID c) as [old|] eqn:Hc.
    { intros [_ Hfree]. specialize (Hfree c (list_elem_of_here _ _)).
      congruence. }
    specialize (IH (<[Update.ID c := rowOf c]> t)).
    destruct (insertRows (<[Update.ID c := rowOf c]> t) batch) as [t'|].
    + destruct IH as (Hnodup & Hfree & Hrows).
      assert (forall c', c' ∈ batch -> Update.ID c' <> Update.ID c) as Hne.
      { intros c' Hc' Heq. apply Hfree in Hc'.
        by rewrite Heq, lookup_insert_eq in Hc'. }
      split; [|split].
      * rewrite fmap_cons. apply NoDup_cons. split; [|done].
        intros (c' & Heq & Hc')%list_elem_of_fmap. by apply (Hne c').
      * intros c' [->|Hc']%elem_of_cons; [done|].
        pose proof (Hfree c' Hc') as Hnone.
        by rewrite lookup_insert_ne in Hnone by (apply not_eq_sym, Hne, Hc').
      * intros id row. rewrite Hrows. split.
        -- intros [Hrow|(c' & Hc' & Hid & Hrow)].
           ++ destruct (decide (Update.ID c = id)) as [<-|Hid].
              ** rewrite lookup_insert_eq in Hrow. injection Hrow as <-.
                 right. exists c. split; [left | done].
              ** rewrite lookup_insert_ne in Hrow by done. by left.
           ++ right. exists c'. split; [by right | done].
        -- intros [Hrow|(c' & [->|Hc']%elem_of_cons & Hid & Hrow)].
           ++ left. rewrite lookup_insert_ne; [done|]. congruence.
           ++ left. subst. by rewrite lookup_insert_eq.
           ++ right. eauto.
    + intros [[Hc' Hnodup]%NoDup_cons Hfree]. apply IH. split; [done|].
      intros c' Hin. rewrite lookup_insert_ne.
      * apply Hfree. by right.
      * intros Heq. apply Hc', list_elem_of_fmap. eauto.
Qed.

Lemma aggregate_empty : aggregate ∅ = stats migrated.
Proof.
  unfold aggregate, allWords. rewrite map_to_list_empty.
  change (([] : list (Z * (gostring * list gostring))) ≫= _)
    with ([] : list gostring).
  rewrite list_to_set_nil, size_empty, map_size_empty. done.
Qed.

Lemma apply_stats (db : DB) (op : operation) :
  stats db = aggregate (comics db) ->
  stats (apply db op) = aggregate (comics (apply db op)).
Proof.
  intros Hdb. destruct op as [f batch|f]; simpl.
  - unfold Add. destruct (onBegin f); [done|].
    destruct batch as [|c batch]; [done|].
    destruct (onExec1 f); [done|].
    destruct (insertRows (comics db) (c :: batch)); [|done].
    destruct (onExec2 f); [done|]. by destruct (onCommit f).
  - unfold Drop. destruct (onBegin f); [done|].
    destruct (onExec1 f); [done|]. destruct (onExec2 f); [done|].
    destruct (onCommit f); [done|]. simpl. by rewrite aggregate_empty.
Qed.

End Store.

Lemma Add_spec (db : Storage.DB) (f : Storage.faults)
    (batch : list Update.Comic) :
  ((Storage.Add db f batch).2 = None
   <-> Storage.onBegin f = None /\ Storage.onExec1 f = None
       /\ Storage.onExec2 f = None /\ Storage.onCommit f = None
       /\ batch <> []
       /\ NoDup (Update.ID <$> batch)
       /\ forall c, c ∈ batch -> Storage.comics db !! Update.ID c = None)
  /\ ((Storage.Add db f batch).2 <> None -> (Storage.Add db f batch).1 = db)
  /\ ((Storage.Add db f batch).2 = None ->
      forall id row,
        Storage.comics (Storage.Add db f batch).1 !! id = Some row
        <-> Storage.comics db !! id = Some row
            \/ exists c, c ∈ batch /\ Update.ID c = id
                         /\ row = (Update.URL c, Update.Words c)).
Proof.
  unfold Storage.Add.
  destruct (Storage.onBegin f);
    [split_and!; [split; [done | by intros [? _]] | done | done]|].
  destruct batch as [|c batch];
    [split_and!; [split; [done | by intros (_ & _ & _ & _ & ? & _)]
                 | done | done]|].
  destruct (Storage.onExec1 f);
    [split_and!; [split; [done | by intros (_ & ? & _)] | done | done]|].
  pose proof (insertRows_spec (Storage.comics db) (c :: batch)) as Hrows.
  destruct (Storage.insertRows (Storage.comics db) (c :: batch)) as [t|].
  2:{ split_and!; [split; [done|] | done | done].
      intros (_ & _ & _ & _ & _ & ? & ?). by destruct Hrows. }
  destruct Hrows as (Hnodup & Hfree & Hrows).
  destruct (Storage.onExec2 f);
    [split_and!; [split; [done | by intros (_ & _ & ? & _)] | done | done]|].
  destruct (Storage.onCommit f);
    [split_and!; [split; [done | by intros (_ & _ & _ & ? & _)]
                 | done | done]|].
  split_and!; [by split | done | intros _; exact Hrows].
Qed.


(** X13.  [Add] stores the whole batch or nothing.  It succeeds exactly
    when no step of the transaction fails, the batch is not empty, its
    ids are distinct and none of them is stored; the table then holds the
    rows it held and the rows of the batch.  When it fails, the table and
    the statistics are as before. *)
Theorem Add_all_or_nothing (db : Storage.DB) (f : Storage.faults)
    (batch : list Update.Comic) :
  ((Storage.Add db f batch).2 = None
   <-> Storage.onBegin f = None /\ Storage.onExec1 f = None
       /\ Storage.onExec2 f = None /\ Storage.onCommit f = None
       /\ batch <> []
       /\ NoDup (Update.ID <$> batch)
       /\ forall c, c ∈ batch -> Storage.comics db !! Update.ID c = None)
  /\ ((Storage.Add db f batch).2 <> None -> (Storage.Add db f batch).1 = db)
  /\ ((Storage.Add db f batch).2 = None ->
      forall id row,
        Storage.comics (Storage.Add db f batch).1 !! id = Some row
        <-> Storage.comics db !! id = Some row
            \/ exists c, c ∈ batch /\ Update.ID c = id
                         /\ row = (Update.URL c, Update.Words c)).
Proof. apply Add_spec. Qed.

(** X14.  After any sequence of [Add] and [Drop], failed or not, on the
    migrated database, the row of statistics is the aggregate of the
    table: the number of rows, the number of their words and the number
    of their distinct words.  The ids listed are distinct and as many as
    the statistics count. *)
Theorem stats_follow_table (ops : list Storage.operation) :
  Storage.Stats (foldl Storage.apply Storage.migrated ops) None
  = Ok (Storage.aggregate
          (Storage.comics (foldl Storage.apply Storage.migrated ops)))
  /\ exists ids,
       Storage.IDs (foldl Storage.apply Storage.migrated ops) None = Ok ids
       /\ NoDup ids
       /\ Storage.ComicsFetched
            (Storage.stats (foldl Storage.apply Storage.migrated ops))
          = Z.of_nat (length ids).
Proof.
  assert (Storage.stats (foldl Storage.apply Storage.migrated ops)
          = Storage.aggregate
              (Storage.comics (foldl Storage.apply Storage.migrated ops)))
    as Hinv.
  { induction ops as [|op ops IH] using rev_ind.
    - simpl. symmetry. apply aggregate_empty.
    - rewrite foldl_app. simpl. by apply apply_stats. }
  split; [simpl; by rewrite Hinv|].
  eexists. split; [reflexivity|]. split.
  - apply NoDup_fst_map_to_list.
  - rewrite Hinv. simpl. by rewrite length_fmap, length_map_to_list.
Qed.

(** X15.  When the upstream answers each request with the comic of the
    number asked for, the batch that [Update] collects from the ids the
    store listed has distinct ids, none of them stored: the store takes
    it whenever it is not empty and no step of the transaction fails. *)
Theorem Update_batch_fits_store (choices : list nat) (p : Update.Ports)
    (db : Storage.DB) (IDs : list Z) (lastID : Z) :
  (forall id info, Update.xkcd_Get p id = Ok info -> Update.infoID info = id) ->
  Storage.IDs db None = Ok IDs ->
  NoDup (Update.ID <$> Update.produced choices p IDs lastID)
  /\ (forall c, c ∈ Update.produced choices p IDs lastID ->
        1 <= Update.ID c <= lastID
        /\ Storage.comics db !! Update.ID c = None)
  /\ (Update.produced choices p IDs lastID <> [] ->
      (Storage.Add db Storage.noFaults
         (Update.produced choices p IDs lastID)).2 = None).
Proof.
  intros Hnum [= <-].
  set (IDs := (map_to_list (Storage.comics db)).*1).
  pose proof (workers_ids p (Update.arrival choices (Update.missing IDs lastID))
                Hnum) as Hsub.
  fold (Update.produced choices p IDs lastID) in Hsub.
  assert (NoDup (Update.ID <$> Update.produced choices p IDs lastID))
    as Hnodup.
  { assert (NoDup (Update.arrival choices (Update.missing IDs lastID)))
      as Harrival by (rewrite arrival_perm; apply NoDup_missing).
    exact (sublist_NoDup _ _ Harrival Hsub). }
  assert (forall c, c ∈ Update.produced choices p IDs lastID ->
            1 <= Update.ID c <= lastID
            /\ Storage.comics db !! Update.ID c = None) as Hfree.
  { intros c Hc.
    assert (Update.ID c ∈ Update.missing IDs lastID) as Hmissing.
    { rewrite <- (arrival_perm choices).
      apply (elem_of_sublist _ _ _ (list_elem_of_fmap_2 Update.ID _ _ Hc) Hsub). }
    apply elem_of_missing in Hmissing as [? Hnew]. split; [done|].
    apply eq_None_not_Some. intros [row Hrow]. apply Hnew.
    apply list_elem_of_fmap. exists (Update.ID c, row). split; [done|].
    by apply elem_of_map_to_list. }
  split; [done|]. split; [done|]. intros Hsome.
  apply (proj1 (Add_spec db Storage.noFaults _)).
  split_and!; try done. intros c Hc. by apply Hfree.
Qed.

Lemma Update_batch_fits_store_witness :
  (Storage.Add Storage.migrated Storage.noFaults
     (Update.produced [] Update.s5Ports [] 4)).2 = None.
Proof.
  apply (Update_batch_fits_store [] Update.s5Ports Storage.migrated [] 4).
  - intros id info. simpl.
    destruct (Z.eqb_spec id 3) as [->|_]; [by intros [= <-]|].
    destruct (Z.eqb_spec id 4) as [->|_]; [by intros [= <-] | done].
  - reflexivity.
  - by vm_compute.
Defined.

(** ** The updater: a last id the runtime makes no channel for *)

(** X16.  [Update] panics exactly when it is accepted, the stored ids
    are read and the upstream reports a last id that is negative or
    above the limit of the runtime for the size of a channel.  It has
    then called neither the upstream for a comic nor the store nor the
    broker, and the deferred calls have run: the last log line is
    written and the flag is down. *)
Theorem Update_panics_iff (choices : list nat) (s : Update.Service) :
  ((Update.Update choices s).1.2 = Update.Panicked
   <-> Update.inProgress s = false
       /\ exists IDs lastID,
            Update.db_IDs (Update.ports s) = Ok IDs
            /\ Update.xkcd_LastID (Update.ports s) = Ok lastID
            /\ (lastID < 0
                \/ Update.runtime_MaxChan (Update.ports s) < lastID))
  /\ ((Update.Update choices s).1.2 = Update.Panicked ->
      (Update.Update choices s).1.1
      = [Update.Log Update.Info "update started"; Update.CallIDs;
         Update.Log Update.Debug "existing comics in DB"; Update.CallLastID;
         Update.Log Update.Debug "last comics ID in XKCD";
         Update.Log Update.Info "update finished"]
      /\ Update.inProgress (Update.Update choices s).2 = false).
Proof.
  destruct (Update.inProgress s) eqn:Hflag.
  { rewrite Update_busy by done. split; [|done].
    split; [done | by intros [? _]]. }
  rewrite Update_idle by done. cbn [fst snd Update.inProgress
                                    Update.withInProgress].
  unfold Update.updateBody.
  destruct (Update.db_IDs (Update.ports s)) as [IDs|e1].
  2:{ split; [|done]. split; [done | by intros (_ & ? & ? & ? & _)]. }
  destruct (Update.xkcd_LastID (Update.ports s)) as [lastID|e2].
  2:{ split; [|done]. split; [done | by intros (_ & ? & ? & _ & ? & _)]. }
  cbn [Update.emit fst snd].
  destruct (decide (0 <= lastID
                    <= Update.runtime_MaxChan (Update.ports s)))
    as [Hin|Hout].
  2:{ unfold Update.ingest. rewrite makechan_out_of_range by lia.
      split; [|done]. split; [|done]. intros _. split; [done|].
      exists IDs, lastID. split; [done|]. split; [done|]. lia. }
  - rewrite ingest_outcome by done.
    assert (forall r : Update.outcome,
              match Update.produced choices (Update.ports s) IDs lastID with
              | [] => Update.Returned None
              | c :: l =>
                  match Update.db_Add (Update.ports s) (c :: l) with
                  | Some e =>
                      Update.Returned (Some (Wrapf "failed to add comics" e))
                  | None => Update.Returned None
                  end
              end = r -> r <> Update.Panicked) as Hreturned.
    { intros r <-.
      destruct (Update.produced choices (Update.ports s) IDs lastID);
        [done|].
      by destruct (Update.db_Add (Update.ports s) _). }
    split.
    + split; [by intros ?%Hreturned|].
      intros (_ & IDs' & lastID' & [= <-] & [= <-] & ?). lia.
    + by intros ?%Hreturned.
Qed.

(** On linux/amd64 a last id of 2^62 is above the limit: [Update]
    panics after reading it. *)
Example Update_huge_last_id :
  (Update.Update []
     {| Update.ports :=
          {| Update.db_IDs := Ok [1; 2];
             Update.db_Add := Update.db_Add Update.s5Ports;
             Update.db_Drop := None;
             Update.xkcd_LastID := Ok (2 ^ 62);
             Update.xkcd_Get := Update.xkcd_Get Update.s5Ports;
             Update.words_Norm := Update.words_Norm Update.s5Ports;
             Update.publisher_Publish := fun _ => None;
             Update.runtime_MaxChan := 2 ^ 45 - 13 |};
        Update.concurrency := 1; Update.inProgress := false |}).1
  = ([Update.Log Update.Info "update started"; Update.CallIDs;
      Update.Log Update.Debug "existing comics in DB"; Update.CallLastID;
      Update.Log Update.Debug "last comics ID in XKCD";
      Update.Log Update.Info "update finished"],
     Update.Panicked).
Proof. reflexivity. Qed.

(** ** The workers over the adapters *)

(** X17.  Over the client of the upstream, a worker has an entry for an
    id other than 404 exactly when the upstream answers 200 with a body
    that decodes and the words service normalizes the description; the
    entry carries the number and the link of the body.  When the
    upstream answers 404 the worker sends nothing and writes a debug
    line. *)
Theorem worker_over_upstream (up : Update.upstream) (p : Update.Ports)
    (id : Z) :
  id <> 404 ->
  (forall c,
     (Update.worker (Update.overUpstream up p) id).1 = Some c
     <-> exists info keywords,
           up (Some id) = Update.Responded 200 (Ok info)
           /\ Update.words_Norm p (Update.makeDescription info) = Ok keywords
           /\ c = {| Update.ID := Update.infoID info;
                     Update.URL := Update.infoURL info;
                     Update.Words := keywords |})
  /\ (forall decoded,
        up (Some id) = Update.Responded 404 decoded ->
        Update.worker (Update.overUpstream up p) id
        = (None, [Update.CallGet id;
                  Update.Log Update.Debug "comic not found"])).
Proof.
  intros Hid. unfold Update.worker.
  replace (id =? 404) with false by (symmetry; by apply Z.eqb_neq).
  cbn [Update.overUpstream Update.xkcd_Get Update.words_Norm].
  unfold Update.Get, Update.readInfo. split.
  - intros c. destruct (up (Some id)) as [e|e|e|statusCode decoded].
    1-3: (split; [done | by intros (? & ? & ? & _)]).
    destruct (Z.eqb_spec statusCode 200) as [->|Hstatus]; simpl.
    + destruct decoded as [info|e]; simpl.
      * destruct (Update.words_Norm p (Update.makeDescription info))
          as [keywords|e] eqn:Hnorm; simpl.
        -- split; [intros [= <-]; eauto|].
           intros (info' & keywords' & [= <-] & Hnorm' & ->).
           rewrite Hnorm in Hnorm'. by injection Hnorm' as <-.
        -- split; [done|].
           intros (info' & keywords' & [= <-] & Hnorm' & _). congruence.
      * split; [done | by intros (? & ? & ? & _)].
    + destruct (statusCode =? 404); simpl;
        (split; [done | intros (? & ? & [= ? _] & _); done]).
  - intros decoded ->. reflexivity.
Qed.

Lemma worker_over_upstream_witness :
  (Update.worker
     (Update.overUpstream
        (fun _ => Update.Responded 200 (Ok (Update.s5Info 3 "New")))
        Update.s5Ports) 3).1
  = Some {| Update.ID := 3; Update.URL := [];
            Update.Words := [runes "new"; runes "comic"] |}.
Proof.
  apply (proj1 (worker_over_upstream
                  (fun _ => Update.Responded 200 (Ok (Update.s5Info 3 "New")))
                  Update.s5Ports 3 ltac:(lia))).
  exists (Update.s5Info 3 "New"), [runes "new"; runes "comic"].
  by split_and!.
Defined.

(** X18.  Over the client of the words service, a worker stores for a
    fetched comic the keywords that [Norm] finds in its description when
    the description has at most 1048576 bytes; a longer description is
    refused by the words service, and the worker sends nothing for the
    comic. *)
Theorem worker_description_limit (u : UnicodeTables) (p : Update.Ports)
    (id : Z) (info : Update.XKCDInfo) :
  id <> 404 ->
  Update.xkcd_Get p id = Ok info ->
  (byteLen (Update.makeDescription info) <= WordsService.maxPhraseLen ->
   Update.worker (WordsService.overWords u p) id
   = (Some {| Update.ID := Update.infoID info;
              Update.URL := Update.infoURL info;
              Update.Words := WordsNorm u (Update.makeDescription info) |},
      [Update.CallGet id; Update.CallNorm (Update.makeDescription info)]))
  /\ (WordsService.maxPhraseLen < byteLen (Update.makeDescription info) ->
      Update.worker (WordsService.overWords u p) id
      = (None,
         [Update.CallGet id; Update.CallNorm (Update.makeDescription info);
          Update.Log Update.Error "failed to normalize comic description"])).
Proof.
  intros Hid Hget. unfold Update.worker.
  replace (id =? 404) with false by (symmetry; by apply Z.eqb_neq).
  cbn [WordsService.overWords Update.xkcd_Get Update.words_Norm].
  rewrite Hget. unfold WordsService.clientNorm, WordsService.serverNorm.
  split; intros Hlen.
  - by replace (WordsService.maxPhraseLen
                <? byteLen (Update.makeDescription info))
      with false by (symmetry; apply Z.ltb_ge; lia).
  - by replace (WordsService.maxPhraseLen
                <? byteLen (Update.makeDescription info))
      with true by (symmetry; apply Z.ltb_lt; lia).
Qed.

Lemma worker_description_limit_witness :
  Update.worker (WordsService.overWords asciiTables Update.s5Ports) 3
  = (Some {| Update.ID := 3; Update.URL := [];
             Update.Words := WordsNorm asciiTables
                               (Update.makeDescription
                                  (Update.s5Info 3 "New")) |},
     [Update.CallGet 3;
      Update.CallNorm (Update.makeDescription (Update.s5Info 3 "New"))]).
Proof.
  apply (proj1 (worker_description_limit asciiTables Update.s5Ports 3
                  (Update.s5Info 3 "New") ltac:(lia) eq_refl)).
  by vm_compute.
Defined.

(** ** The concurrency limiter *)

Section Limiter.

Import Concurrency.

Lemma reachable_held (cl : ConcurrencyLimiter) (σ : system) :
  held cl = 0 -> 0 <= capacity cl ->
  reachable cl σ ->
  held (limiter σ) = Z.of_nat (length (serving σ))
  /\ held (limiter σ) <= capacity (limiter σ)
  /\ capacity (limiter σ) = capacity cl.
Proof.
  intros Hheld Hcap. induction 1 as [|σ ev σ' _ IH Hstep].
  - simpl. rewrite Hheld. by split_and!.
  - destruct IH as (IHheld & IHcap & IHsame).
    destruct Hstep as [r σ|i r σ Hi].
    + unfold enter, tryAcquire.
      destruct (Z.ltb_spec (held (limiter σ)) (capacity (limiter σ)));
        simpl; split_and!; try done; lia.
    + unfold leave, release. simpl.
      rewrite length_delete by eauto.
      apply lookup_lt_Some in Hi. split_and!; try done; lia.
Qed.

End Limiter.

(** X19.  For a limiter made for [n] requests, in every state that
    arrivals and completions can reach the requests being served are at
    most [n]; a request that arrives is answered 503 without reaching
    the handler exactly when [n] requests are being served, and then
    nothing changes. *)
Theorem Limit_bounds_serving (n : Z) (cl : Concurrency.ConcurrencyLimiter)
    (σ : Concurrency.system) :
  Concurrency.NewConcurrencyLimiter n = Some cl ->
  Concurrency.reachable cl σ ->
  Z.of_nat (length (Concurrency.serving σ)) <= n
  /\ (forall r,
        ((Concurrency.enter r σ).1 = Concurrency.Unavailable r
         <-> Z.of_nat (length (Concurrency.serving σ)) = n)
        /\ ((Concurrency.enter r σ).1 = Concurrency.Served r
            <-> Z.of_nat (length (Concurrency.serving σ)) < n)
        /\ ((Concurrency.enter r σ).1 = Concurrency.Unavailable r ->
            (Concurrency.enter r σ).2 = σ))
  /\ (forall next,
        Concurrency.Limit (Concurrency.limiter σ) next
        = if decide (Z.of_nat (length (Concurrency.serving σ)) = n)
          then 503 else next).
Proof.
  unfold Concurrency.NewConcurrencyLimiter.
  destruct (Z.ltb_spec n 0) as [?|Hn]; [done|]. intros [= <-] Hreach.
  apply reachable_held in Hreach as (Hheld & Hle & Hcap); [|done..].
  simpl in Hcap. rewrite Hcap in Hle. rewrite Hheld in Hle.
  split; [done|].
  unfold Concurrency.Limit, Concurrency.enter, Concurrency.tryAcquire.
  rewrite Hcap, Hheld.
  destruct (Z.ltb_spec (Z.of_nat (length (Concurrency.serving σ))) n);
    simpl; split.
  - intros r. split_and!; [split; [done | lia] | done | done].
  - intros next. by rewrite decide_False by lia.
  - intros r. split_and!; [split; [lia | done] | split; [done | lia] | done].
  - intros next. by rewrite decide_True by lia.
Qed.

Lemma Limit_bounds_serving_witness :
  Concurrency.Limit
    (Concurrency.limiter
       (Concurrency.enter 0
          {| Concurrency.limiter :=
               {| Concurrency.capacity := 1; Concurrency.held := 0 |};
             Concurrency.serving := [] |}).2)
    200
  = 503.
Proof.
  rewrite (proj2 (proj2 (Limit_bounds_serving 1
                           {| Concurrency.capacity := 1;
                              Concurrency.held := 0 |}
                           _ eq_refl
                           (Concurrency.reachable_step _ _ _ _
                              (Concurrency.reachable_initial _)
                              (Concurrency.step_enter 0 _))))).
  reflexivity.
Defined.

(** ** The search handlers of the gateway *)

(** X20.  A search handler answers 400 without calling the searcher
    exactly when the phrase is empty or the limit is given and is not a
    positive decimal number of the range of [int].  Otherwise it calls
    the searcher once, with the limit given or with 10 when none is
    given, and answers 200, 400, 500 or 503 after its reply; with 200
    the total is the number of comics returned. *)
Theorem NewSearchHandler_bad_request (phrase limitStr : gostring) :
  ((forall searcher,
      Rest.NewSearchHandler searcher phrase limitStr = (400, None))
   <-> phrase = []
       \/ (limitStr <> [] /\ forall v, Rest.Atoi limitStr = Some v -> v <= 0))
  /\ (phrase <> [] -> limitStr = [] ->
      forall searcher,
        Rest.NewSearchHandler searcher phrase limitStr
        = Rest.respond (searcher phrase 10))
  /\ (forall v, phrase <> [] -> Rest.Atoi limitStr = Some v -> 0 < v ->
      forall searcher,
        Rest.NewSearchHandler searcher phrase limitStr
        = Rest.respond (searcher phrase v))
  /\ (forall searcher,
        match Rest.NewSearchHandler searcher phrase limitStr with
        | (status, Some body) =>
            status = 200
            /\ Rest.Total body = Z.of_nat (length (Rest.Comics body))
        | (status, None) => status = 400 \/ status = 500 \/ status = 503
        end).
Proof.
  assert (forall r,
            match Rest.respond r with
            | (status, Some body) =>
                status = 200
                /\ Rest.Total body = Z.of_nat (length (Rest.Comics body))
            | (status, None) => status = 400 \/ status = 500 \/ status = 503
            end) as Hrespond.
  { intros [comics|e]; simpl; [done|].
    destruct (errorsIs e ErrBadArguments); [tauto|].
    destruct (errorsIs e ErrServiceUnavailable); tauto. }
  unfold Rest.NewSearchHandler.
  destruct (decide (phrase = [])) as [->|Hphrase].
  { rewrite bool_decide_true by done. split_and!; try done; tauto. }
  rewrite bool_decide_false by done.
  destruct (Rest.Atoi limitStr) as [limit|] eqn:Hatoi.
  - assert (limitStr <> []) as Hgiven by (by intros ->).
    destruct (Z.leb_spec limit 0) as [Hle|Hgt].
    + split_and!.
      * split; [intros _; right; split; [done|]; by intros v [= <-]|done].
      * done.
      * intros v _ [= <-]. lia.
      * intros _. tauto.
    + split_and!.
      * split.
        -- intros Hbad. by specialize (Hbad (fun _ _ => Ok [])).
        -- intros [?|[_ Hv]]; [done|]. specialize (Hv limit eq_refl). lia.
      * done.
      * by intros v _ [= <-] _.
      * intros searcher. apply Hrespond.
  - case_bool_decide as Hgiven.
    + split_and!.
      * split.
        -- intros Hbad. by specialize (Hbad (fun _ _ => Ok [])).
        -- by intros [?|[? _]].
      * done.
      * done.
      * intros searcher. apply Hrespond.
    + split_and!; try done.
      * split; [intros _; right; by split | done].
      * intros _. tauto.
Qed.

(** ** The normalizer: phrases in parts *)

(** X21.  For two parts of a phrase set apart by a rune that is neither
    a letter nor a number, the keywords of the phrase are the keywords of
    the first part followed by those keywords of the second part that
    the first part does not have. *)
Theorem Norm_separator_split (u : UnicodeTables) (p q : gostring)
    (r : rune) :
  Words.isSeparator u r = true ->
  WordsNorm u (p ++ r :: q)
  = WordsNorm u p
    ++ filter (fun k => k ∉ WordsNorm u p) (WordsNorm u q).
Proof.
  intros Hsep. unfold WordsNorm, Words.Norm, FieldsFunc.
  rewrite (fieldsFrom_separator _ _ _ _ _ Hsep), foldl_app.
  apply (normStep_frame _ _ (fieldsFrom (Words.isSeparator u) [] p)).
  apply normInv_foldl.
Qed.

Lemma Norm_separator_split_witness :
  WordsNorm asciiTables (runes "running cats" ++ 44 :: runes "cat runs far")
  = WordsNorm asciiTables (runes "running cats")
    ++ filter (fun k => k ∉ WordsNorm asciiTables (runes "running cats"))
         (WordsNorm asciiTables (runes "cat runs far")).
Proof.
  apply (Norm_separator_split asciiTables (runes "running cats")
           (runes "cat runs far") 44).
  reflexivity.
Defined.

(** ** The updater and its store: the next update *)

Section NextUpdate.

Import Update.

Lemma worker_keeps_id (p : Ports) (id : Z) (c : Comic) :
  (forall id info, xkcd_Get p id = Ok info -> infoID info = id) ->
  (worker p id).1 = Some c -> ID c = id.
Proof.
  intros Hnum. unfold worker. destruct (id =? 404); [by intros [= <-]|].
  destruct (xkcd_Get p id) as [info|e] eqn:Hget; [|done].
  destruct (words_Norm p (makeDescription info)); [|done].
  intros [= <-]. simpl. by apply Hnum.
Qed.

Lemma elem_of_produced (choices : list nat) (p : Ports) (IDs : list Z)
    (lastID : Z) (c : Comic) :
  c ∈ produced choices p IDs lastID
  <-> exists id, id ∈ missing IDs lastID /\ (worker p id).1 = Some c.
Proof.
  unfold produced. rewrite list_elem_of_omap. split.
  - intros (r & (id & -> & Hid)%list_elem_of_fmap & Hc).
    exists id. split; [|done]. by rewrite <- (arrival_perm choices).
  - intros (id & Hid & Hc). exists (worker p id). split; [|done].
    apply list_elem_of_fmap. exists id. split; [done|].
    by rewrite arrival_perm.
Qed.

End NextUpdate.

(** X22.  When the upstream answers each request with the comic of the
    number asked for and the store has taken the batch of an update, the
    ids that the next update finds missing are those the workers of this
    one had no entry for: what was fetched, and the tombstone of 404, is
    not asked for again. *)
Theorem Update_stores_fetched (choices : list nat) (p : Update.Ports)
    (db db' : Storage.DB) (IDs : list Z) (lastID : Z) :
  (forall id info, Update.xkcd_Get p id = Ok info -> Update.infoID info = id) ->
  Storage.IDs db None = Ok IDs ->
  Storage.Add db Storage.noFaults (Update.produced choices p IDs lastID)
  = (db', None) ->
  exists IDs',
    Storage.IDs db' None = Ok IDs'
    /\ forall id,
         id ∈ Update.missing IDs' lastID
         <-> id ∈ Update.missing IDs lastID
             /\ (Update.worker p id).1 = None.
Proof.
  intros Hnum [= <-] Hadd. eexists. split; [reflexivity|]. intros id.
  pose proof (Add_spec db Storage.noFaults
                (Update.produced choices p
                   (map_to_list (Storage.comics db)).*1 lastID))
    as (_ & _ & Hrows).
  rewrite Hadd in Hrows. specialize (Hrows eq_refl). cbn [fst] in Hrows.
  assert (forall (t : gmap Z (gostring * list gostring)) i,
            i ∈ (map_to_list t).*1 <-> is_Some (t !! i)) as Hkeys.
  { intros t i. rewrite list_elem_of_fmap. split.
    - intros ([i' row] & -> & Hrow%elem_of_map_to_list). eauto.
    - intros [row Hrow]. exists (i, row). split; [done|].
      by apply elem_of_map_to_list. }
  rewrite !elem_of_missing, !Hkeys. split.
  - intros [Hrange Hnew]. split; [split; [done|] |].
    + intros [row Hrow]. apply Hnew. exists row. apply Hrows. by left.
    + destruct (Update.worker p id).1 as [c|] eqn:Hc; [|done].
      exfalso. apply Hnew. exists (Update.URL c, Update.Words c).
      apply Hrows. right. exists c.
      split; [|split; [by eapply worker_keeps_id | done]].
      apply elem_of_produced. exists id. split; [|done].
      apply elem_of_missing. split; [done|]. rewrite Hkeys.
      intros [row Hrow]. apply Hnew. exists row. apply Hrows. by left.
  - intros [[Hrange Hnew] Hnone]. split; [done|].
    intros [row [Hrow|(c & Hc & Hid & _)]%Hrows]; [apply Hnew; eauto|].
    apply elem_of_produced in Hc as (id' & _ & Hc).
    rewrite <- (worker_keeps_id p id' c Hnum Hc) in Hc.
    rewrite Hid in Hc. congruence.
Qed.

Lemma Update_stores_fetched_witness :
  exists IDs',
    Storage.IDs
      (Storage.Add Storage.migrated Storage.noFaults
         (Update.produced [] Update.s5Ports [] 4)).1 None
    = Ok IDs'
    /\ forall id,
         id ∈ Update.missing IDs' 4
         <-> id ∈ Update.missing [] 4
             /\ (Update.worker Update.s5Ports id).1 = None.
Proof.
  apply (Update_stores_fetched [] Update.s5Ports Storage.migrated _ [] 4).
  - intros id info. simpl.
    destruct (Z.eqb_spec id 3) as [->|_]; [by intros [= <-]|].
    destruct (Z.eqb_spec id 4) as [->|_]; [by intros [= <-] | done].
  - reflexivity.
  - by vm_compute.
Defined.
